(** * Crossword CSP solver (generate.py): shallow embedding and verification

    The development follows the class [CrosswordCreator] of [generate.py]:
    node consistency, [revise] / [ac3], the [consistent] predicate, the two
    ordering heuristics, the [backtrack] search and [letter_grid].

    Python sets and dicts are iterated in an order the language fixes only at
    run time.  A set is modelled by a duplicate-free list that lists its
    elements in iteration order; the [domains] dict, which is only ever
    accessed by key, is a [gmap]; an assignment dict, whose insertion order
    the code observes, is an association list. *)

From Stdlib Require Import Ascii String.
From stdpp Require Import base decidable countable list gmap fin_maps strings sorting.

#[local] Set Warnings "-clear-no-such-hyp".

Local Open Scope string_scope.
Local Open Scope list_scope.
Local Open Scope nat_scope.

(** ** Exceptions and the result monad *)

(** The exceptions the modelled code can raise.  [OutOfFuel] is not a Python
    exception: it marks the exhaustion of the budget of the two loops that
    are defined by recursion on fuel; [ac3_terminates], [backtrack_fuel_enough]
    and [solve_terminates] show that it is never produced. *)
Inductive exn : Type :=
  | KeyError
  | IndexError
  | TypeError
  | OutOfFuel.

Inductive result (A : Type) : Type :=
  | Ok (a : A)
  | Raise (e : exn).

Arguments Ok {A} a.
Arguments Raise {A} e.

Definition bind {A B : Type} (m : result A) (k : A → result B) : result B :=
  match m with
  | Ok a => k a
  | Raise e => Raise e
  end.

Notation "'let*' x ':=' m 'in' k" := (bind m (fun x => k))
  (at level 10, x name, m at level 100, k at level 200,
   format "'[v' 'let*'  x  :=  m  'in'  '/' k ']'").
Notation "'let*' ' p ':=' m 'in' k" := (bind m (fun x => match x with p => k end))
  (at level 10, p pattern, m at level 100, k at level 200,
   format "'[v' 'let*'  ' p  :=  m  'in'  '/' k ']'").

#[global] Instance exn_eq_dec : EqDecision exn.
Proof. solve_decision. Defined.

#[global] Instance result_eq_dec {A} `{EqDecision A} : EqDecision (result A).
Proof. solve_decision. Defined.

(** A [for] loop whose body may raise: the state is threaded left to right
    and the first exception aborts the loop. *)
Fixpoint for_each {A S : Type} (body : S → A → result S) (l : list A) (s : S)
  : result S :=
  match l with
  | [] => Ok s
  | a :: l' => let* s' := body s a in for_each body l' s'
  end.

(** ** Data model *)

(** The class [Variable] of the module [crossword] (the word is reserved in
    Rocq, hence [Var]).  The solver reads the four fields [variable.i],
    [variable.j], [variable.direction] and [key.length]; two variables are
    equal iff all four fields match. *)
Module Var.

Inductive Direction : Type := ACROSS | DOWN.

Record t : Type := mk {
  i : nat;
  j : nat;
  direction : Direction;
  length : nat
}.

#[global] Instance Direction_eq_dec : EqDecision Direction.
Proof. solve_decision. Defined.

#[global] Instance eq_dec : EqDecision t.
Proof. solve_decision. Defined.

#[global] Instance Direction_countable : Countable Direction.
Proof.
  refine (inj_countable' (λ d, match d with ACROSS => false | DOWN => true end)
                         (λ b : bool, if b then DOWN else ACROSS) _).
  by intros [].
Defined.

#[global] Instance countable : Countable t.
Proof.
  refine (inj_countable'
            (λ v, (i v, j v, direction v, length v))
            (λ q, match q with (a, b, d, n) => mk a b d n end) _).
  by intros [].
Defined.

End Var.

(** The [Crossword] object is built by the module [crossword]; the solver
    reads its [variables] set and its [words] set (here in iteration order)
    and its [overlaps] table, which maps a pair of variables to the indices
    of the shared square in the two words, or to [None]. *)
Record Crossword : Type := mkCrossword {
  variables : list Var.t;
  words : list string;
  overlaps : Var.t → Var.t → option (nat * nat)
}.

(** Modelled from the spec: the method [Crossword.neighbors] belongs to the
    module [crossword], whose source is not at hand; it is "a neighbors(v)
    query returning all variables overlapping v".  The result is a fresh set
    on every call. *)
Definition neighbors (cw : Crossword) (var : Var.t) : list Var.t :=
  filter (λ v, v ≠ var ∧ is_Some (overlaps cw v var)) (variables cw).

(** [self.domains]: one word set per variable. *)
Abbreviation Domains := (gmap Var.t (list string)).

(** [self.domains[x]] *)
Definition dom_get (d : Domains) (x : Var.t) : result (list string) :=
  match d !! x with
  | Some ws => Ok ws
  | None => Raise KeyError
  end.

(** [s.remove(w)] on a set: the element disappears, [KeyError] if absent. *)
Definition set_remove (w : string) (ws : list string) : result (list string) :=
  if decide (w ∈ ws) then Ok (filter (λ w', w' ≠ w) ws) else Raise KeyError.

(** [self.domains[x].remove(w)] *)
Definition dom_remove (d : Domains) (x : Var.t) (w : string) : result Domains :=
  let* ws := dom_get d x in
  let* ws' := set_remove w ws in
  Ok (<[x := ws']> d).

(** [word[k]] on a Python string, for a non-negative index. *)
Definition char_at (word : string) (k : nat) : result ascii :=
  match String.get k word with
  | Some c => Ok c
  | None => Raise IndexError
  end.

(** [len(word)] *)
Definition len (word : string) : nat := String.length word.

(** [__init__]: every variable starts with a copy of the whole word set. *)
Definition init_domains (cw : Crossword) : Domains :=
  list_to_map ((λ var, (var, words cw)) <$> variables cw).

(** ** Node consistency *)

(** [for key in self.domains]: the keys of the dict.  The body of the loop
    below touches [self.domains[key]] only, so the order in which the keys
    are visited does not show in the result. *)
Definition dom_keys (d : Domains) : list Var.t := (map_to_list d).*1.

Definition enforce_node_consistency (d : Domains) : result Domains :=
  for_each (λ d key,
      let* domainCopy := dom_get d key in
      for_each (λ d word,
          if decide (len word ≠ Var.length key)
          then dom_remove d key word
          else Ok d)
        domainCopy d)
    (dom_keys d) d.

(** ** Arc consistency *)

(** [revise(x, y)].  The inner loop iterates over the live set
    [self.domains[y]]; the arcs the solver builds have [x ≠ y], so the removal
    from [self.domains[x]] never touches the set being iterated. *)
Definition revise (cw : Crossword) (x y : Var.t) (d : Domains)
  : result (bool * Domains) :=
  match overlaps cw x y with
  | None => Ok (false, d)
  | Some overlap =>
    let* x_domains := dom_get d x in
    for_each (λ '(revisone_made, d) val_x,
        let* y_domain := dom_get d y in
        let* '(_, revisone_made, d) :=
          for_each (λ '(count, revisone_made, d) val_y,
              let* cy := char_at val_y overlap.2 in
              let* cx := char_at val_x overlap.1 in
              let count := if decide (cy ≠ cx) then S count else count in
              let* dy := dom_get d y in
              if decide (count = length dy)
              then let* d := dom_remove d x val_x in Ok (count, true, d)
              else Ok (count, revisone_made, d))
            y_domain (0, revisone_made, d) in
        Ok (revisone_made, d))
      x_domains (false, d)
  end.

Abbreviation Arc := (Var.t * Var.t)%type.

(** The initial queue built when [not arcs]: every ordered pair of a variable
    and one of its neighbors, without repetition. *)
Definition all_arcs (cw : Crossword) : list Arc :=
  foldl (λ arcs variable,
      foldl (λ arcs neighbor,
          if decide ((variable, neighbor) ∈ arcs) then arcs
          else arcs ++ [(variable, neighbor)])
        arcs (neighbors cw variable))
    [] (variables cw).

(** [x_neighbors.remove(y)] on a set of variables. *)
Definition var_set_remove (y : Var.t) (vs : list Var.t) : result (list Var.t) :=
  if decide (y ∈ vs) then Ok (filter (λ v, v ≠ y) vs) else Raise KeyError.

(** The [while len(arcs) != 0] loop, by recursion on [fuel]. *)
Fixpoint ac3_loop (cw : Crossword) (fuel : nat) (arcs : list Arc) (d : Domains)
  : result (bool * Domains) :=
  match arcs with
  | [] => Ok (true, d)
  | (x, y) :: arcs =>
    match fuel with
    | 0 => Raise OutOfFuel
    | S fuel =>
      let* '(revised, d) := revise cw x y d in
      if revised : bool then
        let* dx := dom_get d x in
        if decide (length dx = 0) then Ok (false, d)
        else
          let* x_neighbors := var_set_remove y (neighbors cw x) in
          ac3_loop cw fuel (arcs ++ ((λ z, (z, x)) <$> x_neighbors)) d
      else ac3_loop cw fuel arcs d
    end
  end.

(** Total number of words over all domains. *)
Definition domains_size (d : Domains) : nat :=
  sum_list_with (λ kv, length kv.2) (map_to_list d).

(** A number of iterations the loop cannot exceed: each iteration either
    consumes an arc or removes a word and adds at most one arc per variable. *)
Definition ac3_fuel (cw : Crossword) (arcs : list Arc) (d : Domains) : nat :=
  length arcs + length (variables cw) * domains_size d.

(** Python truthiness of the [arcs] argument: [None] and the empty list are
    both falsy. *)
Definition not_arcs (arcs : option (list Arc)) : bool :=
  match arcs with
  | None => true
  | Some [] => true
  | Some (_ :: _) => false
  end.

Definition ac3 (cw : Crossword) (arcs : option (list Arc)) (d : Domains)
  : result (bool * Domains) :=
  let arcs := if not_arcs arcs then all_arcs cw else default [] arcs in
  ac3_loop cw (ac3_fuel cw arcs d) arcs d.

(** ** Assignments *)

(** An assignment dict: variable → word, in insertion order, one entry per
    key. *)
Abbreviation Assignment := (list (Var.t * string)).

(** [key in assignment] *)
Definition assigned (assignment : Assignment) (key : Var.t) : Prop :=
  key ∈ assignment.*1.

#[global] Instance assigned_dec assignment key : Decision (assigned assignment key).
Proof. unfold assigned. apply _. Defined.

(** [assignment.get(key)] *)
Fixpoint assign_lookup (assignment : Assignment) (key : Var.t) : option string :=
  match assignment with
  | [] => None
  | (k, w) :: rest => if decide (k = key) then Some w else assign_lookup rest key
  end.

(** [assignment[key]] *)
Definition assign_get (assignment : Assignment) (key : Var.t) : result string :=
  match assign_lookup assignment key with
  | Some w => Ok w
  | None => Raise KeyError
  end.

(** [assignment[key] = value]: a present key keeps its position, a new key
    goes last. *)
Fixpoint assign_set (assignment : Assignment) (key : Var.t) (value : string)
  : Assignment :=
  match assignment with
  | [] => [(key, value)]
  | (k, w) :: rest =>
    if decide (k = key) then (k, value) :: rest
    else (k, w) :: assign_set rest key value
  end.

(** [del assignment[key]] *)
Definition assign_del (assignment : Assignment) (key : Var.t) : result Assignment :=
  if decide (assigned assignment key)
  then Ok (filter (λ kw, kw.1 ≠ key) assignment)
  else Raise KeyError.

(** The [for key in assignment] loop of [assignment_complete]; [true] means
    the loop ran to its end without returning [False]. *)
Fixpoint assignment_complete_loop (assignment : Assignment) (keys : list Var.t)
  : bool :=
  match keys with
  | [] => true
  | key :: keys =>
    match assign_lookup assignment key with
    | None => false
    | Some w =>
      if decide (w = "") then false
      else assignment_complete_loop assignment keys
    end
  end.

Definition assignment_complete (cw : Crossword) (assignment : Assignment) : bool :=
  if assignment_complete_loop assignment assignment.*1 then
    if decide (length assignment ≠ length (variables cw)) then false else true
  else false.

(** ** The consistency predicate *)

(** [s.copy().pop()]: removes and returns an element of the fresh copy,
    [KeyError] on the empty set.  Which element is taken is fixed by the hash
    table of the copy, not by the language; here it is the first one of the
    list, which for a set that has lost elements need not be the word the
    loops over the live set meet first.  The general results on [consistent]
    and on the search use only that the word popped belongs to the set. *)
Definition set_copy_pop (ws : list string) : result string :=
  match ws with
  | [] => Raise KeyError
  | w :: _ => Ok w
  end.

(** The [for neighbor in neighbors] loop of [consistent]; [false] stands for
    the early [return False]. *)
Fixpoint consistent_neighbors (cw : Crossword) (d : Domains)
    (assignment : Assignment) (key : Var.t) (neighbors : list Var.t)
  : result bool :=
  match neighbors with
  | [] => Ok true
  | neighbor :: neighbors =>
    match overlaps cw key neighbor with
    | Some overlap =>
      let* w := assign_get assignment key in
      let* c := char_at w overlap.1 in
      let* dn := dom_get d neighbor in
      let* w' := set_copy_pop dn in
      let* c' := char_at w' overlap.2 in
      if decide (c ≠ c') then Ok false
      else consistent_neighbors cw d assignment key neighbors
    | None => consistent_neighbors cw d assignment key neighbors
    end
  end.

(** The [for key in assignment] loop of [consistent], carrying the local
    [word]. *)
Fixpoint consistent_loop (cw : Crossword) (d : Domains)
    (assignment : Assignment) (keys : list Var.t) (word : option string)
  : result bool :=
  match keys with
  | [] => Ok true
  | key :: keys =>
    let* w := assign_get assignment key in
    if decide (Var.length key ≠ len w) then Ok false
    else if decide (Some w ≠ word) then
      let word := Some w in
      let* ok := consistent_neighbors cw d assignment key (neighbors cw key) in
      if ok : bool then consistent_loop cw d assignment keys word
      else Ok false
    else Ok false
  end.

Definition consistent (cw : Crossword) (d : Domains) (assignment : Assignment)
  : result bool :=
  consistent_loop cw d assignment assignment.*1 None.

(** ** Ordering heuristics *)

(** [sorted(assign_values, key=assign_values.get)]: a stable sort of the keys
    by ascending count. *)
Fixpoint insert_by_count (x : string * nat) (l : list (string * nat))
  : list (string * nat) :=
  match l with
  | [] => [x]
  | y :: l' =>
    if decide (x.2 ≤ y.2) then x :: y :: l' else y :: insert_by_count x l'
  end.

Definition sorted_by_count (l : list (string * nat)) : list string :=
  (foldr insert_by_count [] l).*1.

(** [order_domain_values(var, assignment)].  [assign_values] holds one entry
    per value of the domain, in the order the values are first stored. *)
Definition order_domain_values (cw : Crossword) (d : Domains) (var : Var.t)
    (assignment : Assignment) : result (list string) :=
  let neighbors := neighbors cw var in
  let* var_domain := dom_get d var in
  let* assign_values :=
    for_each (λ assign_values value,
        let* n :=
          for_each (λ n neighbor,
              if decide (assigned assignment neighbor) then Ok n
              else
                let overlap := overlaps cw var neighbor in
                let* neighbor_domain := dom_get d neighbor in
                for_each (λ n neighbor_value,
                    match overlap with
                    | None => Raise TypeError
                    | Some overlap =>
                      let* c := char_at value overlap.1 in
                      let* c' := char_at neighbor_value overlap.2 in
                      Ok (if decide (c = c') then S n else n)
                    end)
                  neighbor_domain n)
            neighbors 0 in
        Ok (assign_values ++ [(value, n)]))
      var_domain [] in
  Ok (sorted_by_count assign_values).

(** [select_unassigned_variable(assignment)]: the first variable of the
    iteration that is not in the assignment; Python's implicit [None] when the
    loop finds none. *)
Fixpoint first_unassigned (assignment : Assignment) (vars : list Var.t)
  : option Var.t :=
  match vars with
  | [] => None
  | var :: vars =>
    if decide (¬ assigned assignment var) then Some var
    else first_unassigned assignment vars
  end.

Definition select_unassigned_variable (cw : Crossword) (assignment : Assignment)
  : option Var.t :=
  first_unassigned assignment (variables cw).

(** ** Backtracking search *)

(** Truthiness of the value [backtrack] returns: [None] and the empty dict
    are falsy. *)
Definition truthy (r : option Assignment) : bool :=
  match r with
  | None => false
  | Some [] => false
  | Some (_ :: _) => true
  end.

(** [backtrack(assignment)], by recursion on the depth budget [fuel].  The
    dict [assignment] is one object shared by all recursive calls and mutated
    in place, so a call yields the value it returns together with the
    contents of the dict when it returns; a returned assignment is that same
    dict.  When no variable is left unassigned, [var] is [None] and
    [self.domains[var]] raises [KeyError]. *)
Fixpoint backtrack (cw : Crossword) (d : Domains) (fuel : nat)
    (assignment : Assignment) : result (option Assignment * Assignment) :=
  match fuel with
  | 0 => Raise OutOfFuel
  | S fuel =>
    if assignment_complete cw assignment then Ok (Some assignment, assignment)
    else
      match select_unassigned_variable cw assignment with
      | None => Raise KeyError
      | Some var =>
        let* values := order_domain_values cw d var assignment in
        (fix try_values (values : list string) (assignment : Assignment)
           : result (option Assignment * Assignment) :=
           match values with
           | [] => Ok (None, assignment)
           | value :: values =>
             let temp_dic := assign_set assignment var value in
             let* ok := consistent cw d temp_dic in
             if ok : bool then
               let assignment := assign_set assignment var value in
               let* '(result, assignment) := backtrack cw d fuel assignment in
               if truthy result then Ok (result, assignment)
               else
                 let* assignment := assign_del assignment var in
                 try_values values assignment
             else try_values values assignment
           end) values assignment
      end
  end.

(** The recursion depth never exceeds the number of variables plus one. *)
Definition backtrack_fuel (cw : Crossword) : nat := S (length (variables cw)).

(** [solve()]: the value [ac3] returns is dropped. *)
Definition solve (cw : Crossword) : result (option Assignment) :=
  let* d := enforce_node_consistency (init_domains cw) in
  let* '(_, d) := ac3 cw None d in
  let* '(result, _) := backtrack cw d (backtrack_fuel cw) [] in
  Ok result.

(** ** Grid geometry *)

(** The square of the [k]-th letter of a variable, as [letter_grid] computes
    it. *)
Definition square (variable : Var.t) (k : nat) : nat * nat :=
  (Var.i variable + (if decide (Var.direction variable = Var.DOWN) then k else 0),
   Var.j variable + (if decide (Var.direction variable = Var.ACROSS) then k else 0)).

(** Modelled from the spec: the [overlaps] table is computed by the module
    [crossword], whose source is not at hand: "two variables overlap iff
    their runs cross at a common square; the overlap indices are each
    variable's offset into its own word at that square", and a pair without a
    common square maps to [None]. *)
Definition geometric_overlap (v1 v2 : Var.t) : option (nat * nat) :=
  if decide (v1 = v2) then None
  else
    head (filter (λ ab, square v1 ab.1 = square v2 ab.2)
            (a ← seq 0 (Var.length v1); (λ b, (a, b)) <$> seq 0 (Var.length v2))).

(** A crossword given by its slots and its word list. *)
Definition crossword_of (vars : list Var.t) (ws : list string) : Crossword :=
  {| variables := vars; words := ws; overlaps := geometric_overlap |}.

(** ** The letter grid *)

(** The 2D array [letters]: a list of rows; [None] is a cell without
    letter. *)
Abbreviation Letters := (list (list (option ascii))).

(** [letters[i][j] = c], for non-negative indices: [IndexError] when the row
    or the column does not exist. *)
Definition set_cell (letters : Letters) (i j : nat) (c : ascii) : result Letters :=
  match letters !! i with
  | None => Raise IndexError
  | Some row =>
    if decide (j < length row) then Ok (<[i := <[j := Some c]> row]> letters)
    else Raise IndexError
  end.

(** The body of the loop [for k in range(len(word))]. *)
Definition write_letter (variable : Var.t) (word : string) (letters : Letters)
    (k : nat) : result Letters :=
  let i := (square variable k).1 in
  let j := (square variable k).2 in
  let* c := char_at word k in
  set_cell letters i j c.

(** [letter_grid(assignment)]; [width] and [height] stand for
    [self.crossword.width] and [self.crossword.height]. *)
Definition letter_grid (width height : nat) (assignment : Assignment)
  : result Letters :=
  let letters := replicate height (replicate width None) in
  for_each (λ letters vw,
      let variable := vw.1 in
      let word := vw.2 in
      for_each (write_letter variable word) (seq 0 (len word)) letters)
    assignment letters.

(** * Properties

    The predicates in which the behaviour of the solver is stated.  Those
    named [spec_...] follow the wording of the specification rather than the
    code; the claims compare the code with them. *)

(** The domains are sets: the lists that represent them have no duplicates. *)
Definition wf_domains (d : Domains) : Prop :=
  map_Forall (λ _ ws, NoDup ws) d.

#[global] Instance wf_domains_dec d : Decision (wf_domains d).
Proof. unfold wf_domains. apply _. Defined.

(** Two words agree on an overlap [(i, j)] when both letters exist and are
    equal: [a[i] == b[j]]. *)
Definition agree (o : nat * nat) (a b : string) : Prop :=
  match String.get o.1 a, String.get o.2 b with
  | Some c, Some c' => c = c'
  | _, _ => False
  end.

#[global] Instance agree_dec o a b : Decision (agree o a b).
Proof. unfold agree. destruct (String.get o.1 a), (String.get o.2 b); apply _. Defined.

(** [a] has a supporting value in the neighbor's domain [dy]. *)
Definition has_support (o : nat * nat) (dy : list string) (a : string) : Prop :=
  Exists (agree o a) dy.

(** The values [revise] leaves in place: those with a supporting value, and
    every value when the neighbor's domain is empty. *)
Definition revise_keeps (o : nat * nat) (dy : list string) (a : string) : Prop :=
  dy = [] ∨ has_support o dy a.

#[global] Instance has_support_dec o dy a : Decision (has_support o dy a).
Proof. unfold has_support. apply _. Defined.

#[global] Instance revise_keeps_dec o dy a : Decision (revise_keeps o dy a).
Proof. unfold revise_keeps. apply _. Defined.

(** The arcs of the queue join distinct variables. *)
Definition proper_arcs (arcs : list Arc) : Prop := Forall (λ a, a.1 ≠ a.2) arcs.

(** The overlap table is symmetric on the variables of the crossword. *)
Definition symmetric_overlaps (cw : Crossword) : Prop :=
  Forall (λ x, Forall (λ y,
      overlaps cw y x = (λ o : nat * nat, (o.2, o.1)) <$> overlaps cw x y)
    (variables cw)) (variables cw).

(** Every variable has a non-empty domain. *)
Definition nonempty_domains (cw : Crossword) (d : Domains) : Prop :=
  Forall (λ x, ∃ w ws, d !! x = Some (w :: ws)) (variables cw).

(** Every value of [x] has a supporting value in the domain of [y]. *)
Definition supported (cw : Crossword) (d : Domains) (x y : Var.t) : Prop :=
  ∀ o dx dy, overlaps cw x y = Some o → d !! x = Some dx → d !! y = Some dy →
    Forall (has_support o dy) dx.

Definition arc_consistent (cw : Crossword) (d : Domains) : Prop :=
  ∀ x y, x ∈ variables cw → y ∈ neighbors cw x → supported cw d x y.

(** The invariant of the worklist: domains are non-empty, the queue holds
    arcs of the constraint graph, and every arc outside the queue is
    consistent. *)
Definition ac3_invariant (cw : Crossword) (arcs : list Arc) (d : Domains) : Prop :=
  nonempty_domains cw d
  ∧ (∀ x y, (x, y) ∈ arcs → x ∈ variables cw ∧ y ∈ neighbors cw x)
  ∧ (∀ x y, x ∈ variables cw → y ∈ neighbors cw x → (x, y) ∉ arcs →
       supported cw d x y).

(** Agreement at an optional overlap. *)
Definition agree_at (o : option (nat * nat)) (a b : string) : Prop :=
  match o with
  | Some o => agree o a b
  | None => True
  end.

#[global] Instance agree_at_dec o a b : Decision (agree_at o a b).
Proof. destruct o; apply _. Defined.

(** Length match: every assigned word has the length of its variable. *)
Definition spec_length_ok (assignment : Assignment) : Prop :=
  Forall (λ vw, len vw.2 = Var.length vw.1) assignment.

(** Global distinctness: no two different assigned variables hold equal
    words. *)
Definition spec_distinct (assignment : Assignment) : Prop :=
  Forall (λ vw, Forall (λ vw', vw.1 ≠ vw'.1 → vw.2 ≠ vw'.2) assignment)
    assignment.

(** Overlap agreement: every assigned variable agrees with each of its
    neighbors that is also assigned. *)
Definition spec_overlaps_agree (cw : Crossword) (assignment : Assignment) : Prop :=
  Forall (λ vw,
      Forall (λ nw,
          nw.1 ∈ neighbors cw vw.1 →
          agree_at (overlaps cw vw.1 nw.1) vw.2 nw.2)
        assignment)
    assignment.

Definition spec_consistent (cw : Crossword) (assignment : Assignment) : Prop :=
  spec_length_ok assignment
  ∧ spec_distinct assignment
  ∧ spec_overlaps_agree cw assignment.

(** One entry per crossword variable. *)
Definition complete (cw : Crossword) (assignment : Assignment) : Prop :=
  NoDup assignment.*1
  ∧ Forall (λ v, v ∈ variables cw) assignment.*1
  ∧ Forall (λ v, v ∈ assignment.*1) (variables cw).

(** Every assigned word is taken from the domain of its variable. *)
Definition within_domains (d : Domains) (assignment : Assignment) : Prop :=
  Forall (λ vw, vw.2 ∈ default [] (d !! vw.1)) assignment.

#[global] Instance spec_length_ok_dec a : Decision (spec_length_ok a).
Proof. unfold spec_length_ok. apply _. Defined.
#[global] Instance spec_distinct_dec a : Decision (spec_distinct a).
Proof. unfold spec_distinct. apply _. Defined.
#[global] Instance spec_overlaps_agree_dec cw a : Decision (spec_overlaps_agree cw a).
Proof. unfold spec_overlaps_agree. apply _. Defined.
#[global] Instance spec_consistent_dec cw a : Decision (spec_consistent cw a).
Proof. unfold spec_consistent. apply _. Defined.
#[global] Instance complete_dec cw a : Decision (complete cw a).
Proof. unfold complete. apply _. Defined.
#[global] Instance within_domains_dec d a : Decision (within_domains d a).
Proof. unfold within_domains. apply _. Defined.

(** Number of values left in the domain of a variable. *)
Definition remaining_values (d : Domains) (v : Var.t) : nat :=
  length (default [] (d !! v)).

(** The selection rule as the specification words it: an unassigned variable
    with the fewest remaining values and, among those, the most neighbors. *)
Definition spec_selected (cw : Crossword) (d : Domains) (assignment : Assignment)
    (v : Var.t) : Prop :=
  v ∈ variables cw ∧ ¬ assigned assignment v
  ∧ Forall (λ u, ¬ assigned assignment u →
        remaining_values d v ≤ remaining_values d u
        ∧ (remaining_values d u = remaining_values d v →
           length (neighbors cw u) ≤ length (neighbors cw v)))
      (variables cw).

#[global] Instance spec_selected_dec cw d a v : Decision (spec_selected cw d a v).
Proof. unfold spec_selected. apply _. Defined.

(** The ruled-out count as the specification words it: over the neighbors of
    [var] that are not assigned, the number of words of the neighbor's domain
    that disagree with [value] at the shared square. *)
Definition spec_ruled_out (cw : Crossword) (d : Domains) (var : Var.t)
    (assignment : Assignment) (value : string) : nat :=
  sum_list_with (λ n,
      if decide (assigned assignment n) then 0
      else
        match overlaps cw var n with
        | Some o => length (filter (λ w, ¬ agree o value w) (default [] (d !! n)))
        | None => 0
        end)
    (neighbors cw var).

(** Ascending by ruled-out count. *)
Definition spec_least_constraining_first (cw : Crossword) (d : Domains)
    (var : Var.t) (assignment : Assignment) (values : list string) : Prop :=
  Sorted (λ a b, spec_ruled_out cw d var assignment a
                 ≤ spec_ruled_out cw d var assignment b) values.

#[global] Instance spec_least_constraining_first_dec cw d var a values :
  Decision (spec_least_constraining_first cw d var a values).
Proof. unfold spec_least_constraining_first. apply _. Defined.

(** What the code counts for a value: the neighbor words that agree with it. *)
Definition compatible_count (cw : Crossword) (d : Domains) (var : Var.t)
    (assignment : Assignment) (value : string) : nat :=
  sum_list_with (λ n,
      if decide (assigned assignment n) then 0
      else
        match overlaps cw var n with
        | Some o => length (filter (λ w, agree o value w) (default [] (d !! n)))
        | None => 0
        end)
    (neighbors cw var).

(** The words an unassigned neighbor can still take, summed over the
    neighbors of [var]. *)
Definition neighbor_values (cw : Crossword) (d : Domains) (var : Var.t)
    (assignment : Assignment) : nat :=
  sum_list_with (λ n,
      if decide (assigned assignment n) then 0
      else
        match overlaps cw var n with
        | Some o => length (default [] (d !! n))
        | None => 0
        end)
    (neighbors cw var).

(** What [consistent] tests between a key and one neighbor: the word of the
    key agrees, at the overlap, with the first word of the neighbor's domain. *)
Definition head_agrees (cw : Crossword) (d : Domains) (key : Var.t) (w : string)
    (n : Var.t) : Prop :=
  match overlaps cw key n with
  | Some o =>
    match d !! n with
    | Some (w' :: _) => agree o w w'
    | _ => False
    end
  | None => True
  end.

#[global] Instance head_agrees_dec cw d key w n : Decision (head_agrees cw d key w n).
Proof.
  unfold head_agrees. destruct (overlaps cw key n); [|apply _].
  destruct (d !! n) as [[|w' ws]|]; apply _.
Defined.

(** What [consistent] tests for one key. *)
Definition key_passes (cw : Crossword) (d : Domains) (assignment : Assignment)
    (key : Var.t) : Prop :=
  match assign_lookup assignment key with
  | Some w =>
    len w = Var.length key ∧ Forall (head_agrees cw d key w) (neighbors cw key)
  | None => False
  end.

(** No word equals the word just before it, [word] being the one before the
    first. *)
Fixpoint no_repeat_after (word : option string) (ws : list string) : Prop :=
  match ws with
  | [] => True
  | w :: ws => Some w ≠ word ∧ no_repeat_after (Some w) ws
  end.

(** The predicate [consistent] computes. *)
Definition code_consistent (cw : Crossword) (d : Domains) (assignment : Assignment)
  : Prop :=
  Forall (key_passes cw d assignment) assignment.*1
  ∧ no_repeat_after None (omap (assign_lookup assignment) assignment.*1).

(** ** Well-formed crosswords and domains *)

(** Every word of every domain has the length of its variable. *)
Definition node_consistent (d : Domains) : Prop :=
  map_Forall (λ v ws, Forall (λ w, len w = Var.length v) ws) d.

#[global] Instance node_consistent_dec d : Decision (node_consistent d).
Proof. unfold node_consistent. apply _. Defined.

(** The indices of every overlap between two variables lie inside the two
    words. *)
Definition overlaps_in_range (cw : Crossword) : Prop :=
  Forall (λ x, Forall (λ y,
      match overlaps cw x y with
      | Some o => o.1 < Var.length x ∧ o.2 < Var.length y
      | None => True
      end) (variables cw)) (variables cw).

#[global] Instance overlaps_in_range_dec cw : Decision (overlaps_in_range cw).
Proof.
  unfold overlaps_in_range. apply Forall_dec. intros x. apply Forall_dec.
  intros y. destruct (overlaps cw x y); apply _.
Defined.

#[global] Instance symmetric_overlaps_dec cw : Decision (symmetric_overlaps cw).
Proof. unfold symmetric_overlaps. apply _. Defined.

(** The domains [d'] hold the keys of [d], each with a sub-list of its
    words. *)
Definition shrunk (d d' : Domains) : Prop :=
  ∀ v, match d !! v, d' !! v with
       | Some ws, Some ws' => sublist ws' ws
       | None, None => True
       | _, _ => False
       end.

(** Every variable of the crossword is a key of the domains. *)
Definition covers_variables (cw : Crossword) (d : Domains) : Prop :=
  Forall (λ v, is_Some (d !! v)) (variables cw).

#[global] Instance covers_variables_dec cw d : Decision (covers_variables cw d).
Proof. unfold covers_variables. apply _. Defined.


(** ** The search *)

(** Every variable has at least one square. *)
Definition positive_lengths (cw : Crossword) : Prop :=
  Forall (λ v, 0 < Var.length v) (variables cw).

#[global] Instance positive_lengths_dec cw : Decision (positive_lengths cw).
Proof. unfold positive_lengths. apply _. Defined.

(** The dicts the search works on: one entry per key, keys among the
    variables of the crossword, no empty word. *)
Definition search_state (cw : Crossword) (assignment : Assignment) : Prop :=
  NoDup assignment.*1
  ∧ assignment.*1 ⊆ variables cw
  ∧ Forall (λ vw, vw.2 ≠ "") assignment.

(** The assignments the search can visit from [assignment]: each step gives
    the selected variable a word of its domain that [consistent] accepts. *)
Inductive reachable (cw : Crossword) (d : Domains)
  : Assignment → Assignment → Prop :=
  | reach_here assignment : reachable cw d assignment assignment
  | reach_step assignment var value found :
      select_unassigned_variable cw assignment = Some var →
      value ∈ default [] (d !! var) →
      consistent cw d (assign_set assignment var value) = Ok true →
      reachable cw d (assign_set assignment var value) found →
      reachable cw d assignment found.

(** ** The letter grid *)

(** [letters[i][j]], when the cell exists. *)
Definition cell (letters : Letters) (i j : nat) : option (option ascii) :=
  match letters !! i with
  | Some row => row !! j
  | None => None
  end.

(** A grid of [height] rows of [width] cells. *)
Definition well_shaped (width height : nat) (letters : Letters) : Prop :=
  length letters = height ∧ Forall (λ row, length row = width) letters.

(** The squares of a variable for the letters of a word lie inside the
    grid. *)
Definition word_in_grid (width height : nat) (variable : Var.t) (ks : list nat)
  : Prop :=
  Forall (λ k, (square variable k).1 < height ∧ (square variable k).2 < width) ks.

Definition in_grid (width height : nat) (assignment : Assignment) : Prop :=
  Forall (λ vw, word_in_grid width height vw.1 (seq 0 (len vw.2))) assignment.

#[global] Instance word_in_grid_dec w h v ks : Decision (word_in_grid w h v ks).
Proof. unfold word_in_grid. apply _. Defined.

#[global] Instance in_grid_dec w h a : Decision (in_grid w h a).
Proof. unfold in_grid. apply _. Defined.

(** The entry [vw] of an assignment puts the letter [c] on the square
    [(i, j)]. *)
Definition writes (vw : Var.t * string) (i j : nat) (c : ascii) : Prop :=
  ∃ k, String.get k vw.2 = Some c ∧ square vw.1 k = (i, j).

(** * Scenarios

    Concrete grids, and the outcomes observed on them. *)

(** A 3-letter across slot on the first row and a 4-letter down slot that
    crosses it at its second square (grid [___ / #_# / #_# / #_#]). *)
Definition across3 : Var.t := Var.mk 0 0 Var.ACROSS 3.
Definition down4 : Var.t := Var.mk 0 1 Var.DOWN 4.

(** The same across slot crossed by a 3-letter down slot
    (grid [___ / #_# / #_#]). *)
Definition down3 : Var.t := Var.mk 0 1 Var.DOWN 3.

(** Three across slots that touch no other slot
    (grid [___ / ### / ___ / ### / ___]). *)
Definition row0 : Var.t := Var.mk 0 0 Var.ACROSS 3.
Definition row2 : Var.t := Var.mk 2 0 Var.ACROSS 3.
Definition row4 : Var.t := Var.mk 4 0 Var.ACROSS 3.

(** The domains [solve] hands to the search: node consistency, then [ac3]. *)
Definition prepared (cw : Crossword) : result Domains :=
  let* d := enforce_node_consistency (init_domains cw) in
  let* '(_, d) := ac3 cw None d in
  Ok d.

(** The search as [solve] runs it: the prepared domains and the value
    [backtrack] returns from the empty assignment. *)
Definition search (cw : Crossword) : result (Domains * option Assignment) :=
  let* d := prepared cw in
  let* '(r, _) := backtrack cw d (backtrack_fuel cw) [] in
  Ok (d, r).

(** On the two-slot grid with the words CAT, DOG, OPEN and ACES both slots
    keep two words after [ac3]; [consistent] rejects one of the two
    assignments that fill only the across slot. *)
Definition rejects_a_partial_assignment (cw : Crossword) : Prop :=
  match prepared cw with
  | Ok d =>
    default [] (d !! across3) ≡ₚ ["CAT"; "DOG"]
    ∧ (consistent cw d [(across3, "CAT")] = Ok false
       ∨ consistent cw d [(across3, "DOG")] = Ok false)
  | Raise _ => False
  end.

#[global] Instance rejects_a_partial_assignment_dec cw :
  Decision (rejects_a_partial_assignment cw).
Proof.
  unfold rejects_a_partial_assignment. destruct (prepared cw); apply _.
Defined.

(** On the same grid, the two complete assignments CAT / ACES and DOG / OPEN
    meet the three constraints, and [consistent] rejects one of them. *)
Definition rejects_a_valid_assignment (cw : Crossword) : Prop :=
  match prepared cw with
  | Ok d =>
      Forall (λ a : Assignment,
          complete cw a ∧ within_domains d a ∧ spec_consistent cw a)
        [[(across3, "CAT"); (down4, "ACES")]; [(across3, "DOG"); (down4, "OPEN")]]
      ∧ Exists (λ a : Assignment, consistent cw d a = Ok false)
        [[(across3, "CAT"); (down4, "ACES")]; [(across3, "DOG"); (down4, "OPEN")]]
  | Raise _ => False
  end.

#[global] Instance rejects_a_valid_assignment_dec cw :
  Decision (rejects_a_valid_assignment cw).
Proof. unfold rejects_a_valid_assignment. destruct (prepared cw); apply _. Defined.

(** The outcome on the two-slot grid: COT, which rules out two words of the
    down slot, comes before CAT, which rules out one. *)
Definition most_constraining_first (cw : Crossword) : Prop :=
  match prepared cw with
  | Ok d =>
      default [] (d !! across3) ≡ₚ ["CAT"; "COT"]
      ∧ default [] (d !! down4) ≡ₚ ["ACES"; "ARTS"; "OPEN"]
      ∧ order_domain_values cw d across3 [] = Ok ["COT"; "CAT"]
      ∧ spec_ruled_out cw d across3 [] "COT" = 2
      ∧ spec_ruled_out cw d across3 [] "CAT" = 1
      ∧ compatible_count cw d across3 [] "COT" = 1
      ∧ compatible_count cw d across3 [] "CAT" = 2
      ∧ ¬ spec_least_constraining_first cw d across3 [] ["COT"; "CAT"]
  | Raise _ => False
  end.

#[global] Instance most_constraining_first_dec cw :
  Decision (most_constraining_first cw).
Proof. unfold most_constraining_first. destruct (prepared cw); apply _. Defined.

(** The search returns a complete assignment taken from the domains in which
    one word fills two slots. *)
Definition returns_a_repeated_word (cw : Crossword) : Prop :=
  match search cw with
  | Ok (d, Some a) =>
      complete cw a ∧ within_domains d a
      ∧ ¬ spec_distinct a ∧ ¬ spec_consistent cw a
  | _ => False
  end.

(** The search returns [None] although the domains hold the solution [a]. *)
Definition misses_the_solution (a : Assignment) (cw : Crossword) : Prop :=
  match search cw with
  | Ok (d, None) => complete cw a ∧ within_domains d a ∧ spec_consistent cw a
  | _ => False
  end.

#[global] Instance returns_a_repeated_word_dec cw :
  Decision (returns_a_repeated_word cw).
Proof.
  unfold returns_a_repeated_word.
  destruct (search cw) as [[d [a|]]|]; apply _.
Defined.

#[global] Instance misses_the_solution_dec a cw :
  Decision (misses_the_solution a cw).
Proof.
  unfold misses_the_solution.
  destruct (search cw) as [[d [a'|]]|]; apply _.
Defined.

(** Settles a closed decidable statement by evaluation. *)
Ltac by_evaluation := apply (bool_decide_unpack _); vm_compute; exact I.

(** * Verification *)

(** ** The result monad and loops *)

Lemma bind_Ok {A B} (m : result A) (k : A → result B) (b : B) :
  bind m k = Ok b ↔ ∃ a, m = Ok a ∧ k a = Ok b.
Proof.
  destruct m as [a|e]; simpl; split.
  - intros H. by exists a.
  - by intros (a' & [= <-] & H).
  - intros H. discriminate H.
  - by intros (a' & H & _).
Qed.

Lemma bind_Raise {A B} (m : result A) (k : A → result B) (e : exn) :
  bind m k = Raise e ↔ m = Raise e ∨ ∃ a, m = Ok a ∧ k a = Raise e.
Proof.
  destruct m as [a|e']; simpl; split.
  - intros H. right. by exists a.
  - intros [H | (a' & [= <-] & H)]; [discriminate H | done].
  - intros [= ->]. by left.
  - intros [[= ->] | (a' & H & _)]; [done | discriminate H].
Qed.

Lemma dom_get_Ok (d : Domains) x ws : dom_get d x = Ok ws ↔ d !! x = Some ws.
Proof. unfold dom_get. destruct (d !! x); naive_solver. Qed.

Lemma dom_get_Raise (d : Domains) x e : dom_get d x = Raise e → e = KeyError.
Proof. unfold dom_get. destruct (d !! x); naive_solver. Qed.

Lemma char_at_Ok w k c : char_at w k = Ok c ↔ String.get k w = Some c.
Proof. unfold char_at. destruct (String.get k w); naive_solver. Qed.

Lemma get_is_Some w k : k < len w → is_Some (String.get k w).
Proof.
  unfold len. revert k. induction w as [|c w IH]; intros k Hk; simpl in *.
  - lia.
  - destruct k as [|k]; [by eexists|]. apply IH. lia.
Qed.

Lemma dom_remove_Ok (d : Domains) x w ws :
  d !! x = Some ws → w ∈ ws →
  dom_remove d x w = Ok (<[x := filter (λ w', w' ≠ w) ws]> d).
Proof.
  intros Hx Hw. unfold dom_remove, dom_get, set_remove. rewrite Hx. simpl.
  by rewrite decide_True.
Qed.

Lemma dom_remove_inv (d d' : Domains) x w :
  dom_remove d x w = Ok d' →
  ∃ ws, d !! x = Some ws ∧ w ∈ ws ∧ d' = <[x := filter (λ w', w' ≠ w) ws]> d.
Proof.
  unfold dom_remove. intros (ws & Hx%dom_get_Ok & H)%bind_Ok.
  apply bind_Ok in H as (ws' & Hr & [= <-]). unfold set_remove in Hr.
  case_decide; [|done]. injection Hr as <-. by exists ws.
Qed.

Lemma filter_ext_in {A} (P Q : A → Prop) `{!∀ x, Decision (P x)}
    `{!∀ x, Decision (Q x)} (l : list A) :
  (∀ x, x ∈ l → (P x ↔ Q x)) → filter P l = filter Q l.
Proof.
  induction l as [|a l IH]; intros Hext; [done|].
  rewrite !filter_cons, IH by (intros; apply Hext; by right).
  apply decide_ext, Hext. by left.
Qed.

Lemma filter_all {A} (P : A → Prop) `{!∀ x, Decision (P x)} (l : list A) :
  (∀ x, x ∈ l → P x) → filter P l = l.
Proof.
  induction l as [|a l IH]; intros Hall; [done|].
  rewrite filter_cons_True, IH; [done| |]; intros; apply Hall; by constructor.
Qed.

(** ** Node consistency *)

Section node_consistency.

Context (key : Var.t).

Let fits (w : string) : Prop := len w = Var.length key.

Let remove_misfit (d : Domains) (word : string) : result Domains :=
  if decide (len word ≠ Var.length key) then dom_remove d key word else Ok d.

Lemma node_inner_loop (l : list string) : ∀ (d : Domains) (ws : list string),
  d !! key = Some ws → NoDup l → (∀ w, w ∈ l → w ∈ ws) →
  for_each remove_misfit l d
  = Ok (<[key := filter (λ w, w ∈ l → fits w) ws]> d).
Proof.
  induction l as [|w l IH]; intros d ws Hkey Hnd Hin; simpl.
  - rewrite filter_all by (intros ? _ []%elem_of_nil). by rewrite insert_id.
  - apply NoDup_cons in Hnd as [Hw Hnd]. unfold remove_misfit at 1.
    case_decide as Hlen.
    + rewrite (dom_remove_Ok _ _ _ ws) by (auto; apply Hin; by left). simpl.
      rewrite (IH _ (filter (λ w', w' ≠ w) ws)); [|by rewrite lookup_insert_eq|done|].
      * rewrite insert_insert_eq, list_filter_filter. do 2 f_equal.
        apply list_filter_iff. intros a. rewrite elem_of_cons. subst fits.
        simpl. naive_solver.
      * intros a Ha. apply list_elem_of_filter. split; [|apply Hin; by right].
        intros ->. done.
    + simpl. rewrite (IH _ ws) by (auto; intros; apply Hin; by right).
      do 2 f_equal. apply list_filter_iff. intros a. rewrite elem_of_cons.
      subst fits. simpl. destruct (decide (a = w)) as [->|]; [|naive_solver].
      split; [intros _ _; done|intros Ha ?; apply Ha; by left].
Qed.

Lemma node_step (d : Domains) (ws : list string) :
  d !! key = Some ws → NoDup ws →
  (let* domainCopy := dom_get d key in for_each remove_misfit domainCopy d)
  = Ok (<[key := filter fits ws]> d).
Proof.
  intros Hkey Hnd. unfold dom_get. rewrite Hkey. simpl.
  rewrite (node_inner_loop ws d ws) by done. do 2 f_equal.
  apply filter_ext_in. naive_solver.
Qed.

End node_consistency.

Lemma node_outer_loop (ks : list Var.t) : ∀ d : Domains,
  NoDup ks → (∀ k, k ∈ ks → is_Some (d !! k)) → wf_domains d →
  ∃ d' : Domains,
    for_each (λ d key,
        let* domainCopy := dom_get d key in
        for_each (λ d word,
            if decide (len word ≠ Var.length key)
            then dom_remove d key word
            else Ok d)
          domainCopy d) ks d = Ok d'
    ∧ ∀ v, d' !! v =
           if decide (v ∈ ks)
           then filter (λ w, len w = Var.length v) <$> d !! v
           else d !! v.
Proof.
  induction ks as [|k ks IH]; intros d Hnd Hks Hwf; simpl.
  - exists d. split; [done|]. intros v. destruct (decide (v ∈ [])) as [Hv|]; [|done].
    by apply elem_of_nil in Hv.
  - apply NoDup_cons in Hnd as [Hk Hnd].
    destruct (Hks k) as [ws Hws]; [by left|].
    rewrite (node_step k d ws) by eauto. simpl.
    destruct (IH (<[k := filter (λ w, len w = Var.length k) ws]> d)) as (d' & -> & Hd'); [done| | |].
    + intros k' Hk'. rewrite lookup_insert_ne by (intros ->; done).
      apply Hks. by right.
    + intros v ws'. destruct (decide (k = v)) as [<-|Hne].
      * rewrite lookup_insert_eq. intros [= <-]. apply NoDup_filter; eauto.
      * rewrite lookup_insert_ne by done. apply Hwf.
    + exists d'. split; [done|]. intros v. rewrite Hd'.
      destruct (decide (k = v)) as [<-|Hne].
      * rewrite decide_False by done. rewrite decide_True by (by left).
        by rewrite lookup_insert_eq, Hws.
      * rewrite lookup_insert_ne by done.
        repeat case_decide; set_solver.
Qed.

Lemma elem_of_dom_keys (d : Domains) k : k ∈ dom_keys d ↔ is_Some (d !! k).
Proof.
  unfold dom_keys. rewrite list_elem_of_fmap. split.
  - intros ([k' ws] & -> & H%elem_of_map_to_list). by exists ws.
  - intros [ws H]. exists (k, ws). split; [done|]. by apply elem_of_map_to_list.
Qed.

Lemma enforce_node_consistency_lookup (d : Domains) :
  wf_domains d →
  ∃ d' : Domains, enforce_node_consistency d = Ok d'
    ∧ ∀ v, d' !! v = filter (λ w, len w = Var.length v) <$> d !! v.
Proof.
  intros Hwf. unfold enforce_node_consistency.
  destruct (node_outer_loop (dom_keys d) d) as (d' & Hrun & Hd'); [| |done|].
  - apply NoDup_fst_map_to_list.
  - intros k. by rewrite elem_of_dom_keys.
  - exists d'. split; [done|]. intros v. rewrite Hd'. case_decide as Hv; [done|].
    rewrite elem_of_dom_keys, <-eq_None_not_Some in Hv. by rewrite Hv.
Qed.

(** ** Revise *)

Section revise_loops.

Context (x y : Var.t) (overlap : nat * nat).
Context (Hxy : x ≠ y).

Let check (val_x : string) (st : nat * bool * Domains) (val_y : string)
  : result (nat * bool * Domains) :=
  (λ '(count, revisone_made, d) val_y,
     let* cy := char_at val_y overlap.2 in
     let* cx := char_at val_x overlap.1 in
     let count := if decide (cy ≠ cx) then S count else count in
     let* dy := dom_get d y in
     if decide (count = length dy)
     then let* d := dom_remove d x val_x in Ok (count, true, d)
     else Ok (count, revisone_made, d)) st val_y.

Let per_value (st : bool * Domains) (val_x : string) : result (bool * Domains) :=
  (λ '(revisone_made, d) val_x,
     let* y_domain := dom_get d y in
     let* '(_, revisone_made, d) :=
       for_each (check val_x) y_domain (0, revisone_made, d) in
     Ok (revisone_made, d)) st val_x.

(** The inner loop removes [val_x] exactly when it runs over a non-empty
    domain without meeting a single agreeing word, and then only at its last
    iteration. *)
Lemma revise_check_loop val_x dy (s : list string) :
  ∀ count rm (d : Domains) st,
  d !! y = Some dy → count + length s ≤ length dy →
  for_each (check val_x) s (count, rm, d) = Ok st →
  (s ≠ [] ∧ count + length s = length dy
     ∧ Forall (λ b, ¬ agree overlap val_x b) s
     ∧ st.1.2 = true ∧ dom_remove d x val_x = Ok st.2)
  ∨ (¬ (s ≠ [] ∧ count + length s = length dy
          ∧ Forall (λ b, ¬ agree overlap val_x b) s)
     ∧ st.1.2 = rm ∧ st.2 = d).
Proof.
  induction s as [|val_y s IH]; intros count rm d st Hy Hcount Hrun.
  - injection Hrun as <-. right. naive_solver.
  - cbn [for_each] in Hrun. apply bind_Ok in Hrun as ([[count' rm'] d'] & Hstep & Hrun).
    unfold check in Hstep at 1.
    apply bind_Ok in Hstep as (cy & Hcy%char_at_Ok & Hstep).
    apply bind_Ok in Hstep as (cx & Hcx%char_at_Ok & Hstep).
    apply bind_Ok in Hstep as (dy' & Hdy%dom_get_Ok & Hstep).
    assert (dy' = dy) as -> by congruence.
    assert (agree overlap val_x val_y ↔ cy = cx) as Hagree.
    { unfold agree. rewrite Hcx, Hcy. naive_solver. }
    simpl in Hcount.
    destruct (decide ((if decide (cy ≠ cx) then S count else count) = length dy))
      as [Hfull|Hfull].
    + apply bind_Ok in Hstep as (d1 & Hrm & [= <- <- <-]).
      destruct (decide (cy ≠ cx)) as [Hne|Heq]; [|lia].
      destruct s as [|? ?]; [|simpl in *; lia].
      injection Hrun as <-. left. simpl.
      split_and!; [done|lia| |done|done].
      constructor; [|constructor]. by rewrite Hagree.
    + injection Hstep as <- <- <-.
      apply IH in Hrun; [|done|case_decide; lia].
      destruct Hrun as [(Hs & Hlen & Hall & Hrm & Hd)|(Hnot & Hrm & Hd)].
      * left. destruct (decide (cy ≠ cx)) as [Hne|Heq]; [|lia].
        split_and!; [done|simpl; lia| |done|done].
        constructor; [by rewrite Hagree|done].
      * right. repeat split; try done. intros (_ & Hlen & Hall).
        apply Forall_cons in Hall as [Hhd Hall].
        rewrite Hagree in Hhd. rewrite decide_True in Hnot, Hfull by done.
        simpl in Hlen. apply Hnot. split_and!; [|lia|done].
        intros ->. simpl in *. lia.
Qed.

Lemma revise_value_loop dy (l : list string) :
  ∀ rm (d : Domains) cur st,
  d !! x = Some cur → d !! y = Some dy →
  for_each per_value l (rm, d) = Ok st →
  st.2 = <[x := filter (λ a, a ∈ l → revise_keeps overlap dy a) cur]> d
  ∧ st.1 = rm || bool_decide (Exists (λ a, ¬ revise_keeps overlap dy a) l).
Proof.
  induction l as [|val_x l IH]; intros rm d cur st Hx Hy Hrun.
  - injection Hrun as <-. split.
    + cbn [snd]. rewrite filter_all by (intros ? _ []%elem_of_nil).
      by rewrite insert_id.
    + cbn [fst]. rewrite bool_decide_eq_false_2 by (by intros ?%Exists_nil).
      by rewrite orb_false_r.
  - cbn [for_each] in Hrun. apply bind_Ok in Hrun as ([rm1 d1] & Hstep & Hrun).
    unfold per_value in Hstep at 1.
    apply bind_Ok in Hstep as (dy' & Hdy%dom_get_Ok & Hstep).
    assert (dy' = dy) as -> by congruence.
    apply bind_Ok in Hstep as ([[c rm'] d'] & Hinner & [= <- <-]).
    apply (revise_check_loop val_x dy) in Hinner; [|done|simpl; lia].
    destruct Hinner as [(Hs & _ & Hall & Hrm & Hd)|(Hnot & Hrm & Hd)];
      simpl in Hrm, Hd; subst rm'.
    + assert (¬ revise_keeps overlap dy val_x) as Hdrop.
      { intros [->|Hsup]; [done|]. by apply Forall_not_Exists in Hall. }
      apply dom_remove_inv in Hd as (cur' & Hcur & Hin & ->).
      assert (cur' = cur) as -> by congruence.
      apply (IH _ _ (filter (λ w', w' ≠ val_x) cur)) in Hrun as [-> ->];
        [|by rewrite lookup_insert_eq|by rewrite lookup_insert_ne].
      split.
      * rewrite insert_insert_eq, list_filter_filter. f_equal.
        apply list_filter_iff. intros a. rewrite elem_of_cons. naive_solver.
      * rewrite (bool_decide_eq_true_2 (Exists _ (val_x :: l))) by (by left).
        by rewrite orb_true_r.
    + subst d'.
      assert (revise_keeps overlap dy val_x) as Hkeep.
      { destruct (decide (revise_keeps overlap dy val_x)) as [|Hdrop]; [done|].
        exfalso. apply Hnot. split_and!; [|done|].
        - intros ->. apply Hdrop. by left.
        - apply not_Exists_Forall; [apply _|]. intros ?. apply Hdrop. by right. }
      apply (IH _ _ cur) in Hrun as [-> ->]; [|done..]. split.
      * f_equal. apply list_filter_iff. intros a. rewrite elem_of_cons.
        naive_solver.
      * f_equal. apply bool_decide_ext. rewrite Exists_cons. naive_solver.
Qed.

(** Under the bounds that node consistency establishes, neither loop raises. *)
Lemma revise_check_loop_total val_x dy cur (s : list string) :
  ∀ count rm (d : Domains),
  d !! y = Some dy → d !! x = Some cur → val_x ∈ cur →
  count + length s ≤ length dy →
  overlap.1 < len val_x → (∀ b, b ∈ s → overlap.2 < len b) →
  ∃ st, for_each (check val_x) s (count, rm, d) = Ok st.
Proof.
  induction s as [|val_y s IH]; intros count rm d Hy Hx Hin Hcount Hi Hj.
  - by eexists.
  - cbn [for_each]. unfold check at 1.
    destruct (get_is_Some val_y overlap.2) as [cy Hcy]; [apply Hj; by left|].
    destruct (get_is_Some val_x overlap.1) as [cx Hcx]; [done|].
    unfold char_at. rewrite Hcy, Hcx. simpl. unfold dom_get at 1. rewrite Hy.
    simpl in *. case_decide as Hfull.
    + rewrite (dom_remove_Ok _ _ _ cur) by done. simpl.
      destruct s as [|? ?]; [by eexists|]. simpl in *. case_decide; lia.
    + simpl. apply IH; try done; [case_decide; lia|].
      intros b Hb. apply Hj. by right.
Qed.

Lemma revise_value_loop_total dy (l : list string) :
  ∀ rm (d : Domains) cur,
  d !! x = Some cur → d !! y = Some dy →
  NoDup l → (∀ a, a ∈ l → a ∈ cur) →
  (∀ a, a ∈ l → overlap.1 < len a) → (∀ b, b ∈ dy → overlap.2 < len b) →
  ∃ st, for_each per_value l (rm, d) = Ok st.
Proof.
  induction l as [|val_x l IH]; intros rm d cur Hx Hy Hnd Hin Hi Hj.
  - by eexists.
  - apply NoDup_cons in Hnd as [Hfresh Hnd]. cbn [for_each]. unfold per_value at 1.
    unfold dom_get at 1. rewrite Hy. simpl.
    destruct (revise_check_loop_total val_x dy cur dy 0 rm d)
      as ([[c rm1] d1] & Hinner); try done; [apply Hin; by left|apply Hi; by left|].
    rewrite Hinner. simpl.
    apply (revise_check_loop val_x dy) in Hinner; [|done|simpl; lia].
    destruct Hinner as [(_ & _ & _ & _ & Hd)|(_ & _ & Hd)]; simpl in Hd.
    + rewrite (dom_remove_Ok _ _ _ cur) in Hd by (auto; apply Hin; by left).
      injection Hd as <-.
      apply (IH _ _ (filter (λ w', w' ≠ val_x) cur)); try done.
      * by rewrite lookup_insert_eq.
      * by rewrite lookup_insert_ne.
      * intros a Ha. apply list_elem_of_filter. split; [by intros ->|].
        apply Hin. by right.
      * intros a Ha. apply Hi. by right.
    + subst d1. apply (IH _ _ cur); try done.
      * intros a Ha. apply Hin. by right.
      * intros a Ha. apply Hi. by right.
Qed.

End revise_loops.

Lemma revise_no_overlap (cw : Crossword) (x y : Var.t) (d : Domains) :
  overlaps cw x y = None → revise cw x y d = Ok (false, d).
Proof. intros Ho. unfold revise. by rewrite Ho. Qed.

(** What a call to [revise] that returns has done. *)
Lemma revise_inv (cw : Crossword) (x y : Var.t) (d d' : Domains) b o :
  x ≠ y → overlaps cw x y = Some o → revise cw x y d = Ok (b, d') →
  ∃ dx, d !! x = Some dx
    ∧ ((dx = [] ∧ b = false ∧ d' = d)
       ∨ ∃ dy, d !! y = Some dy
           ∧ d' = <[x := filter (revise_keeps o dy) dx]> d
           ∧ b = bool_decide (Exists (λ a, ¬ revise_keeps o dy a) dx)).
Proof.
  intros Hxy Ho Hrun. unfold revise in Hrun. rewrite Ho in Hrun.
  apply bind_Ok in Hrun as (dx & Hdx%dom_get_Ok & Hrun).
  exists dx. split; [done|].
  destruct dx as [|a dx]; [left; by injection Hrun as <- <-|right].
  pose proof Hrun as Hfirst. cbn [for_each] in Hfirst.
  apply bind_Ok in Hfirst as (st & Hfirst & _).
  apply bind_Ok in Hfirst as (dy & Hdy%dom_get_Ok & _).
  exists dy. split; [done|].
  apply (revise_value_loop x y o Hxy dy _ _ _ (a :: dx)) in Hrun as [Hd Hb];
    [|done..].
  simpl in Hd, Hb. subst b d'. split; [|done]. f_equal.
  apply filter_ext_in. naive_solver.
Qed.

Lemma revise_total (cw : Crossword) (x y : Var.t) (d : Domains) dx dy :
  x ≠ y → d !! x = Some dx → d !! y = Some dy → NoDup dx →
  (∀ o, overlaps cw x y = Some o →
        (∀ a, a ∈ dx → o.1 < len a) ∧ (∀ b, b ∈ dy → o.2 < len b)) →
  ∃ r, revise cw x y d = Ok r.
Proof.
  intros Hxy Hx Hy Hnd Hbounds. unfold revise.
  destruct (overlaps cw x y) as [o|]; [|by eexists].
  destruct (Hbounds o) as [Hi Hj]; [done|].
  unfold dom_get at 1. rewrite Hx. simpl.
  by apply (revise_value_loop_total x y o Hxy dy dx false d dx).
Qed.

(** ** Termination of AC-3 *)

Lemma domains_size_insert (d : Domains) x ws ws' :
  d !! x = Some ws →
  domains_size (<[x := ws']> d) + length ws = domains_size d + length ws'.
Proof.
  intros Hx. unfold domains_size.
  rewrite <-(insert_delete_id d x ws) at 2 by done.
  rewrite <-(insert_delete_eq d).
  rewrite !map_to_list_insert by apply lookup_delete_eq. simpl. lia.
Qed.

Lemma revise_size (cw : Crossword) (x y : Var.t) (d d' : Domains) b :
  x ≠ y → revise cw x y d = Ok (b, d') →
  domains_size d' + (if b then 1 else 0) ≤ domains_size d.
Proof.
  intros Hxy Hrun. destruct (overlaps cw x y) as [o|] eqn:Ho.
  - destruct (revise_inv cw x y d d' b o Hxy Ho Hrun) as (dx & Hx & Hcases).
    destruct Hcases as [(_ & -> & ->)|(dy & _ & -> & ->)]; [simpl; lia|].
    pose proof (domains_size_insert d x dx (filter (revise_keeps o dy) dx) Hx).
    case_bool_decide as Hex.
    + apply Exists_exists in Hex as (a & Ha & Hdrop).
      pose proof (length_filter_lt (revise_keeps o dy) dx a Ha Hdrop). lia.
    + pose proof (length_filter (revise_keeps o dy) dx). lia.
  - rewrite revise_no_overlap in Hrun by done. injection Hrun as <- <-.
    simpl. lia.
Qed.

Lemma for_each_Raise {A S} (body : S → A → result S) (l : list A) (s : S) e :
  for_each body l s = Raise e → ∃ s' a, a ∈ l ∧ body s' a = Raise e.
Proof.
  revert s. induction l as [|a l IH]; intros s Hrun; [done|].
  simpl in Hrun. apply bind_Raise in Hrun as [Hrun|(s' & _ & Hrun)].
  - exists s, a. split; [by left|done].
  - apply IH in Hrun as (s'' & a' & Ha' & Hrun). exists s'', a'.
    split; [by right|done].
Qed.

Lemma char_at_Raise w k e : char_at w k = Raise e → e = IndexError.
Proof. unfold char_at. destruct (String.get k w); naive_solver. Qed.

Lemma dom_remove_Raise (d : Domains) x w e : dom_remove d x w = Raise e → e = KeyError.
Proof.
  unfold dom_remove, set_remove.
  intros [H%dom_get_Raise|(ws & _ & H)]%bind_Raise; [done|].
  case_decide; simpl in H; congruence.
Qed.

(** [revise] raises nothing but [KeyError] and [IndexError]. *)
Lemma revise_Raise (cw : Crossword) (x y : Var.t) (d : Domains) e :
  revise cw x y d = Raise e → e = KeyError ∨ e = IndexError.
Proof.
  unfold revise. destruct (overlaps cw x y) as [o|]; [|done].
  intros [Hr%dom_get_Raise|(dx & _ & Hr)]%bind_Raise; [by left|].
  apply for_each_Raise in Hr as ([rm d1] & val_x & _ & Hr).
  apply bind_Raise in Hr as [Hr%dom_get_Raise|(dy & _ & Hr)]; [by left|].
  apply bind_Raise in Hr as [Hr|([[c rm'] d2] & _ & Hr)]; [|done].
  apply for_each_Raise in Hr as ([[c rm'] d2] & val_y & _ & Hr).
  apply bind_Raise in Hr as [Hr%char_at_Raise|(cy & _ & Hr)]; [by right|].
  apply bind_Raise in Hr as [Hr%char_at_Raise|(cx & _ & Hr)]; [by right|].
  apply bind_Raise in Hr as [Hr%dom_get_Raise|(dy' & _ & Hr)]; [by left|].
  case_decide; [|done].
  apply bind_Raise in Hr as [Hr%dom_remove_Raise|(d3 & _ & Hr)]; [by left|done].
Qed.

Lemma elem_of_neighbors (cw : Crossword) (var v : Var.t) :
  v ∈ neighbors cw var
  ↔ v ∈ variables cw ∧ v ≠ var ∧ is_Some (overlaps cw v var).
Proof. unfold neighbors. rewrite list_elem_of_filter. naive_solver. Qed.

Lemma neighbors_length (cw : Crossword) (var : Var.t) :
  length (neighbors cw var) ≤ length (variables cw).
Proof. apply length_filter. Qed.

Lemma ac3_loop_fuel (cw : Crossword) (fuel : nat) :
  ∀ (arcs : list Arc) (d : Domains),
  proper_arcs arcs →
  length arcs + length (variables cw) * domains_size d ≤ fuel →
  ac3_loop cw fuel arcs d ≠ Raise OutOfFuel.
Proof.
  induction fuel as [|fuel IH]; intros arcs d Harcs Hfuel.
  - destruct arcs as [|[x y] arcs]; [done|]. simpl in Hfuel. lia.
  - destruct arcs as [|[x y] arcs]; [done|]. simpl in *.
    apply Forall_cons in Harcs as [Hxy Harcs]. simpl in Hxy.
    destruct (revise cw x y d) as [[b d1]|e] eqn:Hrev; simpl.
    + apply revise_size in Hrev; [|done]. destruct b.
      * destruct (dom_get d1 x) as [dx|e] eqn:Hdx; simpl;
          [|by apply dom_get_Raise in Hdx as ->].
        case_decide; [done|]. unfold var_set_remove.
        case_decide; [|done]. simpl. apply IH.
        -- apply Forall_app. split; [done|]. apply Forall_fmap, Forall_forall.
           intros z [_ Hz]%list_elem_of_filter. simpl.
           by apply elem_of_neighbors in Hz as (_ & ? & _).
        -- rewrite length_app, length_fmap.
           pose proof (length_filter (λ v, v ≠ y) (neighbors cw x)).
           pose proof (neighbors_length cw x). nia.
      * apply IH; [done|]. nia.
    + apply revise_Raise in Hrev as [-> | ->]; done.
Qed.

Lemma all_arcs_inner (v : Var.t) (ns : list Var.t) : ∀ (acc : list Arc) (a : Arc),
  a ∈ foldl (λ arcs neighbor,
        if decide ((v, neighbor) ∈ arcs) then arcs
        else arcs ++ [(v, neighbor)]) acc ns
  ↔ a ∈ acc ∨ ∃ n, n ∈ ns ∧ a = (v, n).
Proof.
  induction ns as [|n ns IH]; intros acc a; simpl.
  - split; [by left|]. intros [?|(n & Hn & _)]; [done|].
    by apply elem_of_nil in Hn.
  - rewrite IH. setoid_rewrite elem_of_cons. case_decide as Hin.
    + naive_solver.
    + rewrite elem_of_app, list_elem_of_singleton. naive_solver.
Qed.

Lemma all_arcs_outer (cw : Crossword) (vs : list Var.t) : ∀ (acc : list Arc) (a : Arc),
  a ∈ foldl (λ arcs variable,
        foldl (λ arcs neighbor,
            if decide ((variable, neighbor) ∈ arcs) then arcs
            else arcs ++ [(variable, neighbor)])
          arcs (neighbors cw variable)) acc vs
  ↔ a ∈ acc ∨ ∃ v n, v ∈ vs ∧ n ∈ neighbors cw v ∧ a = (v, n).
Proof.
  induction vs as [|v vs IH]; intros acc a; simpl.
  - split; [by left|]. intros [?|(v & n & Hv & _)]; [done|].
    by apply elem_of_nil in Hv.
  - rewrite IH, all_arcs_inner. setoid_rewrite elem_of_cons. naive_solver.
Qed.

(** The initial queue holds exactly the pairs of a variable and one of its
    neighbors. *)
Lemma elem_of_all_arcs (cw : Crossword) (x y : Var.t) :
  (x, y) ∈ all_arcs cw ↔ x ∈ variables cw ∧ y ∈ neighbors cw x.
Proof.
  unfold all_arcs. rewrite all_arcs_outer. split.
  - intros [Hnil|(v & n & ? & ? & [= -> ->])]; [|done].
    by apply elem_of_nil in Hnil.
  - intros [? ?]. right. by exists x, y.
Qed.

Lemma all_arcs_proper (cw : Crossword) : proper_arcs (all_arcs cw).
Proof.
  apply Forall_forall. intros [x y] [_ Hy]%elem_of_all_arcs. simpl.
  apply elem_of_neighbors in Hy as (_ & ? & _). done.
Qed.

(** The loop started by [ac3()] or [ac3([])] never exhausts its budget. *)
Lemma ac3_terminates (cw : Crossword) (arcs : option (list Arc)) (d : Domains) :
  proper_arcs (default [] arcs) →
  ac3 cw arcs d ≠ Raise OutOfFuel.
Proof.
  intros Harcs. unfold ac3, ac3_fuel. apply ac3_loop_fuel; [|done].
  destruct (not_arcs arcs); [apply all_arcs_proper|done].
Qed.

(** [ac3] returns [False] only on an empty domain. *)
Lemma ac3_loop_false (cw : Crossword) (fuel : nat) :
  ∀ (arcs : list Arc) (d d' : Domains),
  ac3_loop cw fuel arcs d = Ok (false, d') → ∃ x, d' !! x = Some [].
Proof.
  induction fuel as [|fuel IH]; intros arcs d d' Hrun.
  - by destruct arcs as [|[x y] arcs].
  - destruct arcs as [|[x y] arcs]; [done|]. simpl in Hrun.
    apply bind_Ok in Hrun as ([b d1] & _ & Hrun). destruct b; [|by eapply IH].
    apply bind_Ok in Hrun as (dx & Hdx%dom_get_Ok & Hrun).
    case_decide as Hlen.
    + injection Hrun as <-. exists x. by destruct dx.
    + apply bind_Ok in Hrun as (ns & _ & Hrun). by eapply IH.
Qed.

(** ** Termination of the search *)

Lemma assign_get_Raise (assignment : Assignment) key e :
  assign_get assignment key = Raise e → e = KeyError.
Proof. unfold assign_get. destruct (assign_lookup assignment key); naive_solver. Qed.

Lemma set_copy_pop_Raise ws e : set_copy_pop ws = Raise e → e = KeyError.
Proof. destruct ws; naive_solver. Qed.

Lemma assign_del_Raise (assignment : Assignment) key e :
  assign_del assignment key = Raise e → e = KeyError.
Proof. unfold assign_del. case_decide; naive_solver. Qed.

(** Splits a raising computation into the step that raised. *)
Ltac raise_inv :=
  repeat match goal with
  | H : bind _ _ = Raise _ |- _ => apply bind_Raise in H as [H|(? & _ & H)]
  | H : dom_get _ _ = Raise _ |- _ => apply dom_get_Raise in H as ->
  | H : char_at _ _ = Raise _ |- _ => apply char_at_Raise in H as ->
  | H : assign_get _ _ = Raise _ |- _ => apply assign_get_Raise in H as ->
  | H : set_copy_pop _ = Raise _ |- _ => apply set_copy_pop_Raise in H as ->
  | H : dom_remove _ _ _ = Raise _ |- _ => apply dom_remove_Raise in H as ->
  | H : assign_del _ _ = Raise _ |- _ => apply assign_del_Raise in H as ->
  | H : Ok _ = Raise _ |- _ => discriminate H
  | H : Raise _ = Raise _ |- _ => injection H as <-
  | H : (if ?c then _ else _) = Raise _ |- _ => destruct c
  end.

Lemma consistent_neighbors_Raise cw (d : Domains) assignment key ns e :
  consistent_neighbors cw d assignment key ns = Raise e → e ≠ OutOfFuel.
Proof.
  induction ns as [|n ns IH]; simpl; [done|].
  destruct (overlaps cw key n) as [o|]; [|done].
  intros Hrun. raise_inv; auto.
Qed.

Lemma consistent_loop_Raise cw (d : Domains) assignment keys word e :
  consistent_loop cw d assignment keys word = Raise e → e ≠ OutOfFuel.
Proof.
  revert word. induction keys as [|key keys IH]; intros word; simpl; [done|].
  intros Hrun. raise_inv; try done.
  - by eapply consistent_neighbors_Raise.
  - by eapply IH.
Qed.

Lemma consistent_Raise cw (d : Domains) assignment e :
  consistent cw d assignment = Raise e → e ≠ OutOfFuel.
Proof. apply consistent_loop_Raise. Qed.

Lemma order_domain_values_Raise cw (d : Domains) var assignment e :
  order_domain_values cw d var assignment = Raise e → e ≠ OutOfFuel.
Proof.
  unfold order_domain_values. intros Hrun. raise_inv; try done.
  apply for_each_Raise in Hrun as (acc & value & _ & Hrun). raise_inv; try done.
  apply for_each_Raise in Hrun as (n & neighbor & _ & Hrun). raise_inv; try done.
  apply for_each_Raise in Hrun as (n' & neighbor_value & _ & Hrun).
  destruct (overlaps cw var neighbor); raise_inv; done.
Qed.

Lemma first_unassigned_Some (assignment : Assignment) (vars : list Var.t) var :
  first_unassigned assignment vars = Some var →
  var ∈ vars ∧ ¬ assigned assignment var.
Proof.
  induction vars as [|v vars IH]; simpl; [done|]. case_decide as Hv.
  - intros [= <-]. split; [by left|done].
  - intros [? ?]%IH. split; [by right|done].
Qed.

Lemma assign_set_fresh (assignment : Assignment) key value :
  ¬ assigned assignment key →
  assign_set assignment key value = assignment ++ [(key, value)].
Proof.
  unfold assigned. induction assignment as [|[k w] rest IH]; simpl; [done|].
  rewrite elem_of_cons. intros Hfresh. rewrite decide_False by naive_solver.
  rewrite IH by naive_solver. done.
Qed.

Lemma NoDup_subseteq_length {A} (l k : list A) :
  NoDup l → l ⊆ k → length l ≤ length k.
Proof. intros Hnd Hsub. by apply submseteq_length, NoDup_submseteq. Qed.

Lemma assign_del_set (assignment : Assignment) key value :
  ¬ assigned assignment key →
  assign_del (assign_set assignment key value) key = Ok assignment.
Proof.
  intros Hfresh. unfold assign_del. rewrite assign_set_fresh by done.
  rewrite decide_True.
  - f_equal. rewrite filter_app, filter_cons_False, filter_nil, app_nil_r.
    + apply filter_all. intros [k w] Hkw. simpl. intros ->. apply Hfresh.
      unfold assigned. apply list_elem_of_fmap. by exists (key, w).
    + simpl. by intros [].
  - unfold assigned. rewrite fmap_app, elem_of_app. right. by left.
Qed.

(** A call that returns a falsy value leaves the dict as it found it, and a
    truthy value returned is the dict itself. *)
Lemma backtrack_restores (cw : Crossword) (d : Domains) (fuel : nat) :
  ∀ (assignment assignment' : Assignment) r,
  backtrack cw d fuel assignment = Ok (r, assignment') →
  if truthy r then r = Some assignment' else assignment' = assignment.
Proof.
  induction fuel as [|fuel IH]; intros assignment assignment' r Hrun; [done|].
  simpl in Hrun. destruct (assignment_complete cw assignment).
  { injection Hrun as <- <-. by destruct (truthy (Some assignment)). }
  destruct (select_unassigned_variable cw assignment) as [var|] eqn:Hsel; [|done].
  apply first_unassigned_Some in Hsel as [_ Hfresh].
  apply bind_Ok in Hrun as (values & _ & Hrun).
  induction values as [|value values IHvalues]; [by injection Hrun as <- <-|].
  apply bind_Ok in Hrun as (ok & _ & Hrun). destruct ok; [|by apply IHvalues].
  apply bind_Ok in Hrun as ([r1 a1] & Hrec & Hrun).
  apply IH in Hrec. destruct (truthy r1) eqn:Hr1.
  - injection Hrun as <- <-. by rewrite Hr1.
  - subst a1. rewrite assign_del_set in Hrun by done. by apply IHvalues.
Qed.

Lemma backtrack_fuel_enough (cw : Crossword) (d : Domains) (fuel : nat) :
  ∀ assignment : Assignment,
  NoDup assignment.*1 → assignment.*1 ⊆ variables cw →
  length (variables cw) < fuel + length assignment →
  backtrack cw d fuel assignment ≠ Raise OutOfFuel.
Proof.
  induction fuel as [|fuel IH]; intros assignment Hnd Hsub Hfuel.
  - pose proof (NoDup_subseteq_length _ _ Hnd Hsub) as Hlen.
    rewrite length_fmap in Hlen. lia.
  - simpl. destruct (assignment_complete cw assignment); [done|].
    destruct (select_unassigned_variable cw assignment) as [var|] eqn:Hsel; [|done].
    apply first_unassigned_Some in Hsel as [Hvar Hfresh].
    destruct (order_domain_values cw d var assignment) as [values|e] eqn:Hord;
      simpl; [|intros [= ->]; by eapply order_domain_values_Raise].
    clear Hord. induction values as [|value values IHvalues]; [done|].
    destruct (consistent cw d (assign_set assignment var value)) as [ok|e] eqn:Hok;
      simpl; [|intros [= ->]; by eapply consistent_Raise].
    destruct ok; [|done].
    destruct (backtrack cw d fuel (assign_set assignment var value))
      as [[r a1]|e] eqn:Hrec; simpl.
    + apply backtrack_restores in Hrec. destruct (truthy r); [done|].
      subst a1. by rewrite assign_del_set.
    + intros [= ->]. revert Hrec. apply IH.
      * rewrite assign_set_fresh, fmap_app by done. apply NoDup_app.
        split_and!; [done| |apply NoDup_singleton].
        intros k Hk Hk'. by apply list_elem_of_singleton in Hk' as ->.
      * rewrite assign_set_fresh, fmap_app by done.
        intros k [?|Hk]%elem_of_app; [by apply Hsub|].
        by apply list_elem_of_singleton in Hk as ->.
      * rewrite assign_set_fresh, length_app by done. simpl. lia.
Qed.

Lemma enforce_node_consistency_Raise (d : Domains) e :
  enforce_node_consistency d = Raise e → e = KeyError.
Proof.
  intros Hrun. apply for_each_Raise in Hrun as (d1 & key & _ & Hrun).
  raise_inv; [done|].
  apply for_each_Raise in Hrun as (d2 & word & _ & Hrun). by raise_inv.
Qed.

(** [solve] never exhausts the budgets of its loops: the model describes a
    terminating program. *)
Lemma solve_terminates (cw : Crossword) : solve cw ≠ Raise OutOfFuel.
Proof.
  unfold solve. intros Hrun. apply bind_Raise in Hrun as [Hrun|(d & _ & Hrun)].
  - by apply enforce_node_consistency_Raise in Hrun.
  - apply bind_Raise in Hrun as [Hrun|([b d'] & _ & Hrun)].
    + by apply ac3_terminates in Hrun; [|apply Forall_nil].
    + apply bind_Raise in Hrun as [Hrun|([r a] & _ & Hrun)]; [|done].
      revert Hrun. apply backtrack_fuel_enough.
      * apply NoDup_nil_2.
      * apply list_subseteq_nil.
      * unfold backtrack_fuel. simpl. lia.
Qed.

(** ** Initial domains *)

Lemma init_domains_wf (cw : Crossword) :
  NoDup (words cw) → wf_domains (init_domains cw).
Proof.
  intros Hnd v ws Hv. unfold init_domains in Hv.
  apply elem_of_list_to_map_2, list_elem_of_fmap in Hv as (v' & [= _ ->] & _).
  done.
Qed.

(** [solve] is the search with the domains dropped. *)
Lemma solve_search (cw : Crossword) :
  solve cw = (let* dr := search cw in Ok dr.2).
Proof.
  unfold solve, search, prepared.
  destruct (enforce_node_consistency (init_domains cw)) as [d|]; cbn [bind]; [|done].
  destruct (ac3 cw None d) as [[b d']|]; cbn [bind]; [|done].
  by destruct (backtrack cw d' (backtrack_fuel cw) []) as [[r a]|].
Qed.

(** ** AC-3 on non-empty domains *)

Lemma agree_swap (o : nat * nat) a b : agree (o.2, o.1) b a ↔ agree o a b.
Proof.
  unfold agree. simpl.
  destruct (String.get o.1 a), (String.get o.2 b); naive_solver.
Qed.

Section ac3_soundness.

Context (cw : Crossword) (Hsym : symmetric_overlaps cw).

Lemma overlaps_swap x y :
  x ∈ variables cw → y ∈ variables cw →
  overlaps cw y x = (λ o : nat * nat, (o.2, o.1)) <$> overlaps cw x y.
Proof.
  intros Hx Hy. unfold symmetric_overlaps in Hsym.
  rewrite Forall_forall in Hsym. specialize (Hsym x Hx).
  rewrite Forall_forall in Hsym. by apply Hsym.
Qed.

Lemma neighbors_sym x y :
  x ∈ variables cw → y ∈ neighbors cw x → x ∈ neighbors cw y.
Proof.
  intros Hx (Hy & Hne & Ho)%elem_of_neighbors. apply elem_of_neighbors.
  split_and!; [done|done|]. rewrite (overlaps_swap y x) by done.
  by apply fmap_is_Some.
Qed.

Lemma ac3_loop_sound (fuel : nat) : ∀ (arcs : list Arc) (d d' : Domains),
  ac3_invariant cw arcs d →
  ac3_loop cw fuel arcs d = Ok (true, d') →
  arc_consistent cw d' ∧ nonempty_domains cw d'.
Proof.
  induction fuel as [|fuel IH]; intros arcs d d' (Hne & Harcs & Hout) Hrun.
  { destruct arcs as [|[x y] arcs]; [|done]. injection Hrun as <-.
    split; [|done]. intros x y Hx Hy. apply Hout; [done..|apply not_elem_of_nil]. }
  destruct arcs as [|[x y] arcs].
  { injection Hrun as <-. split; [|done].
    intros x y Hx Hy. apply Hout; [done..|apply not_elem_of_nil]. }
  simpl in Hrun. apply bind_Ok in Hrun as ([b d1] & Hrev & Hrun).
  destruct (Harcs x y) as [Hx Hy]; [by left|].
  pose proof Hy as (Hyv & Hxy & Hoyx)%elem_of_neighbors.
  assert (x ≠ y) as Hxy' by done.
  destruct (overlaps cw x y) as [o|] eqn:Ho;
    [|rewrite (overlaps_swap x y), Ho in Hoyx by done; by destruct Hoyx].
  destruct (revise_inv cw x y d d1 b o Hxy' Ho Hrev) as (dx & Hdx & Hcases).
  unfold nonempty_domains in Hne. rewrite Forall_forall in Hne.
  destruct (Hne x Hx) as (wx & wsx & Hdx').
  destruct (Hne y Hyv) as (wy & wsy & Hdy').
  destruct Hcases as [(-> & _)|(dy & Hdy & -> & ->)]; [congruence|].
  assert (dy = wy :: wsy) as Hdy_ne by congruence.
  assert (∀ a, revise_keeps o dy a ↔ has_support o dy a) as Hkeeps.
  { intros a. unfold revise_keeps. split; [|by right].
    intros [->|?]; [done|done]. }
  case_bool_decide as Hex.
  - (* a value was removed *)
    apply bind_Ok in Hrun as (dx1 & Hdx1%dom_get_Ok & Hrun).
    rewrite lookup_insert_eq in Hdx1. injection Hdx1 as <-.
    case_decide as Hlen; [done|].
    unfold var_set_remove in Hrun. rewrite decide_True in Hrun by done.
    simpl in Hrun. apply IH in Hrun; [done|]. split_and!.
    + unfold nonempty_domains. apply Forall_forall. intros v Hv.
      destruct (decide (x = v)) as [<-|Hvx].
      * rewrite lookup_insert_eq.
        destruct (filter (revise_keeps o dy) dx) as [|w ws]; [done|by eexists _, _].
      * rewrite lookup_insert_ne by done. by apply Hne.
    + intros u v [Huv|Huv]%elem_of_app; [apply Harcs; by right|].
      apply list_elem_of_fmap in Huv as (z & [= -> ->] & [_ Hz]%list_elem_of_filter).
      split; [by apply elem_of_neighbors in Hz as (? & _)|by apply neighbors_sym].
    + intros u v Hu Hv Hnotin o' du dv Ho' Hdu Hdv.
      rewrite elem_of_app in Hnotin.
      destruct (decide ((u, v) = (x, y))) as [[= -> ->]|Hne_arc].
      { rewrite lookup_insert_eq in Hdu. rewrite lookup_insert_ne in Hdv by done.
        injection Hdu as <-. assert (o' = o) as -> by congruence.
        assert (dv = dy) as -> by congruence.
        apply Forall_forall. intros a [Ha _]%list_elem_of_filter. by apply Hkeeps. }
      assert (supported cw d u v) as Hsup.
      { apply Hout; [done..|]. intros [?|?]%elem_of_cons; naive_solver. }
      destruct (decide (v = x)) as [->|Hvx].
      * assert (u = y) as ->.
        { destruct (decide (u = y)) as [|Huy]; [done|]. destruct Hnotin. right.
          apply list_elem_of_fmap. exists u. split; [done|].
          apply list_elem_of_filter. split; [done|]. by apply neighbors_sym. }
        rewrite lookup_insert_ne in Hdu by done. rewrite lookup_insert_eq in Hdv.
        injection Hdv as <-. assert (du = dy) as -> by congruence.
        rewrite (overlaps_swap x y), Ho in Ho' by done. injection Ho' as <-.
        specialize (Hsup _ _ _ ltac:(by rewrite (overlaps_swap x y), Ho) Hdy Hdx).
        simpl in Hsup. rewrite Forall_forall in Hsup. apply Forall_forall.
        intros b Hb. pose proof (Hsup b Hb) as Hb'. unfold has_support in *.
        apply Exists_exists in Hb' as (a & Ha & Hagree). apply Exists_exists.
        exists a. split; [|done]. apply list_elem_of_filter. split; [|done].
        right. apply Exists_exists. exists b. split; [done|].
        by apply agree_swap in Hagree.
      * rewrite lookup_insert_ne in Hdv by done.
        destruct (decide (u = x)) as [->|Hux].
        -- rewrite lookup_insert_eq in Hdu. injection Hdu as <-.
           specialize (Hsup _ _ _ Ho' Hdx Hdv). rewrite Forall_forall in Hsup.
           apply Forall_forall. intros a [_ Ha]%list_elem_of_filter. by apply Hsup.
        -- rewrite lookup_insert_ne in Hdu by done. by eapply Hsup.
  - (* nothing was removed *)
    assert (filter (revise_keeps o dy) dx = dx) as Hsame.
    { apply filter_all. intros a Ha.
      destruct (decide (revise_keeps o dy a)) as [|Hdrop]; [done|].
      destruct Hex. apply Exists_exists. by exists a. }
    rewrite Hsame, insert_id in Hrun by done.
    apply IH in Hrun; [done|]. split_and!.
    + unfold nonempty_domains. by apply Forall_forall.
    + intros u v Huv. apply Harcs. by right.
    + intros u v Hu Hv Hnotin.
      destruct (decide ((u, v) = (x, y))) as [[= -> ->]|Hne_arc].
      * intros o' du dv Ho' Hdu Hdv. assert (o' = o) as -> by congruence.
        assert (du = dx) as -> by congruence. assert (dv = dy) as -> by congruence.
        rewrite <-Hsame. apply Forall_forall.
        intros a [Ha _]%list_elem_of_filter. by apply Hkeeps.
      * apply Hout; [done..|]. intros [?|?]%elem_of_cons; naive_solver.
Qed.

(** On a crossword with a symmetric overlap table and no empty domain,
    [ac3()] that returns [True] has made every arc consistent. *)
Lemma ac3_sound_on_nonempty_domains (d d' : Domains) :
  nonempty_domains cw d →
  ac3 cw None d = Ok (true, d') →
  arc_consistent cw d' ∧ nonempty_domains cw d'.
Proof.
  intros Hne Hrun. eapply ac3_loop_sound; [|exact Hrun]. split_and!; [done| |].
  - intros x y Hxy. by apply elem_of_all_arcs.
  - intros x y Hx Hy Hnotin. destruct Hnotin. by apply elem_of_all_arcs.
Qed.

End ac3_soundness.

(** ** What the search does guarantee *)

Lemma assign_lookup_entry (assignment : Assignment) key w :
  NoDup assignment.*1 → (key, w) ∈ assignment →
  assign_lookup assignment key = Some w.
Proof.
  induction assignment as [|[k w'] rest IH]; intros Hnd Hin.
  - by apply elem_of_nil in Hin.
  - simpl in *. apply NoDup_cons in Hnd as [Hk Hnd].
    apply elem_of_cons in Hin as [[= -> ->]|Hin]; [by rewrite decide_True|].
    rewrite decide_False; [by apply IH|].
    intros ->. apply Hk, list_elem_of_fmap. by exists (key, w).
Qed.

(** The length test of [consistent] is the length constraint. *)
Lemma consistent_loop_length cw (d : Domains) (assignment : Assignment) keys word :
  consistent_loop cw d assignment keys word = Ok true →
  Forall (λ key, ∃ w, assign_lookup assignment key = Some w
                      ∧ len w = Var.length key) keys.
Proof.
  revert word. induction keys as [|key keys IH]; intros word Hrun; [constructor|].
  simpl in Hrun. apply bind_Ok in Hrun as (w & Hw & Hrun).
  unfold assign_get in Hw.
  destruct (assign_lookup assignment key) as [w'|] eqn:Hlook; [|done].
  injection Hw as ->. case_decide as Hlen; [done|]. case_decide; [|done].
  apply bind_Ok in Hrun as (ok & _ & Hrun). destruct ok; [|done].
  constructor; [|by eapply IH]. exists w. split; [done|].
  destruct (decide (len w = Var.length key)); [done|]. destruct Hlen. congruence.
Qed.

Lemma consistent_length cw (d : Domains) (assignment : Assignment) :
  NoDup assignment.*1 →
  consistent cw d assignment = Ok true → spec_length_ok assignment.
Proof.
  intros Hnd Hrun. apply consistent_loop_length in Hrun.
  rewrite Forall_forall in Hrun. apply Forall_forall. intros [k w] Hkw.
  destruct (Hrun k) as (w' & Hlook & Hlen).
  { apply list_elem_of_fmap. by exists (k, w). }
  rewrite (assign_lookup_entry _ _ w) in Hlook by done. by injection Hlook as <-.
Qed.

(** An assignment that [backtrack] returns passed [assignment_complete], and
    passed [consistent] unless it is the dict the call was given. *)
Lemma backtrack_result_checked (cw : Crossword) (d : Domains) (fuel : nat) :
  ∀ (assignment final found : Assignment),
  backtrack cw d fuel assignment = Ok (Some found, final) →
  assignment_complete cw found = true
  ∧ (found = assignment ∨ consistent cw d found = Ok true).
Proof.
  induction fuel as [|fuel IH]; intros assignment final found Hrun; [done|].
  simpl in Hrun. destruct (assignment_complete cw assignment) eqn:Hcomplete.
  { injection Hrun as <- <-. by split; [|left]. }
  destruct (select_unassigned_variable cw assignment) as [var|] eqn:Hsel; [|done].
  apply first_unassigned_Some in Hsel as [_ Hfresh].
  apply bind_Ok in Hrun as (values & _ & Hrun).
  induction values as [|value values IHvalues]; [done|].
  apply bind_Ok in Hrun as (ok & Hok & Hrun). destruct ok; [|by apply IHvalues].
  apply bind_Ok in Hrun as ([r1 a1] & Hrec & Hrun).
  pose proof (backtrack_restores _ _ _ _ _ _ Hrec) as Hrestore.
  destruct (truthy r1) eqn:Hr1.
  - injection Hrun as -> <-. apply IH in Hrec as [? [->|?]]; by split; [|right].
  - subst a1. rewrite assign_del_set in Hrun by done. by apply IHvalues.
Qed.

(** ** The consistency predicate *)

Lemma consistent_neighbors_true cw (d : Domains) assignment key w ns :
  assign_lookup assignment key = Some w →
  consistent_neighbors cw d assignment key ns = Ok true
  ↔ Forall (head_agrees cw d key w) ns.
Proof.
  intros Hw. induction ns as [|n ns IH]; simpl; [by split; [constructor|]|].
  rewrite Forall_cons, <-IH. unfold head_agrees at 1, assign_get. rewrite Hw.
  destruct (overlaps cw key n) as [o|]; [|naive_solver]. simpl.
  unfold char_at, dom_get, agree.
  destruct (String.get o.1 w) as [c|]; simpl.
  - destruct (d !! n) as [[|w' ws]|]; simpl; [naive_solver| |naive_solver].
    destruct (String.get o.2 w') as [c'|]; simpl; [|naive_solver].
    case_decide; naive_solver.
  - destruct (d !! n) as [[|w' ws]|]; naive_solver.
Qed.

Lemma consistent_loop_true cw (d : Domains) assignment keys : ∀ word,
  consistent_loop cw d assignment keys word = Ok true
  ↔ Forall (key_passes cw d assignment) keys
    ∧ no_repeat_after word (omap (assign_lookup assignment) keys).
Proof.
  induction keys as [|key keys IH]; intros word; simpl.
  { split; [by split; [constructor|]|done]. }
  rewrite Forall_cons. unfold key_passes at 1, assign_get.
  destruct (assign_lookup assignment key) as [w|] eqn:Hw; simpl; [|naive_solver].
  case_decide as Hlen; [naive_solver|].
  case_decide as Hword; [|naive_solver].
  destruct (consistent_neighbors cw d assignment key (neighbors cw key))
    as [[]|e] eqn:Hns; simpl.
  - apply (consistent_neighbors_true _ _ _ _ w) in Hns; [|done].
    rewrite IH. naive_solver.
  - split; [done|]. intros [[[_ Hall] _] _].
    apply (consistent_neighbors_true cw d assignment key w) in Hall; [|done].
    congruence.
  - split; [done|]. intros [[[_ Hall] _] _].
    apply (consistent_neighbors_true cw d assignment key w) in Hall; [|done].
    congruence.
Qed.

(** [consistent] returns [True] exactly on the assignments whose words have
    the right length, differ from the word of the previous key, and agree with
    the first word of the domain of every overlapping neighbor. *)
Lemma consistent_true_iff cw (d : Domains) (assignment : Assignment) :
  consistent cw d assignment = Ok true ↔ code_consistent cw d assignment.
Proof. apply consistent_loop_true. Qed.

(** ** Value ordering *)

Section value_ordering.

Context (cw : Crossword) (d : Domains) (var : Var.t) (assignment : Assignment).

Let count_agreeing (overlap : option (nat * nat)) (value : string)
    (n : nat) (neighbor_value : string) : result nat :=
  match overlap with
  | None => Raise TypeError
  | Some overlap =>
    let* c := char_at value overlap.1 in
    let* c' := char_at neighbor_value overlap.2 in
    Ok (if decide (c = c') then S n else n)
  end.

Let count_neighbor (value : string) (n : nat) (neighbor : Var.t) : result nat :=
  if decide (assigned assignment neighbor) then Ok n
  else
    let overlap := overlaps cw var neighbor in
    let* neighbor_domain := dom_get d neighbor in
    for_each (count_agreeing overlap value) neighbor_domain n.

Lemma count_agreeing_loop overlap value (dn : list string) : ∀ n n',
  for_each (count_agreeing overlap value) dn n = Ok n' →
  n' = n + match overlap with
           | Some o => length (filter (λ w, agree o value w) dn)
           | None => 0
           end.
Proof.
  induction dn as [|w dn IH]; intros n n' Hrun.
  - injection Hrun as <-. destruct overlap; simpl; lia.
  - cbn [for_each] in Hrun. apply bind_Ok in Hrun as (n1 & Hstep & Hrun).
    apply IH in Hrun as ->. unfold count_agreeing in Hstep.
    destruct overlap as [o|]; [|done].
    apply bind_Ok in Hstep as (c & Hc%char_at_Ok & Hstep).
    apply bind_Ok in Hstep as (c' & Hc'%char_at_Ok & [= <-]).
    assert (agree o value w ↔ c = c') as Hagree.
    { unfold agree. by rewrite Hc, Hc'. }
    rewrite filter_cons.
    destruct (decide (agree o value w)), (decide (c = c')); simpl; try lia; tauto.
Qed.

Lemma count_neighbor_loop value (ns : list Var.t) : ∀ n n',
  for_each (count_neighbor value) ns n = Ok n' →
  n' = n + sum_list_with (λ nb,
             if decide (assigned assignment nb) then 0
             else
               match overlaps cw var nb with
               | Some o => length (filter (λ w, agree o value w) (default [] (d !! nb)))
               | None => 0
               end) ns.
Proof.
  induction ns as [|nb ns IH]; intros n n' Hrun.
  - injection Hrun as <-. simpl. lia.
  - cbn [for_each] in Hrun. apply bind_Ok in Hrun as (n1 & Hstep & Hrun).
    apply IH in Hrun as ->. unfold count_neighbor in Hstep. simpl.
    case_decide; [injection Hstep as <-; lia|].
    apply bind_Ok in Hstep as (dn & Hdn%dom_get_Ok & Hstep).
    apply count_agreeing_loop in Hstep as ->. rewrite Hdn. simpl. lia.
Qed.

Lemma count_values_loop (dv : list string) : ∀ acc acc',
  for_each (λ assign_values value,
      let* n := for_each (count_neighbor value) (neighbors cw var) 0 in
      Ok (assign_values ++ [(value, n)])) dv acc = Ok acc' →
  acc' = acc ++ ((λ v, (v, compatible_count cw d var assignment v)) <$> dv).
Proof.
  induction dv as [|v dv IH]; intros acc acc' Hrun.
  - injection Hrun as <-. by rewrite app_nil_r.
  - cbn [for_each] in Hrun. apply bind_Ok in Hrun as (acc1 & Hstep & Hrun).
    apply IH in Hrun as ->.
    apply bind_Ok in Hstep as (n & Hn%count_neighbor_loop & [= <-]).
    subst n. by rewrite <-app_assoc.
Qed.

End value_ordering.

Lemma insert_by_count_perm x l : insert_by_count x l ≡ₚ x :: l.
Proof.
  induction l as [|y l IH]; simpl; [done|]. case_decide; [done|].
  rewrite IH. apply Permutation_swap.
Qed.

Lemma insert_by_count_sorted x l :
  Sorted (λ a b : string * nat, a.2 ≤ b.2) l →
  Sorted (λ a b : string * nat, a.2 ≤ b.2) (insert_by_count x l).
Proof.
  induction 1 as [|y l Hsorted IH Hhd]; simpl.
  - by repeat constructor.
  - case_decide as Hle.
    + constructor; [by constructor|]. by constructor.
    + constructor; [done|]. destruct Hhd as [|z l Hyz]; simpl.
      * constructor. lia.
      * case_decide; constructor; [lia|done].
Qed.

Lemma foldr_insert_by_count_perm l : foldr insert_by_count [] l ≡ₚ l.
Proof.
  induction l as [|x l IH]; simpl; [done|]. by rewrite insert_by_count_perm, IH.
Qed.

Lemma sorted_by_count_perm l : sorted_by_count l ≡ₚ l.*1.
Proof. unfold sorted_by_count. by rewrite foldr_insert_by_count_perm. Qed.

Lemma foldr_insert_by_count_sorted l :
  Sorted (λ a b : string * nat, a.2 ≤ b.2) (foldr insert_by_count [] l).
Proof.
  induction l as [|x l IH]; simpl; [constructor|]. by apply insert_by_count_sorted.
Qed.

Lemma Sorted_fst_by (f : string → nat) (l : list (string * nat)) :
  Forall (λ p, p.2 = f p.1) l →
  Sorted (λ a b : string * nat, a.2 ≤ b.2) l →
  Sorted (λ a b, f a ≤ f b) l.*1.
Proof.
  intros Hall Hsorted. induction Hsorted as [|y l Hsorted IH Hhd]; [constructor|].
  apply Forall_cons in Hall as [Hy Hall]. simpl.
  constructor; [by apply IH|]. destruct Hhd as [|z l Hyz]; [constructor|].
  apply Forall_cons in Hall as [Hz _]. constructor. simpl. lia.
Qed.

(** [order_domain_values] returns the values of the domain in ascending order
    of the number of neighbor words that agree with them. *)
Lemma order_domain_values_sorted (cw : Crossword) (d : Domains) (var : Var.t)
    (assignment : Assignment) (values : list string) :
  order_domain_values cw d var assignment = Ok values →
  ∃ dv, d !! var = Some dv
    ∧ values ≡ₚ dv
    ∧ Sorted (λ a b, compatible_count cw d var assignment a
                     ≤ compatible_count cw d var assignment b) values.
Proof.
  unfold order_domain_values. intros Hrun.
  apply bind_Ok in Hrun as (dv & Hdv%dom_get_Ok & Hrun).
  apply bind_Ok in Hrun as (acc & Hacc & [= <-]).
  apply (count_values_loop cw d var assignment) in Hacc. simpl in Hacc. subst acc.
  exists dv. split_and!; [done| |].
  - rewrite sorted_by_count_perm, <-list_fmap_compose. by rewrite list_fmap_id.
  - apply Sorted_fst_by; [|apply foldr_insert_by_count_sorted].
    eapply Forall_forall. intros p Hp.
    rewrite foldr_insert_by_count_perm in Hp.
    by apply list_elem_of_fmap in Hp as (v & -> & _).
Qed.

Lemma length_filter_split {A} (P : A → Prop) `{!∀ x, Decision (P x)} (l : list A) :
  length (filter P l) + length (filter (λ x, ¬ P x) l) = length l.
Proof.
  induction l as [|x l IH]; [done|]. rewrite !filter_cons.
  destruct (decide (P x)), (decide (¬ P x)); simpl; try lia; tauto.
Qed.

(** Every neighbor word either agrees with a value or is ruled out by it. *)
Lemma compatible_plus_ruled_out (cw : Crossword) (d : Domains) (var : Var.t)
    (assignment : Assignment) (value : string) :
  compatible_count cw d var assignment value
  + spec_ruled_out cw d var assignment value
  = neighbor_values cw d var assignment.
Proof.
  unfold compatible_count, spec_ruled_out, neighbor_values.
  induction (neighbors cw var) as [|n ns IH]; [done|]. simpl.
  case_decide; [lia|]. destruct (overlaps cw var n) as [o|]; [|lia].
  pose proof (length_filter_split (λ w, agree o value w) (default [] (d !! n))).
  lia.
Qed.

(** [order_domain_values] returns the values in descending order of their
    ruled-out count: the most constraining value comes first. *)
Lemma order_domain_values_descending (cw : Crossword) (d : Domains) (var : Var.t)
    (assignment : Assignment) (values : list string) :
  order_domain_values cw d var assignment = Ok values →
  Sorted (λ a b, spec_ruled_out cw d var assignment b
                 ≤ spec_ruled_out cw d var assignment a) values.
Proof.
  intros (dv & _ & _ & Hsorted)%order_domain_values_sorted.
  assert (∀ a b, compatible_count cw d var assignment a
                 ≤ compatible_count cw d var assignment b →
                 spec_ruled_out cw d var assignment b
                 ≤ spec_ruled_out cw d var assignment a) as Hflip.
  { intros a b Hab.
    pose proof (compatible_plus_ruled_out cw d var assignment a).
    pose proof (compatible_plus_ruled_out cw d var assignment b). lia. }
  induction Hsorted as [|a l _ IH Hhd]; constructor; [done|].
  destruct Hhd; constructor. by apply Hflip.
Qed.

(** * The claims *)

(** ** C1 *)

(** C1 — [consistent] compares against unassigned neighbors (code defect).
    After node consistency on the two-slot grid with the words CAT and DOGS,
    the assignment that gives CAT to the across slot leaves the down slot
    unassigned and meets the three constraints, yet [consistent] returns
    [False]: it compares the A of CAT with the D of DOGS, the word popped from
    the domain of the unassigned neighbor.  Replacing that domain by ACES,
    with the assignment untouched, turns the answer into [True]. *)
Theorem consistent_compares_unassigned_neighbor :
  let cw := crossword_of [across3; down4] ["CAT"; "DOGS"] in
  let d : Domains := {[ across3 := ["CAT"]; down4 := ["DOGS"] ]} in
  let assignment : Assignment := [(across3, "CAT")] in
  enforce_node_consistency (init_domains cw) = Ok d
  ∧ down4 ∈ neighbors cw across3
  ∧ ¬ assigned assignment down4
  ∧ spec_consistent cw assignment
  ∧ consistent cw d assignment = Ok false
  ∧ consistent cw (<[down4 := ["ACES"]]> d) assignment = Ok true.
Proof.
  split_and!; try (vm_compute; reflexivity); by_evaluation.
Qed.

(** The defect of C1 on the domains [solve] hands to the search, for every
    iteration order of the word set. *)
Lemma consistent_rejects_partial_assignment_any_order :
  Forall (λ ws, rejects_a_partial_assignment (crossword_of [across3; down4] ws))
    (permutations ["CAT"; "DOG"; "OPEN"; "ACES"]).
Proof. by_evaluation. Qed.

(** ** C2 *)

(** C2 — [consistent] is not the conjunction of the three constraints on
    complete assignments (code defect).  (a) On three isolated 3-letter slots
    the complete assignment CAT, DOG, CAT is accepted although one word fills
    two slots: a word is compared with the word of the previous key only.
    (b) On the two-slot grid, with domains as [ac3] leaves them, the complete
    assignment CAT / ACES meets all three constraints and is rejected, and
    DOG / ACES is accepted although the shared square would hold O and A:
    each word is compared with the first word of the neighbor's domain, not
    with the word assigned to the neighbor. *)
Theorem consistent_differs_from_constraints :
  (let cw := crossword_of [row0; row2; row4] ["CAT"; "DOG"] in
   let assignment : Assignment := [(row0, "CAT"); (row2, "DOG"); (row4, "CAT")] in
   ∃ d, prepared cw = Ok d
     ∧ complete cw assignment
     ∧ consistent cw d assignment = Ok true
     ∧ ¬ spec_distinct assignment
     ∧ ¬ spec_consistent cw assignment)
  ∧ (let cw := crossword_of [across3; down4] ["CAT"; "DOG"; "OPEN"; "ACES"] in
     let d : Domains := {[ across3 := ["CAT"; "DOG"]; down4 := ["OPEN"; "ACES"] ]} in
     let valid : Assignment := [(across3, "CAT"); (down4, "ACES")] in
     let clash : Assignment := [(across3, "DOG"); (down4, "ACES")] in
     prepared cw = Ok d
     ∧ complete cw valid ∧ within_domains d valid
     ∧ spec_consistent cw valid
     ∧ consistent cw d valid = Ok false
     ∧ complete cw clash ∧ within_domains d clash
     ∧ ¬ spec_overlaps_agree cw clash
     ∧ ¬ spec_consistent cw clash
     ∧ consistent cw d clash = Ok true).
Proof.
  split.
  - eexists. split_and!; [vm_compute; reflexivity|..];
      try (vm_compute; reflexivity); by_evaluation.
  - split_and!; try (vm_compute; reflexivity); by_evaluation.
Qed.

(** For every iteration order of the word set, [consistent] rejects a
    complete assignment that meets the three constraints. *)
Lemma consistent_rejects_valid_assignment_any_order :
  Forall (λ ws, rejects_a_valid_assignment (crossword_of [across3; down4] ws))
    (permutations ["CAT"; "DOG"; "OPEN"; "ACES"]).
Proof. by_evaluation. Qed.

(** ** C3 *)

(** The code returns the first variable of the iteration that is unassigned,
    whatever the domains hold. *)
Lemma select_unassigned_variable_first (cw : Crossword) (assignment : Assignment) :
  select_unassigned_variable cw assignment
  = head (filter (λ v, ¬ assigned assignment v) (variables cw)).
Proof.
  unfold select_unassigned_variable.
  induction (variables cw) as [|v vs IH]; simpl; [done|].
  rewrite filter_cons. by case_decide.
Qed.

(** C3 — variable selection is not minimum-remaining-values (code defect).
    The heuristic is left as a stub that returns the first unassigned
    variable.  On the two-slot grid, whichever slot the iteration yields
    first, there is a word list for which that slot keeps two values while
    the other keeps one: the code selects the slot with the larger domain. *)
Theorem select_is_not_minimum_remaining_values :
  (let cw := crossword_of [across3; down4] ["CAT"; "CAB"; "ACES"] in
   let d : Domains := {[ across3 := ["CAT"; "CAB"]; down4 := ["ACES"] ]} in
   prepared cw = Ok d
   ∧ select_unassigned_variable cw [] = Some across3
   ∧ remaining_values d across3 = 2 ∧ remaining_values d down4 = 1
   ∧ ¬ spec_selected cw d [] across3
   ∧ spec_selected cw d [] down4)
  ∧ (let cw := crossword_of [down4; across3] ["CAT"; "ACES"; "ARTS"] in
     let d : Domains := {[ across3 := ["CAT"]; down4 := ["ACES"; "ARTS"] ]} in
     prepared cw = Ok d
     ∧ select_unassigned_variable cw [] = Some down4
     ∧ remaining_values d down4 = 2 ∧ remaining_values d across3 = 1
     ∧ ¬ spec_selected cw d [] down4
     ∧ spec_selected cw d [] across3).
Proof.
  split; split_and!; try (vm_compute; reflexivity); by_evaluation.
Qed.

(** ** C4 *)

(** C4 — value ordering is reversed (code defect).  [order_domain_values]
    counts, for each value, the neighbor words that agree with it and sorts
    ascending by that count, so the value that rules out the most comes
    first.  With the words CAT, COT, ACES, ARTS and OPEN the across slot keeps
    CAT and COT; the code returns COT before CAT for every iteration order of
    the variable set and of the word set, while the ruled-out counts are 2
    for COT and 1 for CAT. *)
Theorem order_domain_values_most_constraining_first :
  Forall (λ vars,
      Forall (λ ws, most_constraining_first (crossword_of vars ws))
        (permutations ["CAT"; "COT"; "ACES"; "ARTS"; "OPEN"]))
    (permutations [across3; down4]).
Proof. by_evaluation. Qed.

(** ** C5 *)

(** C5 — [solve] can raise (code defect).  On the two-slot grid, a word list
    that serves only one of the slots leaves the other domain empty; when the
    search starts with the served slot, [consistent] pops from the empty
    domain of its neighbor and [solve] ends in [KeyError] instead of
    returning [None].  Whichever slot the iteration of the variable set
    yields first, one of the two word lists triggers it. *)
Theorem solve_raises_KeyError :
  solve (crossword_of [across3; down4] ["CAT"]) = Raise KeyError
  ∧ solve (crossword_of [down4; across3] ["CAT"]) = Ok None
  ∧ solve (crossword_of [down4; across3] ["ACES"]) = Raise KeyError
  ∧ solve (crossword_of [across3; down4] ["ACES"]) = Ok None.
Proof. split_and!; vm_compute; reflexivity. Qed.

(** ** C6 *)

(** C6 — AC-3 soundness fails on an empty neighbor domain (code defect).
    With the single word CAT, node consistency leaves the 4-letter slot
    without any word; [ac3()] then returns [True] and keeps CAT in the domain
    of the across slot, although no word of the down slot's domain supports
    it.  This holds for both iteration orders of the variable set. *)
Theorem ac3_true_without_support :
  Forall (λ vars,
      let cw := crossword_of vars ["CAT"] in
      let d : Domains := {[ across3 := ["CAT"]; down4 := [] ]} in
      enforce_node_consistency (init_domains cw) = Ok d
      ∧ ac3 cw None d = Ok (true, d)
      ∧ down4 ∈ neighbors cw across3
      ∧ overlaps cw across3 down4 = Some (1, 0)
      ∧ d !! across3 = Some ["CAT"] ∧ d !! down4 = Some []
      ∧ ¬ has_support (1, 0) [] "CAT")
    [[across3; down4]; [down4; across3]].
Proof.
  repeat constructor; try (vm_compute; reflexivity);
    try (apply (bool_decide_unpack _); vm_compute; exact I).
Qed.

(** The second half of the claim holds: [ac3] returns [False] only when it
    has just emptied a domain. *)
Lemma ac3_false_empty_domain (cw : Crossword) arcs (d d' : Domains) :
  ac3 cw arcs d = Ok (false, d') → ∃ x, d' !! x = Some [].
Proof. apply ac3_loop_false. Qed.

(** ** C7 *)

(** C7 — the search is neither sound nor complete (code defect, the one of
    [consistent]).  For every iteration order of the variables and of the
    words: (a) on three isolated 3-letter slots with the two words CAT and
    DOG, [backtrack] returns a complete assignment that uses one word twice;
    (b) on the 3-by-3 cross with the words CAT, ACE, DOG and ODE,
    [backtrack] returns [None] although CAT across and ACE down is a complete
    assignment within the domains that meets all constraints.  (c) On the
    two-slot grid the assignment returned puts O and A on the shared
    square. *)
Theorem backtrack_unsound_and_incomplete :
  Forall (λ vars,
      Forall (λ ws, returns_a_repeated_word (crossword_of vars ws))
        (permutations ["CAT"; "DOG"]))
    (permutations [row0; row2; row4])
  ∧ Forall (λ vars,
        Forall (λ ws,
            misses_the_solution [(across3, "CAT"); (down3, "ACE")]
              (crossword_of vars ws))
          (permutations ["CAT"; "ACE"; "DOG"; "ODE"]))
      (permutations [across3; down3])
  ∧ (let cw := crossword_of [across3; down4] ["CAT"; "DOG"; "OPEN"; "ACES"] in
     let d : Domains := {[ across3 := ["CAT"; "DOG"]; down4 := ["OPEN"; "ACES"] ]} in
     let found : Assignment := [(across3, "DOG"); (down4, "ACES")] in
     search cw = Ok (d, Some found)
     ∧ solve cw = Ok (Some found)
     ∧ complete cw found
     ∧ overlaps cw across3 down4 = Some (1, 0)
     ∧ ¬ spec_overlaps_agree cw found
     ∧ ¬ spec_consistent cw found).
Proof.
  split_and!; [by_evaluation|by_evaluation|].
  cbv zeta. split_and!; try (vm_compute; reflexivity); by_evaluation.
Qed.

(** ** C8 *)

(** C8 — revise monotonicity.  For distinct variables [x] and [y]: whenever
    [revise(x, y)] returns, the new domain of [x] is a subset of the old one,
    the value returned is [True] exactly when that subset is proper, and the
    domain of every other variable, [y] included, is unchanged; without an
    overlap the call returns [False] and changes nothing; and the call does
    return when the domain of [x] is a set and the words of both domains reach
    the overlap indices, as they do after node consistency. *)
Theorem revise_monotone (cw : Crossword) (x y : Var.t) (d : Domains)
    (dx : list string) :
  x ≠ y → d !! x = Some dx →
  (∀ b (d' : Domains), revise cw x y d = Ok (b, d') →
     ∃ dx', d' !! x = Some dx'
       ∧ dx' ⊆ dx
       ∧ (b = true ↔ ¬ dx ⊆ dx')
       ∧ ∀ v, v ≠ x → d' !! v = d !! v)
  ∧ (overlaps cw x y = None → revise cw x y d = Ok (false, d))
  ∧ (∀ dy, d !! y = Some dy → NoDup dx →
       (∀ o, overlaps cw x y = Some o →
             (∀ a, a ∈ dx → o.1 < len a) ∧ (∀ b, b ∈ dy → o.2 < len b)) →
       ∃ r, revise cw x y d = Ok r).
Proof.
  intros Hxy Hx. split_and!.
  - intros b d' Hrun.
    assert (b = false ∧ d' = d → ∃ dx', d' !! x = Some dx' ∧ dx' ⊆ dx
              ∧ (b = true ↔ ¬ dx ⊆ dx') ∧ ∀ v, v ≠ x → d' !! v = d !! v)
      as Hsame.
    { intros [-> ->]. exists dx. split_and!; [done|done| |done].
      split; [done|]. intros Hne. by destruct Hne. }
    destruct (overlaps cw x y) as [o|] eqn:Ho.
    + destruct (revise_inv cw x y d d' b o Hxy Ho Hrun) as (dx0 & Hx0 & Hcases).
      assert (dx0 = dx) as -> by congruence.
      destruct Hcases as [(_ & ? & ?)|(dy & _ & -> & ->)]; [by apply Hsame|].
      exists (filter (revise_keeps o dy) dx). split_and!.
      * by rewrite lookup_insert_eq.
      * apply list_subseteq_filter.
      * rewrite bool_decide_eq_true, Exists_exists. split.
        -- intros (a & Ha & Hdrop) Hsub. apply Hsub in Ha.
           by apply list_elem_of_filter in Ha as [? _].
        -- intros Hsub.
           destruct (decide (Exists (λ a, ¬ revise_keeps o dy a) dx))
             as [Hex|Hall]; [by apply Exists_exists in Hex|].
           destruct Hsub. rewrite filter_all; [done|]. intros a Ha.
           destruct (decide (revise_keeps o dy a)) as [|Hdrop]; [done|].
           destruct Hall. apply Exists_exists. by exists a.
      * intros v Hv. by rewrite lookup_insert_ne.
    + rewrite revise_no_overlap in Hrun by done. injection Hrun as <- <-.
      by apply Hsame.
  - apply revise_no_overlap.
  - intros dy Hy Hnd Hbounds. by eapply revise_total.
Qed.

Lemma revise_monotone_witness :
  let cw := crossword_of [across3; down4] ["CAT"; "DOG"; "ACES"] in
  let d : Domains := {[ across3 := ["CAT"; "DOG"]; down4 := ["ACES"] ]} in
  across3 ≠ down4 ∧ d !! across3 = Some ["CAT"; "DOG"]
  ∧ revise cw across3 down4 d = Ok (true, <[across3 := ["CAT"]]> d)
  ∧ ∃ dx', <[across3 := ["CAT"]]> d !! across3 = Some dx'
      ∧ dx' ⊆ ["CAT"; "DOG"]
      ∧ (true = true ↔ ¬ ["CAT"; "DOG"] ⊆ dx')
      ∧ ∀ v, v ≠ across3 → <[across3 := ["CAT"]]> d !! v = d !! v.
Proof.
  intros cw d.
  assert (across3 ≠ down4) as Hxy by discriminate.
  assert (d !! across3 = Some ["CAT"; "DOG"]) as Hx by (vm_compute; reflexivity).
  assert (revise cw across3 down4 d = Ok (true, <[across3 := ["CAT"]]> d)) as Hrun
    by (vm_compute; reflexivity).
  split_and!; [exact Hxy|exact Hx|exact Hrun|].
  exact (proj1 (revise_monotone cw across3 down4 d _ Hxy Hx) _ _ Hrun).
Defined.

(** ** C9 *)

(** C9 — node consistency.  On domains that are sets, the pass returns
    normally; afterwards the domain of every variable [v] holds exactly the
    words it held before whose length is [v.length]: every remaining word has
    the right length, every word of the wrong length is gone and no word of
    the right length is removed. *)
Theorem enforce_node_consistency_correct (d : Domains) :
  wf_domains d →
  ∃ d' : Domains,
    enforce_node_consistency d = Ok d'
    ∧ wf_domains d'
    ∧ (∀ v, is_Some (d' !! v) ↔ is_Some (d !! v))
    ∧ ∀ v ws ws', d !! v = Some ws → d' !! v = Some ws' →
        ∀ w, w ∈ ws' ↔ w ∈ ws ∧ len w = Var.length v.
Proof.
  intros Hwf. destruct (enforce_node_consistency_lookup d Hwf) as (d' & Hrun & Hd').
  exists d'. split_and!; [done| | |].
  - intros v ws. rewrite Hd'. intros (ws0 & Hws0 & ->)%fmap_Some.
    apply NoDup_filter. by eapply Hwf.
  - intros v. by rewrite Hd', fmap_is_Some.
  - intros v ws ws' Hv. rewrite Hd', Hv. intros [= <-] w.
    rewrite list_elem_of_filter. naive_solver.
Qed.

Lemma enforce_node_consistency_correct_witness :
  let d := init_domains (crossword_of [across3; down4] ["CAT"; "DOGS"]) in
  wf_domains d
  ∧ ∃ d' : Domains,
      enforce_node_consistency d = Ok d'
      ∧ wf_domains d'
      ∧ (∀ v, is_Some (d' !! v) ↔ is_Some (d !! v))
      ∧ ∀ v ws ws', d !! v = Some ws → d' !! v = Some ws' →
          ∀ w, w ∈ ws' ↔ w ∈ ws ∧ len w = Var.length v.
Proof.
  intros d.
  assert (wf_domains d) as Hwf by (apply (bool_decide_unpack _); vm_compute; exact I).
  split; [exact Hwf|].
  exact (enforce_node_consistency_correct d Hwf).
Defined.

(** ** C10 *)






(** * Further properties

    Edge cases, error behaviour and invariants of the methods, read off the
    code. *)

(** ** Node consistency *)

Lemma lookup_init_domains (cw : Crossword) (v : Var.t) :
  init_domains cw !! v
  = if decide (v ∈ variables cw) then Some (words cw) else None.
Proof.
  unfold init_domains. case_decide as Hv.
  - apply elem_of_list_to_map_1'.
    + by intros y (v' & [= _ ->] & _)%list_elem_of_fmap.
    + apply list_elem_of_fmap. by exists v.
  - apply not_elem_of_list_to_map_1. rewrite <-list_fmap_compose.
    intros (v' & -> & ?)%list_elem_of_fmap. done.
Qed.

(** X1 — initial domains after node consistency.  [__init__] gives every
    variable a copy of the word set; when that set has no repeated word,
    [enforce_node_consistency] on these domains returns normally and leaves
    to every variable of the crossword exactly the words of its length, and
    no other key. *)
Theorem initial_domains_node_consistent (cw : Crossword) :
  NoDup (words cw) →
  ∃ d : Domains,
    enforce_node_consistency (init_domains cw) = Ok d
    ∧ ∀ v, d !! v
           = if decide (v ∈ variables cw)
             then Some (filter (λ w, len w = Var.length v) (words cw))
             else None.
Proof.
  intros Hnd.
  destruct (enforce_node_consistency_lookup (init_domains cw)) as (d & Hrun & Hd).
  { by apply init_domains_wf. }
  exists d. split; [done|]. intros v. rewrite Hd, lookup_init_domains.
  by case_decide.
Qed.

Lemma initial_domains_node_consistent_witness :
  let cw := crossword_of [across3; down4] ["CAT"; "DOGS"; "ACES"] in
  NoDup (words cw)
  ∧ ∃ d : Domains,
      enforce_node_consistency (init_domains cw) = Ok d
      ∧ ∀ v, d !! v
             = if decide (v ∈ variables cw)
               then Some (filter (λ w, len w = Var.length v) (words cw))
               else None.
Proof.
  intros cw.
  assert (NoDup (words cw)) as Hnd by by_evaluation.
  split; [exact Hnd|]. exact (initial_domains_node_consistent cw Hnd).
Defined.

(** X2 — node consistency is idempotent.  On domains that are sets, the
    domains a pass returns hold only words of the length of their variable,
    and a second pass returns them unchanged. *)
Theorem enforce_node_consistency_idempotent (d d' : Domains) :
  wf_domains d →
  enforce_node_consistency d = Ok d' →
  enforce_node_consistency d' = Ok d' ∧ node_consistent d'.
Proof.
  intros Hwf Hrun.
  destruct (enforce_node_consistency_lookup d Hwf) as (d1 & Hrun1 & Hd1).
  assert (d1 = d') as -> by congruence.
  assert (wf_domains d') as Hwf'.
  { intros v ws. rewrite Hd1. intros (ws0 & Hws0 & ->)%fmap_Some.
    apply NoDup_filter. by eapply Hwf. }
  split.
  - destruct (enforce_node_consistency_lookup d' Hwf') as (d2 & Hrun2 & Hd2).
    rewrite Hrun2. f_equal. apply map_eq. intros v. rewrite Hd2, Hd1.
    destruct (d !! v) as [ws|]; [|done]. simpl. f_equal.
    rewrite list_filter_filter. apply list_filter_iff. naive_solver.
  - intros v ws. rewrite Hd1. intros (ws0 & Hws0 & ->)%fmap_Some.
    apply Forall_forall. by intros w [? _]%list_elem_of_filter.
Qed.

Lemma enforce_node_consistency_idempotent_witness :
  let d : Domains := {[ across3 := ["CAT"; "DOGS"]; down4 := ["CAT"; "DOGS"] ]} in
  let d' : Domains := {[ across3 := ["CAT"]; down4 := ["DOGS"] ]} in
  wf_domains d ∧ enforce_node_consistency d = Ok d'
  ∧ enforce_node_consistency d' = Ok d' ∧ node_consistent d'.
Proof.
  intros d d'.
  assert (wf_domains d) as Hwf by by_evaluation.
  assert (enforce_node_consistency d = Ok d') as Hrun by (vm_compute; reflexivity).
  split_and!; [exact Hwf|exact Hrun|..];
    apply (enforce_node_consistency_idempotent d d' Hwf Hrun).
Defined.

(** X3 — what [revise] removes.  For distinct variables with an overlap, a
    call that returns leaves in the domain of [x] exactly the values that
    agree at the overlap with some word of the domain of [y] — all of them
    when that domain is empty — and returns [True] exactly when the domain of
    [y] is not empty and some value of [x] disagrees with all of its words. *)
Theorem revise_removes_unsupported (cw : Crossword) (x y : Var.t)
    (d d' : Domains) (dx dy : list string) (o : nat * nat) (b : bool) :
  x ≠ y → overlaps cw x y = Some o →
  d !! x = Some dx → d !! y = Some dy →
  revise cw x y d = Ok (b, d') →
  d' = <[x := filter (λ a, dy = [] ∨ Exists (agree o a) dy) dx]> d
  ∧ (b = true ↔ ∃ a, a ∈ dx ∧ dy ≠ [] ∧ Forall (λ w, ¬ agree o a w) dy).
Proof.
  intros Hxy Ho Hx Hy Hrun.
  destruct (revise_inv cw x y d d' b o Hxy Ho Hrun) as (dx0 & Hx0 & Hcases).
  assert (dx0 = dx) as -> by congruence.
  assert (∀ a, ¬ revise_keeps o dy a ↔ dy ≠ [] ∧ Forall (λ w, ¬ agree o a w) dy)
    as Hdrop.
  { intros a. unfold revise_keeps, has_support. split.
    - intros Hnot. split; [naive_solver|].
      apply not_Exists_Forall; [apply _|]. naive_solver.
    - intros [Hne Hall] [?|Hex]; [done|]. by apply Forall_not_Exists in Hall. }
  destruct Hcases as [(-> & -> & ->)|(dy0 & Hy0 & -> & ->)].
  - split; [by rewrite insert_id|]. split; [done|].
    by intros (a & Ha%elem_of_nil & _).
  - assert (dy0 = dy) as -> by congruence. split; [done|].
    rewrite bool_decide_eq_true, Exists_exists. by setoid_rewrite Hdrop.
Qed.

Lemma revise_removes_unsupported_witness :
  let cw := crossword_of [across3; down4] ["CAT"; "DOG"; "ACES"] in
  let d : Domains := {[ across3 := ["CAT"; "DOG"]; down4 := ["ACES"] ]} in
  let d' : Domains := <[across3 := ["CAT"]]> d in
  across3 ≠ down4 ∧ overlaps cw across3 down4 = Some (1, 0)
  ∧ revise cw across3 down4 d = Ok (true, d')
  ∧ d' = <[across3 := filter (λ a, ["ACES"] = [] ∨ Exists (agree (1, 0) a) ["ACES"])
                        ["CAT"; "DOG"]]> d.
Proof.
  intros cw d d'.
  assert (across3 ≠ down4) as Hxy by discriminate.
  assert (overlaps cw across3 down4 = Some (1, 0)) as Ho by (vm_compute; reflexivity).
  assert (d !! across3 = Some ["CAT"; "DOG"]) as Hx by (vm_compute; reflexivity).
  assert (d !! down4 = Some ["ACES"]) as Hy by (vm_compute; reflexivity).
  assert (revise cw across3 down4 d = Ok (true, d')) as Hrun
    by (vm_compute; reflexivity).
  split_and!; [exact Hxy|exact Ho|exact Hrun|].
  exact (proj1 (revise_removes_unsupported cw across3 down4 d d' _ _ _ _
                  Hxy Ho Hx Hy Hrun)).
Defined.

(** ** Revise and the queue of AC-3 *)

Lemma get_None w k : len w ≤ k → String.get k w = None.
Proof.
  unfold len. revert k. induction w as [|c w IH]; intros k Hk; simpl in *.
  - done.
  - destruct k as [|k]; [lia|]. apply IH. lia.
Qed.

(** X4 — [revise] against an empty domain.  When the domain of [y] is
    empty, [revise(x, y)] removes nothing and returns [False], whatever the
    overlap and the domain of [x]. *)
Theorem revise_empty_neighbor_domain (cw : Crossword) (x y : Var.t) (d : Domains) :
  is_Some (d !! x) → d !! y = Some [] →
  revise cw x y d = Ok (false, d).
Proof.
  intros [dx Hx] Hy. unfold revise. destruct (overlaps cw x y) as [o|]; [|done].
  unfold dom_get at 1. rewrite Hx. simpl. clear Hx.
  induction dx as [|a dx IH]; [done|]. cbn [for_each].
  unfold dom_get at 1. rewrite Hy. simpl. exact IH.
Qed.

Lemma revise_empty_neighbor_domain_witness :
  let cw := crossword_of [across3; down4] ["CAT"] in
  let d : Domains := {[ across3 := ["CAT"]; down4 := [] ]} in
  is_Some (d !! across3) ∧ d !! down4 = Some []
  ∧ revise cw across3 down4 d = Ok (false, d).
Proof.
  intros cw d.
  assert (is_Some (d !! across3)) as Hx by (vm_compute; eexists; reflexivity).
  assert (d !! down4 = Some []) as Hy by (vm_compute; reflexivity).
  split_and!; [exact Hx|exact Hy|].
  exact (revise_empty_neighbor_domain cw across3 down4 d Hx Hy).
Defined.

(** X5 — [revise] on a word that does not reach the overlap.  When the
    first word of the domain of [x] or of [y] is too short for its overlap
    index, [revise(x, y)] raises [IndexError]; this is what happens on a word
    list of mixed lengths when node consistency has not run. *)
Theorem revise_short_word_IndexError (cw : Crossword) (x y : Var.t) (d : Domains)
    (o : nat * nat) (a b : string) (dx dy : list string) :
  overlaps cw x y = Some o →
  d !! x = Some (a :: dx) → d !! y = Some (b :: dy) →
  len a ≤ o.1 ∨ len b ≤ o.2 →
  revise cw x y d = Raise IndexError.
Proof.
  intros Ho Hx Hy Hshort. unfold revise. rewrite Ho.
  unfold dom_get at 1. rewrite Hx. simpl. unfold dom_get at 1. rewrite Hy. simpl.
  unfold char_at. destruct (String.get o.2 b) as [cy|] eqn:Hcy; simpl; [|done].
  destruct Hshort as [Ha|Hb].
  - by rewrite (get_None a o.1 Ha).
  - by rewrite (get_None b o.2 Hb) in Hcy.
Qed.

Lemma revise_short_word_IndexError_witness :
  let cw := crossword_of [across3; down4] ["A"; "CAT"] in
  let d : Domains := init_domains cw in
  overlaps cw down4 across3 = Some (0, 1)
  ∧ d !! down4 = Some ["A"; "CAT"] ∧ d !! across3 = Some ["A"; "CAT"]
  ∧ (len "A" ≤ 0 ∨ len "A" ≤ 1)
  ∧ revise cw down4 across3 d = Raise IndexError.
Proof.
  intros cw d.
  assert (overlaps cw down4 across3 = Some (0, 1)) as Ho by (vm_compute; reflexivity).
  assert (d !! down4 = Some ["A"; "CAT"]) as Hx by (vm_compute; reflexivity).
  assert (d !! across3 = Some ["A"; "CAT"]) as Hy by (vm_compute; reflexivity).
  assert (len "A" ≤ (0, 1).1 ∨ len "A" ≤ (0, 1).2) as Hshort by (right; vm_compute; lia).
  split_and!; [exact Ho|exact Hx|exact Hy|exact Hshort|].
  exact (revise_short_word_IndexError cw down4 across3 d (0, 1) "A" "A" _ _
           Ho Hx Hy Hshort).
Defined.

Lemma all_arcs_inner_NoDup (v : Var.t) (ns : list Var.t) : ∀ acc : list Arc,
  NoDup acc →
  NoDup (foldl (λ arcs neighbor,
             if decide ((v, neighbor) ∈ arcs) then arcs
             else arcs ++ [(v, neighbor)]) acc ns).
Proof.
  induction ns as [|n ns IH]; intros acc Hnd; simpl; [done|]. apply IH.
  case_decide as Hin; [done|]. apply NoDup_app. split_and!; [done| |apply NoDup_singleton].
  intros a Ha Ha'. apply list_elem_of_singleton in Ha' as ->. done.
Qed.

Lemma all_arcs_outer_NoDup (cw : Crossword) (vs : list Var.t) : ∀ acc : list Arc,
  NoDup acc →
  NoDup (foldl (λ arcs variable,
             foldl (λ arcs neighbor,
                 if decide ((variable, neighbor) ∈ arcs) then arcs
                 else arcs ++ [(variable, neighbor)])
               arcs (neighbors cw variable)) acc vs).
Proof.
  induction vs as [|v vs IH]; intros acc Hnd; simpl; [done|].
  by apply IH, all_arcs_inner_NoDup.
Qed.

(** X6 — the initial queue of [ac3].  The queue built when no arcs are
    passed holds every ordered pair of two distinct variables of the
    crossword with an overlap, each exactly once. *)
Theorem all_arcs_each_arc_once (cw : Crossword) :
  NoDup (all_arcs cw)
  ∧ ∀ x y, (x, y) ∈ all_arcs cw
           ↔ x ∈ variables cw ∧ y ∈ variables cw ∧ y ≠ x
             ∧ is_Some (overlaps cw y x).
Proof.
  split.
  - apply all_arcs_outer_NoDup, NoDup_nil_2.
  - intros x y. rewrite elem_of_all_arcs, elem_of_neighbors. naive_solver.
Qed.

Lemma sublist_filter {A} (P : A → Prop) `{!∀ x, Decision (P x)} (l : list A) :
  sublist (filter P l) l.
Proof.
  induction l as [|x l IH]; [done|]. rewrite filter_cons.
  case_decide; by constructor.
Qed.

Lemma shrunk_refl (d : Domains) : shrunk d d.
Proof. intros v. by destruct (d !! v). Qed.

Lemma shrunk_trans (d1 d2 d3 : Domains) : shrunk d1 d2 → shrunk d2 d3 → shrunk d1 d3.
Proof.
  intros H12 H23 v. specialize (H12 v). specialize (H23 v).
  destruct (d1 !! v), (d2 !! v), (d3 !! v); try done. by etrans.
Qed.

Lemma revise_shrunk (cw : Crossword) (x y : Var.t) (d d' : Domains) b :
  x ≠ y → revise cw x y d = Ok (b, d') → shrunk d d'.
Proof.
  intros Hxy Hrun. destruct (overlaps cw x y) as [o|] eqn:Ho.
  - destruct (revise_inv cw x y d d' b o Hxy Ho Hrun) as (dx & Hx & Hcases).
    destruct Hcases as [(_ & _ & ->)|(dy & _ & -> & _)]; [apply shrunk_refl|].
    intros v. destruct (decide (x = v)) as [<-|Hne].
    + rewrite Hx, lookup_insert_eq. apply sublist_filter.
    + rewrite lookup_insert_ne by done. by destruct (d !! v).
  - rewrite revise_no_overlap in Hrun by done. injection Hrun as _ <-.
    apply shrunk_refl.
Qed.

Lemma ac3_loop_shrunk (cw : Crossword) (fuel : nat) :
  ∀ (arcs : list Arc) (d d' : Domains) b,
  proper_arcs arcs → ac3_loop cw fuel arcs d = Ok (b, d') → shrunk d d'.
Proof.
  induction fuel as [|fuel IH]; intros arcs d d' b Harcs Hrun.
  - destruct arcs as [|[x y] arcs]; [|done]. injection Hrun as _ <-.
    apply shrunk_refl.
  - destruct arcs as [|[x y] arcs].
    { injection Hrun as _ <-. apply shrunk_refl. }
    simpl in Hrun. apply Forall_cons in Harcs as [Hxy Harcs]. simpl in Hxy.
    apply bind_Ok in Hrun as ([r d1] & Hrev & Hrun).
    apply revise_shrunk in Hrev; [|done]. eapply shrunk_trans; [exact Hrev|].
    destruct r; [|by eapply IH].
    apply bind_Ok in Hrun as (dx & _ & Hrun). case_decide.
    { injection Hrun as _ <-. apply shrunk_refl. }
    apply bind_Ok in Hrun as (ns & Hns & Hrun). eapply IH; [|exact Hrun].
    unfold var_set_remove in Hns. case_decide; [|done]. injection Hns as <-.
    apply Forall_app. split; [done|]. apply Forall_fmap, Forall_forall.
    intros z [_ Hz]%list_elem_of_filter. simpl.
    by apply elem_of_neighbors in Hz as (_ & ? & _).
Qed.

(** X7 — [ac3] only removes words.  Whatever [ac3()] returns, the domains
    keep their keys, every domain is a sub-list of what it was (same order,
    some words removed), domains that were sets are still sets, and words of
    the right length stay the only words. *)
Theorem ac3_only_shrinks_domains (cw : Crossword) (d d' : Domains) (b : bool) :
  ac3 cw None d = Ok (b, d') →
  (∀ v, is_Some (d' !! v) ↔ is_Some (d !! v))
  ∧ (∀ v ws ws', d !! v = Some ws → d' !! v = Some ws' → sublist ws' ws)
  ∧ (wf_domains d → wf_domains d')
  ∧ (node_consistent d → node_consistent d').
Proof.
  intros Hrun. apply ac3_loop_shrunk in Hrun; [|apply all_arcs_proper].
  split_and!.
  - intros v. specialize (Hrun v).
    destruct (d !! v), (d' !! v); try done; split; by eauto.
  - intros v ws ws' Hv Hv'. specialize (Hrun v). by rewrite Hv, Hv' in Hrun.
  - intros Hwf v ws' Hv'. specialize (Hrun v). rewrite Hv' in Hrun.
    destruct (d !! v) as [ws|] eqn:Hv; [|done].
    eapply sublist_NoDup; [|exact Hrun]. by eapply Hwf.
  - intros Hnc v ws' Hv'. specialize (Hrun v). rewrite Hv' in Hrun.
    destruct (d !! v) as [ws|] eqn:Hv; [|done].
    apply Forall_forall. intros w Hw. eapply elem_of_sublist in Hw; [|exact Hrun].
    specialize (Hnc v ws Hv). simpl in Hnc. rewrite Forall_forall in Hnc. by apply Hnc.
Qed.

Lemma ac3_only_shrinks_domains_witness :
  let cw := crossword_of [across3; down4] ["CAT"; "DOG"; "ACES"] in
  let d : Domains := {[ across3 := ["CAT"; "DOG"]; down4 := ["ACES"] ]} in
  let d' : Domains := {[ across3 := ["CAT"]; down4 := ["ACES"] ]} in
  ac3 cw None d = Ok (true, d')
  ∧ ∀ v ws ws', d !! v = Some ws → d' !! v = Some ws' → sublist ws' ws.
Proof.
  intros cw d d'.
  assert (ac3 cw None d = Ok (true, d')) as Hrun by (vm_compute; reflexivity).
  split; [exact Hrun|].
  exact (proj1 (proj2 (ac3_only_shrinks_domains cw d d' true Hrun))).
Defined.

(** ** AC-3 *)

Lemma ac3_loop_fuel_mono (cw : Crossword) (fuel : nat) :
  ∀ (fuel' : nat) (arcs : list Arc) (d : Domains),
  fuel ≤ fuel' → ac3_loop cw fuel arcs d ≠ Raise OutOfFuel →
  ac3_loop cw fuel' arcs d = ac3_loop cw fuel arcs d.
Proof.
  induction fuel as [|fuel IH]; intros fuel' arcs d Hle Hrun.
  - destruct arcs as [|[x y] arcs]; [by destruct fuel'|done].
  - destruct fuel' as [|fuel']; [lia|].
    destruct arcs as [|[x y] arcs]; [done|]. simpl in *.
    destruct (revise cw x y d) as [[b d1]|e]; simpl in *; [|done].
    destruct b; [|apply IH; [lia|done]].
    destruct (dom_get d1 x) as [dx|e]; simpl in *; [|done].
    case_decide; [done|].
    destruct (var_set_remove y (neighbors cw x)) as [ns|e]; simpl in *; [|done].
    apply IH; [lia|done].
Qed.

(** X8 — bound on the loop of [ac3].  The [while] loop performs at most
    [len(arcs)] plus (number of variables) × (number of words in all domains)
    iterations: with any budget of at least that many iterations the loop
    never exhausts it, and its outcome is the one [ac3] computes. *)
Theorem ac3_loop_bounded (cw : Crossword) (arcs : list Arc) (d : Domains)
    (fuel : nat) :
  proper_arcs arcs →
  length arcs + length (variables cw) * domains_size d ≤ fuel →
  ac3_loop cw fuel arcs d ≠ Raise OutOfFuel
  ∧ ac3_loop cw fuel arcs d = ac3_loop cw (ac3_fuel cw arcs d) arcs d.
Proof.
  intros Harcs Hfuel. split; [by apply ac3_loop_fuel|].
  apply ac3_loop_fuel_mono; [done|]. by apply ac3_loop_fuel.
Qed.

Lemma ac3_loop_bounded_witness :
  let cw := crossword_of [across3; down4] ["CAT"; "DOG"; "ACES"] in
  let d : Domains := {[ across3 := ["CAT"; "DOG"]; down4 := ["ACES"] ]} in
  proper_arcs (all_arcs cw)
  ∧ length (all_arcs cw) + length (variables cw) * domains_size d ≤ 100
  ∧ ac3_loop cw 100 (all_arcs cw) d ≠ Raise OutOfFuel
  ∧ ac3_loop cw 100 (all_arcs cw) d = ac3 cw None d.
Proof.
  intros cw d.
  assert (proper_arcs (all_arcs cw)) as Harcs by apply all_arcs_proper.
  assert (length (all_arcs cw) + length (variables cw) * domains_size d ≤ 100)
    as Hfuel by (vm_compute; lia).
  split_and!; [exact Harcs|exact Hfuel|..];
    apply (ac3_loop_bounded cw (all_arcs cw) d 100 Harcs Hfuel).
Defined.

Lemma sublist_nonempty {A} (l k : list A) : sublist l k → l ≠ [] → k ≠ [].
Proof. intros Hsub Hl ->. apply sublist_nil_r in Hsub. done. Qed.

Lemma ac3_loop_false_emptied (cw : Crossword) (fuel : nat) :
  ∀ (arcs : list Arc) (d d' : Domains),
  proper_arcs arcs →
  ac3_loop cw fuel arcs d = Ok (false, d') →
  ∃ x ws, (∃ y, (x, y) ∈ arcs ∨ x ∈ neighbors cw y)
    ∧ d !! x = Some ws ∧ ws ≠ [] ∧ d' !! x = Some [].
Proof.
  induction fuel as [|fuel IH]; intros arcs d d' Harcs Hrun.
  { by destruct arcs as [|[x y] arcs]. }
  destruct arcs as [|[x y] arcs]; [done|]. simpl in Hrun.
  apply Forall_cons in Harcs as [Hxy Harcs]. simpl in Hxy.
  apply bind_Ok in Hrun as ([b d1] & Hrev & Hrun).
  pose proof (revise_shrunk cw x y d d1 b Hxy Hrev) as Hshrunk.
  assert (∀ x' ws1, d1 !! x' = Some ws1 → ws1 ≠ [] →
            ∃ ws, d !! x' = Some ws ∧ ws ≠ []) as Hback.
  { intros x' ws1 Hx' Hne. specialize (Hshrunk x'). rewrite Hx' in Hshrunk.
    destruct (d !! x') as [ws|]; [|done]. exists ws. split; [done|].
    by eapply sublist_nonempty. }
  destruct b.
  - apply bind_Ok in Hrun as (dx1 & Hdx1%dom_get_Ok & Hrun). case_decide as Hlen.
    + injection Hrun as <-. destruct dx1; [|done].
      destruct (overlaps cw x y) as [o|] eqn:Ho;
        [|by rewrite revise_no_overlap in Hrev].
      destruct (revise_inv cw x y d d1 true o Hxy Ho Hrev) as (dx & Hx & Hcases).
      destruct Hcases as [(_ & ? & _)|(dy & _ & _ & Hb)]; [done|].
      symmetry in Hb. apply bool_decide_eq_true, Exists_exists in Hb as (a & Ha & _).
      exists x, dx. split_and!; [exists y; left; by left|done| |done].
      intros ->. by apply elem_of_nil in Ha.
    + apply bind_Ok in Hrun as (ns & Hns & Hrun).
      unfold var_set_remove in Hns. case_decide; [|done]. injection Hns as <-.
      apply IH in Hrun as (x' & ws1 & [y' Hy'] & Hx' & Hne & Hempty).
      * destruct (Hback x' ws1 Hx' Hne) as (ws & Hws & Hws_ne).
        exists x', ws. split_and!; [|done..].
        destruct Hy' as [[Hin|Hin]%elem_of_app|Hin].
        -- exists y'. left. by right.
        -- apply list_elem_of_fmap in Hin as (z & [= -> ->] & [_ Hz]%list_elem_of_filter).
           exists x. by right.
        -- exists y'. by right.
      * apply Forall_app. split; [done|]. apply Forall_fmap, Forall_forall.
        intros z [_ Hz]%list_elem_of_filter. simpl.
        by apply elem_of_neighbors in Hz as (_ & ? & _).
  - apply IH in Hrun as (x' & ws1 & [y' Hy'] & Hx' & Hne & Hempty); [|done].
    destruct (Hback x' ws1 Hx' Hne) as (ws & Hws & Hws_ne).
    exists x', ws. split_and!; [|done..]. exists y'.
    destruct Hy' as [?|?]; [left; by right|by right].
Qed.

(** X9 — [ac3] returns [False] only after emptying a domain.  When [ac3()]
    returns [False], some variable of the crossword whose domain was not
    empty on entry has an empty domain on exit. *)
Theorem ac3_false_emptied_a_domain (cw : Crossword) (d d' : Domains) :
  ac3 cw None d = Ok (false, d') →
  ∃ x ws, x ∈ variables cw ∧ d !! x = Some ws ∧ ws ≠ [] ∧ d' !! x = Some [].
Proof.
  intros Hrun. apply ac3_loop_false_emptied in Hrun; [|apply all_arcs_proper].
  destruct Hrun as (x & ws & [y Hy] & Hx & Hne & Hempty).
  exists x, ws. split_and!; [|done..].
  destruct Hy as [[? _]%elem_of_all_arcs|(? & _)%elem_of_neighbors]; done.
Qed.

Lemma ac3_false_emptied_a_domain_witness :
  let cw := crossword_of [across3; down4] ["CAT"; "DOGS"] in
  let d : Domains := {[ across3 := ["CAT"]; down4 := ["DOGS"] ]} in
  let d' : Domains := {[ across3 := []; down4 := ["DOGS"] ]} in
  ac3 cw None d = Ok (false, d')
  ∧ ∃ x ws, x ∈ variables cw ∧ d !! x = Some ws ∧ ws ≠ [] ∧ d' !! x = Some [].
Proof.
  intros cw d d'.
  assert (ac3 cw None d = Ok (false, d')) as Hrun by (vm_compute; reflexivity).
  split; [exact Hrun|]. exact (ac3_false_emptied_a_domain cw d d' Hrun).
Defined.

(** X10 — arc consistency on non-empty domains.  On a crossword with a
    symmetric overlap table, when no domain is empty on entry and [ac3()]
    returns [True], no domain is empty on exit and every remaining word of a
    variable agrees, at the overlap, with some remaining word of each of its
    neighbors. *)
Theorem ac3_true_is_arc_consistent (cw : Crossword) (d d' : Domains) :
  symmetric_overlaps cw → nonempty_domains cw d →
  ac3 cw None d = Ok (true, d') →
  nonempty_domains cw d'
  ∧ ∀ x y o dx dy a,
      x ∈ variables cw → y ∈ neighbors cw x → overlaps cw x y = Some o →
      d' !! x = Some dx → d' !! y = Some dy → a ∈ dx →
      ∃ b, b ∈ dy ∧ agree o a b.
Proof.
  intros Hsym Hne Hrun.
  destruct (ac3_sound_on_nonempty_domains cw Hsym d d' Hne Hrun) as [Hac Hne'].
  split; [done|]. intros x y o dx dy a Hx Hy Ho Hdx Hdy Ha.
  specialize (Hac x y Hx Hy o dx dy Ho Hdx Hdy). rewrite Forall_forall in Hac.
  apply Hac, Exists_exists in Ha. naive_solver.
Qed.

Lemma ac3_true_is_arc_consistent_witness :
  let cw := crossword_of [across3; down4] ["CAT"; "DOG"; "ACES"] in
  let d : Domains := {[ across3 := ["CAT"; "DOG"]; down4 := ["ACES"] ]} in
  let d' : Domains := {[ across3 := ["CAT"]; down4 := ["ACES"] ]} in
  symmetric_overlaps cw ∧ nonempty_domains cw d
  ∧ ac3 cw None d = Ok (true, d')
  ∧ nonempty_domains cw d'.
Proof.
  intros cw d d'.
  assert (symmetric_overlaps cw) as Hsym by by_evaluation.
  assert (nonempty_domains cw d) as Hne.
  { repeat constructor; eexists _, _; vm_compute; reflexivity. }
  assert (ac3 cw None d = Ok (true, d')) as Hrun by (vm_compute; reflexivity).
  split_and!; [exact Hsym|exact Hne|exact Hrun|].
  exact (proj1 (ac3_true_is_arc_consistent cw d d' Hsym Hne Hrun)).
Defined.

Lemma revise_on_supported (cw : Crossword) (d : Domains) (x y : Var.t) :
  overlaps_in_range cw → wf_domains d → node_consistent d →
  nonempty_domains cw d → arc_consistent cw d →
  x ∈ variables cw → y ∈ neighbors cw x →
  revise cw x y d = Ok (false, d).
Proof.
  intros Hrange Hwf Hnc Hne Hac Hx Hy.
  pose proof Hy as (Hyv & Hyx & _)%elem_of_neighbors.
  assert (x ≠ y) as Hxy by done.
  unfold nonempty_domains in Hne. rewrite Forall_forall in Hne.
  destruct (Hne x Hx) as (wx & wsx & Hdx). destruct (Hne y Hyv) as (wy & wsy & Hdy).
  destruct (revise_total cw x y d _ _ Hxy Hdx Hdy) as [[b d'] Hrun].
  { by eapply Hwf. }
  { intros o Ho. unfold overlaps_in_range in Hrange.
    rewrite Forall_forall in Hrange. specialize (Hrange x Hx).
    rewrite Forall_forall in Hrange. specialize (Hrange y Hyv).
    rewrite Ho in Hrange. destruct Hrange as [Hi Hj].
    pose proof (Hnc x _ Hdx) as Hlx. pose proof (Hnc y _ Hdy) as Hly.
    simpl in Hlx, Hly. rewrite Forall_forall in Hlx, Hly.
    split; intros w Hw; [rewrite (Hlx w Hw)|rewrite (Hly w Hw)]; done. }
  rewrite Hrun. destruct (overlaps cw x y) as [o|] eqn:Ho;
    [|by rewrite revise_no_overlap in Hrun].
  destruct (revise_inv cw x y d d' b o Hxy Ho Hrun) as (dx & Hdx0 & Hcases).
  destruct Hcases as [(_ & -> & ->)|(dy & Hdy0 & -> & ->)]; [done|].
  specialize (Hac x y Hx Hy o dx dy Ho Hdx0 Hdy0). rewrite Forall_forall in Hac.
  rewrite bool_decide_eq_false_2.
  - rewrite filter_all, insert_id; [done|done|]. intros a Ha. right. by apply Hac.
  - intros (a & Ha & Hdrop)%Exists_exists. apply Hdrop. right. by apply Hac.
Qed.

Lemma ac3_loop_fixpoint (cw : Crossword) (d : Domains) (arcs : list Arc) :
  overlaps_in_range cw → wf_domains d → node_consistent d →
  nonempty_domains cw d → arc_consistent cw d →
  (∀ x y, (x, y) ∈ arcs → x ∈ variables cw ∧ y ∈ neighbors cw x) →
  ∀ fuel, length arcs ≤ fuel → ac3_loop cw fuel arcs d = Ok (true, d).
Proof.
  intros Hrange Hwf Hnc Hne Hac.
  induction arcs as [|[x y] arcs IH]; intros Harcs fuel Hfuel.
  - by destruct fuel.
  - destruct fuel as [|fuel]; [simpl in Hfuel; lia|]. simpl.
    destruct (Harcs x y) as [Hx Hy]; [by left|].
    rewrite revise_on_supported by done. simpl. apply IH.
    + intros x' y' Hin. apply Harcs. by right.
    + simpl in Hfuel. lia.
Qed.

(** X11 — [ac3] on arc-consistent domains.  On node-consistent, non-empty
    set domains that are already arc consistent, [ac3()] returns [True] and
    changes nothing. *)
Theorem ac3_fixpoint_on_arc_consistent_domains (cw : Crossword) (d : Domains) :
  overlaps_in_range cw → wf_domains d → node_consistent d →
  nonempty_domains cw d → arc_consistent cw d →
  ac3 cw None d = Ok (true, d).
Proof.
  intros Hrange Hwf Hnc Hne Hac. unfold ac3, ac3_fuel. simpl.
  apply ac3_loop_fixpoint; try done; [|lia].
  intros x y Hin. by apply elem_of_all_arcs.
Qed.

Lemma ac3_fixpoint_on_arc_consistent_domains_witness :
  let cw := crossword_of [across3; down4] ["CAT"; "DOG"; "ACES"] in
  let d : Domains := {[ across3 := ["CAT"]; down4 := ["ACES"] ]} in
  overlaps_in_range cw ∧ wf_domains d ∧ node_consistent d
  ∧ nonempty_domains cw d ∧ arc_consistent cw d
  ∧ ac3 cw None d = Ok (true, d).
Proof.
  intros cw d.
  assert (overlaps_in_range cw) as Hrange by by_evaluation.
  assert (wf_domains d) as Hwf by by_evaluation.
  assert (node_consistent d) as Hnc by by_evaluation.
  assert (symmetric_overlaps cw) as Hsym by by_evaluation.
  assert (nonempty_domains cw {[ across3 := ["CAT"; "DOG"]; down4 := ["ACES"] ]})
    as Hne0 by (repeat constructor; eexists _, _; vm_compute; reflexivity).
  assert (ac3 cw None {[ across3 := ["CAT"; "DOG"]; down4 := ["ACES"] ]}
          = Ok (true, d)) as Hrun by (vm_compute; reflexivity).
  destruct (ac3_sound_on_nonempty_domains cw Hsym _ d Hne0 Hrun) as [Hac Hne].
  split_and!; [exact Hrange|exact Hwf|exact Hnc|exact Hne|exact Hac|].
  exact (ac3_fixpoint_on_arc_consistent_domains cw d Hrange Hwf Hnc Hne Hac).
Defined.

(** ** Completeness and consistency tests *)

Lemma assignment_complete_loop_true (assignment : Assignment) (keys : list Var.t) :
  assignment_complete_loop assignment keys = true
  ↔ Forall (λ key, ∃ w, assign_lookup assignment key = Some w ∧ w ≠ "") keys.
Proof.
  induction keys as [|key keys IH]; simpl; [by split; [constructor|]|].
  rewrite Forall_cons, <-IH.
  destruct (assign_lookup assignment key) as [w|]; [|naive_solver].
  case_decide; naive_solver.
Qed.

Lemma assignment_complete_loop_keys (assignment : Assignment) :
  NoDup assignment.*1 →
  assignment_complete_loop assignment assignment.*1 = true
  ↔ Forall (λ kw : Var.t * string, kw.2 ≠ "") assignment.
Proof.
  intros Hnd. rewrite assignment_complete_loop_true, !Forall_forall. split.
  - intros Hall [k w] Hkw. destruct (Hall k) as (w' & Hlook & Hne).
    { apply list_elem_of_fmap. by exists (k, w). }
    rewrite (assign_lookup_entry _ _ w) in Hlook by done. by injection Hlook as <-.
  - intros Hall k (kw & -> & Hkw)%list_elem_of_fmap. destruct kw as [k w].
    exists w. split; [by apply assign_lookup_entry|]. by apply (Hall (k, w)).
Qed.

(** X12 — [assignment_complete].  On a dict (one entry per key) the
    method returns [True] exactly when no assigned word is empty and the dict
    has as many entries as the crossword has variables; it never looks at
    which variables the keys are. *)
Theorem assignment_complete_iff (cw : Crossword) (assignment : Assignment) :
  NoDup assignment.*1 →
  assignment_complete cw assignment = true
  ↔ Forall (λ kw, kw.2 ≠ "") assignment
    ∧ length assignment = length (variables cw).
Proof.
  intros Hnd. unfold assignment_complete.
  rewrite <-(assignment_complete_loop_keys assignment Hnd).
  destruct (assignment_complete_loop assignment assignment.*1);
    [|naive_solver]. case_decide; naive_solver.
Qed.

Lemma assignment_complete_iff_witness :
  let cw := crossword_of [across3; down4] ["CAT"; "ACES"] in
  let assignment : Assignment := [(across3, "CAT"); (down4, "ACES")] in
  NoDup assignment.*1
  ∧ (assignment_complete cw assignment = true
     ↔ Forall (λ kw, kw.2 ≠ "") assignment
       ∧ length assignment = length (variables cw)).
Proof.
  intros cw assignment.
  assert (NoDup assignment.*1) as Hnd by by_evaluation.
  split; [exact Hnd|]. exact (assignment_complete_iff cw assignment Hnd).
Defined.

(** All that the results below use of [copy().pop()]: the word popped belongs
    to the set, and a non-empty set yields one. *)
Lemma set_copy_pop_Ok ws w : set_copy_pop ws = Ok w → w ∈ ws.
Proof. destruct ws as [|w0 ws]; [done|]. intros [= <-]. by left. Qed.

Lemma set_copy_pop_nonempty ws : ws ≠ [] → ∃ w, set_copy_pop ws = Ok w.
Proof. destruct ws as [|w0 ws]; [done|]. by eexists. Qed.

Lemma agree_get (o : nat * nat) a b :
  agree o a b ↔ ∃ c, String.get o.1 a = Some c ∧ String.get o.2 b = Some c.
Proof.
  unfold agree. destruct (String.get o.1 a), (String.get o.2 b); naive_solver.
Qed.

(** A neighbor loop that ends with [True] popped, from every overlapping
    neighbor, a word that agrees. *)
Lemma consistent_neighbors_some_agree cw (d : Domains) assignment key w ns :
  assign_lookup assignment key = Some w →
  consistent_neighbors cw d assignment key ns = Ok true →
  Forall (λ n,
      match overlaps cw key n with
      | Some o => ∃ w', w' ∈ default [] (d !! n) ∧ agree o w w'
      | None => True
      end) ns.
Proof.
  intros Hw. induction ns as [|n ns IH]; intros Hrun; [constructor|].
  simpl in Hrun. destruct (overlaps cw key n) as [o|] eqn:Ho.
  - apply bind_Ok in Hrun as (w0 & Hw0 & Hrun).
    unfold assign_get in Hw0. rewrite Hw in Hw0. injection Hw0 as <-.
    apply bind_Ok in Hrun as (c & Hc%char_at_Ok & Hrun).
    apply bind_Ok in Hrun as (dn & Hdn%dom_get_Ok & Hrun).
    apply bind_Ok in Hrun as (w' & Hw'%set_copy_pop_Ok & Hrun).
    apply bind_Ok in Hrun as (c' & Hc'%char_at_Ok & Hrun).
    case_decide as Hcc; [done|]. constructor; [|by apply IH].
    rewrite Ho. exists w'. rewrite Hdn. split; [done|]. apply agree_get.
    exists c. split; [done|]. rewrite Hc'. f_equal.
    destruct (decide (c = c')); [done|]. by destruct Hcc.
  - constructor; [by rewrite Ho|by apply IH].
Qed.

(** When every word of the domain of every overlapping neighbor agrees, the
    neighbor loop ends with [True] whichever word is popped. *)
Lemma consistent_neighbors_all_agree cw (d : Domains) assignment key w ns :
  assign_lookup assignment key = Some w →
  Forall (λ n,
      match overlaps cw key n with
      | Some o => ∃ dn, d !! n = Some dn ∧ dn ≠ [] ∧ Forall (agree o w) dn
      | None => True
      end) ns →
  consistent_neighbors cw d assignment key ns = Ok true.
Proof.
  intros Hw. induction 1 as [|n ns Hn Hns IH]; [done|]. simpl.
  destruct (overlaps cw key n) as [o|]; [|done].
  destruct Hn as (dn & Hdn & Hne & Hall). rewrite Forall_forall in Hall.
  destruct (set_copy_pop_nonempty dn Hne) as [w' Hpop].
  pose proof (set_copy_pop_Ok _ _ Hpop) as Hw'.
  apply Hall, agree_get in Hw' as (c & Hc & Hc').
  unfold assign_get. rewrite Hw. cbn [bind].
  unfold char_at at 1. rewrite Hc. cbn [bind].
  unfold dom_get. rewrite Hdn. cbn [bind]. rewrite Hpop. cbn [bind].
  unfold char_at. rewrite Hc'. cbn [bind]. by rewrite decide_False by naive_solver.
Qed.

(** The key loop of [consistent], in terms of the neighbor loop. *)
Lemma consistent_loop_neighbors cw (d : Domains) assignment keys : ∀ word,
  consistent_loop cw d assignment keys word = Ok true
  ↔ Forall (λ key, ∃ w,
        assign_lookup assignment key = Some w
        ∧ len w = Var.length key
        ∧ consistent_neighbors cw d assignment key (neighbors cw key) = Ok true)
      keys
    ∧ no_repeat_after word (omap (assign_lookup assignment) keys).
Proof.
  induction keys as [|key keys IH]; intros word; simpl.
  { split; [by split; [constructor|]|done]. }
  rewrite Forall_cons. unfold assign_get.
  destruct (assign_lookup assignment key) as [w|] eqn:Hw; simpl; [|naive_solver].
  case_decide as Hlen; [naive_solver|].
  case_decide as Hword; [|naive_solver].
  destruct (consistent_neighbors cw d assignment key (neighbors cw key))
    as [[]|e] eqn:Hns; simpl; [|naive_solver..].
  rewrite IH. split.
  - intros [Hall Hrep]. split_and!; [|done..]. exists w. split_and!; [done| |done].
    destruct (decide (len w = Var.length key)); [done|]. destruct Hlen. congruence.
  - naive_solver.
Qed.

Lemma omap_assign_lookup (assignment : Assignment) :
  NoDup assignment.*1 →
  omap (assign_lookup assignment) assignment.*1 = assignment.*2.
Proof.
  intros Hnd.
  assert (∀ l : Assignment, l ⊆ assignment →
            omap (assign_lookup assignment) l.*1 = l.*2) as Hall.
  { induction l as [|[k w] l IH]; intros Hsub; [done|]. simpl.
    rewrite (assign_lookup_entry assignment k w Hnd) by (apply Hsub; by left).
    f_equal. apply IH. intros kw Hkw. apply Hsub. by right. }
  by apply Hall.
Qed.

Lemma Forall_keys_entries (assignment : Assignment) (P : Var.t → string → Prop) :
  NoDup assignment.*1 →
  Forall (λ key, ∃ w, assign_lookup assignment key = Some w ∧ P key w)
    assignment.*1
  ↔ Forall (λ kw, P kw.1 kw.2) assignment.
Proof.
  intros Hnd. rewrite !Forall_forall. split.
  - intros Hall [k w] Hkw. destruct (Hall k) as (w' & Hlook & HP).
    { apply list_elem_of_fmap. by exists (k, w). }
    rewrite (assign_lookup_entry _ _ w) in Hlook by done. by injection Hlook as <-.
  - intros Hall k (kw & -> & Hkw)%list_elem_of_fmap. destruct kw as [k w].
    exists w. split; [by apply assign_lookup_entry|]. by apply (Hall (k, w)).
Qed.

(** X13 — what [consistent] accepts.  For a dict whose keys are variables
    of the crossword: when the method returns [True], every word has the
    length of its key, no entry holds the word of the entry just before it,
    and for every neighbor with an overlap some word of the neighbor's domain
    agrees with the word of the key; conversely the method returns [True]
    when lengths and order are so and, for every such neighbor, the domain is
    not empty and all its words agree.  Neither direction depends on which
    word [copy().pop()] yields.  When every variable has exactly one word in
    its domain the two conditions coincide and characterise the result. *)
Theorem consistent_accepts_between (cw : Crossword) (d : Domains)
    (assignment : Assignment) :
  NoDup assignment.*1 → assignment.*1 ⊆ variables cw →
  (consistent cw d assignment = Ok true →
     Forall (λ kw,
         len kw.2 = Var.length kw.1
         ∧ Forall (λ n,
               match overlaps cw kw.1 n with
               | Some o => ∃ w', w' ∈ default [] (d !! n) ∧ agree o kw.2 w'
               | None => True
               end) (neighbors cw kw.1))
       assignment
     ∧ no_repeat_after None assignment.*2)
  ∧ (Forall (λ kw,
         len kw.2 = Var.length kw.1
         ∧ Forall (λ n,
               match overlaps cw kw.1 n with
               | Some o =>
                 ∃ dn, d !! n = Some dn ∧ dn ≠ [] ∧ Forall (agree o kw.2) dn
               | None => True
               end) (neighbors cw kw.1))
       assignment →
     no_repeat_after None assignment.*2 →
     consistent cw d assignment = Ok true)
  ∧ (Forall (λ n, ∃ w', d !! n = Some [w']) (variables cw) →
     consistent cw d assignment = Ok true
     ↔ Forall (λ kw,
           len kw.2 = Var.length kw.1
           ∧ Forall (λ n,
                 match overlaps cw kw.1 n with
                 | Some o => ∃ w', d !! n = Some [w'] ∧ agree o kw.2 w'
                 | None => True
                 end) (neighbors cw kw.1))
         assignment
       ∧ no_repeat_after None assignment.*2).
Proof.
  intros Hnd Hsub.
  assert (consistent cw d assignment = Ok true →
     Forall (λ kw,
         len kw.2 = Var.length kw.1
         ∧ Forall (λ n,
               match overlaps cw kw.1 n with
               | Some o => ∃ w', w' ∈ default [] (d !! n) ∧ agree o kw.2 w'
               | None => True
               end) (neighbors cw kw.1))
       assignment
     ∧ no_repeat_after None assignment.*2) as Hnecessary.
  { unfold consistent. rewrite consistent_loop_neighbors.
    rewrite (omap_assign_lookup assignment Hnd).
    intros [Hall Hrep]. split; [|done].
    apply (Forall_keys_entries assignment
             (λ key w, len w = Var.length key
                       ∧ Forall (λ n,
                             match overlaps cw key n with
                             | Some o =>
                               ∃ w', w' ∈ default [] (d !! n) ∧ agree o w w'
                             | None => True
                             end) (neighbors cw key)) Hnd).
    eapply Forall_impl; [exact Hall|]. intros key (w & Hw & Hlen & Hns).
    exists w. split_and!; [done..|]. by eapply consistent_neighbors_some_agree. }
  assert (Forall (λ kw,
         len kw.2 = Var.length kw.1
         ∧ Forall (λ n,
               match overlaps cw kw.1 n with
               | Some o =>
                 ∃ dn, d !! n = Some dn ∧ dn ≠ [] ∧ Forall (agree o kw.2) dn
               | None => True
               end) (neighbors cw kw.1))
       assignment →
     no_repeat_after None assignment.*2 →
     consistent cw d assignment = Ok true) as Hsufficient.
  { unfold consistent. rewrite consistent_loop_neighbors.
    rewrite (omap_assign_lookup assignment Hnd).
    intros Hall Hrep. split; [|done].
    apply (Forall_keys_entries assignment
             (λ key w, len w = Var.length key
                       ∧ Forall (λ n,
                             match overlaps cw key n with
                             | Some o =>
                               ∃ dn, d !! n = Some dn ∧ dn ≠ []
                                     ∧ Forall (agree o w) dn
                             | None => True
                             end) (neighbors cw key)) Hnd) in Hall.
    eapply Forall_impl; [exact Hall|]. intros key (w & Hw & Hlen & Hns).
    exists w. split_and!; [done..|].
    by apply (consistent_neighbors_all_agree _ _ _ _ w). }
  split_and!; [exact Hnecessary|exact Hsufficient|].
  intros Hsingle. rewrite Forall_forall in Hsingle. split.
  - intros [Hall Hrep]%Hnecessary. split; [|done].
    eapply Forall_impl; [exact Hall|]. intros [key w] [Hlen Hns]. split; [done|].
    apply Forall_forall. intros n Hn. rewrite Forall_forall in Hns.
    specialize (Hns n Hn). simpl in *. destruct (overlaps cw key n) as [o|]; [|done].
    destruct Hns as (w' & Hw' & Hagree).
    apply elem_of_neighbors in Hn as (Hnv & _).
    destruct (Hsingle n Hnv) as [w0 Hw0]. rewrite Hw0 in Hw'. simpl in Hw'.
    apply list_elem_of_singleton in Hw' as ->. by exists w0.
  - intros [Hall Hrep]. apply Hsufficient; [|done].
    eapply Forall_impl; [exact Hall|]. intros [key w] [Hlen Hns]. split; [done|].
    eapply Forall_impl; [exact Hns|]. intros n Hn. simpl in *.
    destruct (overlaps cw key n) as [o|]; [|done].
    destruct Hn as (w' & Hw' & Hagree). exists [w']. split_and!; [done|done|].
    by constructor.
Qed.

Lemma consistent_accepts_between_witness :
  let cw := crossword_of [across3; down4] ["CAT"; "DOG"; "ACES"] in
  let d : Domains := {[ across3 := ["CAT"; "DOG"]; down4 := ["ACES"] ]} in
  let assignment : Assignment := [(across3, "CAT")] in
  NoDup assignment.*1 ∧ assignment.*1 ⊆ variables cw
  ∧ consistent cw d assignment = Ok true
  ∧ Forall (λ kw,
        len kw.2 = Var.length kw.1
        ∧ Forall (λ n,
              match overlaps cw kw.1 n with
              | Some o => ∃ w', w' ∈ default [] (d !! n) ∧ agree o kw.2 w'
              | None => True
              end) (neighbors cw kw.1))
      assignment.
Proof.
  intros cw d assignment.
  assert (NoDup assignment.*1) as Hnd by by_evaluation.
  assert (assignment.*1 ⊆ variables cw) as Hsub by by_evaluation.
  assert (consistent cw d assignment = Ok true) as Hrun by (vm_compute; reflexivity).
  split_and!; [exact Hnd|exact Hsub|exact Hrun|].
  exact (proj1 (proj1 (consistent_accepts_between cw d assignment Hnd Hsub) Hrun)).
Defined.

Section totality.

Context (cw : Crossword) (d : Domains).
Context (Hrange : overlaps_in_range cw) (Hsym : symmetric_overlaps cw).
Context (Hne : nonempty_domains cw d) (Hnc : node_consistent d).

Lemma overlap_in_range x y o :
  x ∈ variables cw → y ∈ variables cw → overlaps cw x y = Some o →
  o.1 < Var.length x ∧ o.2 < Var.length y.
Proof.
  intros Hx Hy Ho. unfold overlaps_in_range in Hrange.
  rewrite Forall_forall in Hrange. specialize (Hrange x Hx).
  rewrite Forall_forall in Hrange. specialize (Hrange y Hy).
  by rewrite Ho in Hrange.
Qed.

Lemma domain_of_variable v :
  v ∈ variables cw →
  ∃ w ws, d !! v = Some (w :: ws) ∧ Forall (λ w', len w' = Var.length v) (w :: ws).
Proof.
  intros Hv. unfold nonempty_domains in Hne. rewrite Forall_forall in Hne.
  destruct (Hne v Hv) as (w & ws & Hd). exists w, ws. split; [done|].
  by apply (Hnc v).
Qed.

Lemma consistent_neighbors_total assignment key w ns :
  key ∈ variables cw → assign_lookup assignment key = Some w →
  len w = Var.length key → Forall (λ n, n ∈ variables cw) ns →
  ∃ b, consistent_neighbors cw d assignment key ns = Ok b.
Proof.
  intros Hkey Hw Hlen. induction 1 as [|n ns Hn Hns IH]; simpl; [by eexists|].
  destruct (overlaps cw key n) as [o|] eqn:Ho; [|done].
  destruct (overlap_in_range key n o) as [Hi Hj]; [done..|].
  unfold assign_get. rewrite Hw. simpl.
  destruct (get_is_Some w o.1) as [c Hc]; [lia|].
  unfold char_at at 1. rewrite Hc. simpl.
  destruct (domain_of_variable n Hn) as (w' & ws & Hd & Hall).
  unfold dom_get. rewrite Hd. cbn [bind].
  destruct (set_copy_pop_nonempty (w' :: ws)) as [w0 Hpop]; [done|].
  rewrite Hpop. cbn [bind]. rewrite Forall_forall in Hall.
  pose proof (Hall w0 (set_copy_pop_Ok _ _ Hpop)) as Hw0.
  destruct (get_is_Some w0 o.2) as [c' Hc']; [lia|].
  unfold char_at. rewrite Hc'. cbn [bind]. case_decide; [by eexists|done].
Qed.

Lemma consistent_loop_total assignment keys word :
  Forall (λ key, key ∈ variables cw ∧ is_Some (assign_lookup assignment key)) keys →
  ∃ b, consistent_loop cw d assignment keys word = Ok b.
Proof.
  intros Hkeys. revert word.
  induction Hkeys as [|key keys [Hkey [w Hw]] Hkeys IH]; intros word; simpl;
    [by eexists|].
  unfold assign_get. rewrite Hw. simpl.
  case_decide as Hlen; [by eexists|]. case_decide; [|by eexists].
  assert (len w = Var.length key) as Hlen'.
  { destruct (decide (len w = Var.length key)); [done|]. destruct Hlen. congruence. }
  assert (Forall (λ n, n ∈ variables cw) (neighbors cw key)) as Hnbs.
  { apply Forall_forall. by intros n (? & _)%elem_of_neighbors. }
  destruct (consistent_neighbors_total assignment key w (neighbors cw key)
              Hkey Hw Hlen' Hnbs) as [b Hb].
  rewrite Hb. simpl. destruct b; [apply IH|by eexists].
Qed.

Lemma assign_lookup_is_Some (assignment : Assignment) key :
  key ∈ assignment.*1 → is_Some (assign_lookup assignment key).
Proof.
  induction assignment as [|[k w] rest IH]; simpl; [by intros ?%elem_of_nil|].
  case_decide; [by eexists|]. intros [?|?]%elem_of_cons; [done|by apply IH].
Qed.

Lemma consistent_total (assignment : Assignment) :
  assignment.*1 ⊆ variables cw →
  ∃ b, consistent cw d assignment = Ok b.
Proof.
  intros Hsub. apply consistent_loop_total, Forall_forall. intros key Hkey.
  split; [by apply Hsub|by apply assign_lookup_is_Some].
Qed.

Lemma order_domain_values_total (var : Var.t) (assignment : Assignment) :
  var ∈ variables cw →
  ∃ values, order_domain_values cw d var assignment = Ok values.
Proof.
  intros Hvar.
  destruct (order_domain_values cw d var assignment) as [values|e] eqn:Hrun;
    [by eexists|exfalso].
  destruct (domain_of_variable var Hvar) as (w & ws & Hd & Hall).
  rewrite Forall_forall in Hall.
  unfold order_domain_values in Hrun.
  apply bind_Raise in Hrun as [Hrun|(dv & Hdv%dom_get_Ok & Hrun)].
  { unfold dom_get in Hrun. by rewrite Hd in Hrun. }
  assert (dv = w :: ws) as -> by congruence.
  apply bind_Raise in Hrun as [Hrun|(? & _ & Hrun)]; [|done].
  apply for_each_Raise in Hrun as (acc & value & Hvalue & Hrun).
  apply bind_Raise in Hrun as [Hrun|(? & _ & Hrun)]; [|done].
  apply for_each_Raise in Hrun as (n & neighbor & Hnb & Hrun).
  case_decide; [done|]. cbv zeta in Hrun.
  pose proof Hnb as (Hnbv & Hne' & Ho)%elem_of_neighbors.
  rewrite (overlaps_swap cw Hsym var neighbor) in Ho by done.
  apply fmap_is_Some in Ho as [o Ho]. rewrite Ho in Hrun.
  destruct (overlap_in_range var neighbor o) as [Hi Hj]; [done..|].
  destruct (domain_of_variable neighbor Hnbv) as (w' & ws' & Hd' & Hall').
  rewrite Forall_forall in Hall'.
  apply bind_Raise in Hrun as [Hrun|(dn & Hdn%dom_get_Ok & Hrun)].
  { unfold dom_get in Hrun. by rewrite Hd' in Hrun. }
  assert (dn = w' :: ws') as -> by congruence.
  apply for_each_Raise in Hrun as (n' & nv & Hnv & Hrun).
  destruct (get_is_Some value o.1) as [c Hc]; [by rewrite (Hall value Hvalue)|].
  destruct (get_is_Some nv o.2) as [c' Hc']; [by rewrite (Hall' nv Hnv)|].
  unfold char_at in Hrun. by rewrite Hc, Hc' in Hrun.
Qed.

End totality.

(** ** AC-3 raises nothing *)

Lemma shrunk_wf (d d' : Domains) : shrunk d d' → wf_domains d → wf_domains d'.
Proof.
  intros Hrun Hwf v ws' Hv'. specialize (Hrun v). rewrite Hv' in Hrun.
  destruct (d !! v) as [ws|] eqn:Hv; [|done].
  eapply sublist_NoDup; [|exact Hrun]. by eapply Hwf.
Qed.

Lemma shrunk_node_consistent (d d' : Domains) :
  shrunk d d' → node_consistent d → node_consistent d'.
Proof.
  intros Hrun Hnc v ws' Hv'. specialize (Hrun v). rewrite Hv' in Hrun.
  destruct (d !! v) as [ws|] eqn:Hv; [|done].
  apply Forall_forall. intros w Hw. eapply elem_of_sublist in Hw; [|exact Hrun].
  specialize (Hnc v ws Hv). simpl in Hnc. rewrite Forall_forall in Hnc. by apply Hnc.
Qed.

Lemma shrunk_covers (cw : Crossword) (d d' : Domains) :
  shrunk d d' → covers_variables cw d → covers_variables cw d'.
Proof.
  intros Hrun Hcov. unfold covers_variables in *. rewrite Forall_forall in *.
  intros v Hv. specialize (Hcov v Hv). specialize (Hrun v).
  destruct (d !! v), (d' !! v); try done; by apply is_Some_None in Hcov.
Qed.

Section ac3_totality.

Context (cw : Crossword).
Context (Hsym : symmetric_overlaps cw) (Hrange : overlaps_in_range cw).

Lemma revise_returns (d : Domains) (x y : Var.t) :
  wf_domains d → node_consistent d → covers_variables cw d →
  x ∈ variables cw → y ∈ neighbors cw x →
  ∃ r, revise cw x y d = Ok r.
Proof.
  intros Hwf Hnc Hcov Hx Hy.
  pose proof Hy as (Hyv & Hyx & _)%elem_of_neighbors.
  unfold covers_variables in Hcov. rewrite Forall_forall in Hcov.
  destruct (Hcov x Hx) as [dx Hdx]. destruct (Hcov y Hyv) as [dy Hdy].
  apply (revise_total cw x y d dx dy); [done|done|done|by eapply Hwf|].
  intros o Ho. unfold overlaps_in_range in Hrange.
  rewrite Forall_forall in Hrange. specialize (Hrange x Hx).
  rewrite Forall_forall in Hrange. specialize (Hrange y Hyv).
  rewrite Ho in Hrange. destruct Hrange as [Hi Hj].
  pose proof (Hnc x _ Hdx) as Hlx. pose proof (Hnc y _ Hdy) as Hly.
  simpl in Hlx, Hly. rewrite Forall_forall in Hlx, Hly.
  split; intros w Hw; [rewrite (Hlx w Hw)|rewrite (Hly w Hw)]; done.
Qed.

Lemma ac3_loop_returns (fuel : nat) : ∀ (arcs : list Arc) (d : Domains),
  wf_domains d → node_consistent d → covers_variables cw d →
  (∀ x y, (x, y) ∈ arcs → x ∈ variables cw ∧ y ∈ neighbors cw x) →
  length arcs + length (variables cw) * domains_size d ≤ fuel →
  ∃ r, ac3_loop cw fuel arcs d = Ok r.
Proof.
  intros arcs d Hwf Hnc Hcov Harcs Hfuel.
  assert (proper_arcs arcs) as Hproper.
  { apply Forall_forall. intros [x y] [_ Hy]%Harcs. simpl.
    by apply elem_of_neighbors in Hy as (_ & ? & _). }
  pose proof (ac3_loop_fuel cw fuel arcs d Hproper Hfuel) as Hnofuel.
  clear Hfuel. revert arcs d Hwf Hnc Hcov Harcs Hproper Hnofuel.
  induction fuel as [|fuel IH]; intros arcs d Hwf Hnc Hcov Harcs Hproper Hnofuel.
  { destruct arcs as [|[x y] arcs]; [by eexists|done]. }
  destruct arcs as [|[x y] arcs]; [by eexists|]. simpl in *.
  destruct (Harcs x y) as [Hx Hy]; [by left|].
  apply Forall_cons in Hproper as [Hxy Hproper]. simpl in Hxy.
  destruct (revise_returns d x y) as [[b d1] Hrev]; [done..|].
  rewrite Hrev in *. simpl in *.
  pose proof (revise_shrunk cw x y d d1 b Hxy Hrev) as Hshrunk.
  assert (∀ x' y', (x', y') ∈ arcs → x' ∈ variables cw ∧ y' ∈ neighbors cw x')
    as Harcs' by (intros x' y' Hin; apply Harcs; by right).
  destruct b.
  - pose proof (shrunk_covers cw d d1 Hshrunk Hcov) as Hcov1.
    unfold covers_variables in Hcov1. rewrite Forall_forall in Hcov1.
    destruct (Hcov1 x Hx) as [dx1 Hdx1].
    unfold dom_get in *. rewrite Hdx1 in *. simpl in *.
    case_decide; [by eexists|].
    unfold var_set_remove in *. rewrite decide_True in * by done. simpl in *.
    apply IH; [by eapply shrunk_wf|by eapply shrunk_node_consistent|
               by eapply shrunk_covers| | |done].
    + intros x' y' [Hin|Hin]%elem_of_app; [by apply Harcs'|].
      apply list_elem_of_fmap in Hin as (z & [= -> ->] & [_ Hz]%list_elem_of_filter).
      pose proof Hz as (Hzv & _)%elem_of_neighbors.
      split; [done|]. by apply (neighbors_sym cw Hsym x).
    + apply Forall_app. split; [done|]. apply Forall_fmap, Forall_forall.
      intros z [_ Hz]%list_elem_of_filter. simpl.
      by apply elem_of_neighbors in Hz as (_ & ? & _).
  - apply IH; [by eapply shrunk_wf|by eapply shrunk_node_consistent|
               by eapply shrunk_covers|done..].
Qed.

Lemma ac3_returns_ok (d : Domains) :
  wf_domains d → node_consistent d → covers_variables cw d →
  ∃ b d', ac3 cw None d = Ok (b, d').
Proof.
  intros Hwf Hnc Hcov.
  destruct (ac3_loop_returns (ac3_fuel cw (all_arcs cw) d) (all_arcs cw) d)
    as [[b d'] Hrun]; [done..| |done|by exists b, d'].
  intros x y Hin. by apply elem_of_all_arcs.
Qed.

End ac3_totality.

(** ** The search *)

Lemma first_unassigned_None (assignment : Assignment) (vars : list Var.t) :
  first_unassigned assignment vars = None ↔ Forall (assigned assignment) vars.
Proof.
  induction vars as [|v vars IH]; simpl; [by split; [constructor|]|].
  rewrite Forall_cons, <-IH. case_decide as Hv; naive_solver.
Qed.

Lemma search_state_extend (cw : Crossword) (assignment : Assignment) var value :
  search_state cw assignment → var ∈ variables cw → ¬ assigned assignment var →
  value ≠ "" → search_state cw (assign_set assignment var value).
Proof.
  intros (Hnd & Hsub & Hwords) Hvar Hfresh Hvalue.
  rewrite assign_set_fresh by done. split_and!.
  - rewrite fmap_app. apply NoDup_app. split_and!; [done| |apply NoDup_singleton].
    intros k Hk Hk'. by apply list_elem_of_singleton in Hk' as ->.
  - rewrite fmap_app. intros k [?|Hk]%elem_of_app; [by apply Hsub|].
    by apply list_elem_of_singleton in Hk as ->.
  - apply Forall_app. split; [done|]. by repeat constructor.
Qed.

(** A dict in a search state that fails [assignment_complete] leaves a
    variable to select. *)
Lemma not_complete_selects (cw : Crossword) (assignment : Assignment) :
  NoDup (variables cw) → search_state cw assignment →
  assignment_complete cw assignment = false →
  ∃ var, select_unassigned_variable cw assignment = Some var.
Proof.
  intros Hvars (Hnd & Hsub & Hwords) Hcomplete.
  destruct (select_unassigned_variable cw assignment) as [var|] eqn:Hsel;
    [by eexists|exfalso].
  apply first_unassigned_None in Hsel. rewrite Forall_forall in Hsel.
  unfold assignment_complete in Hcomplete.
  rewrite (proj2 (assignment_complete_loop_keys assignment Hnd) Hwords) in Hcomplete.
  case_decide as Hlen; [|done].
  pose proof (NoDup_subseteq_length _ _ Hnd Hsub) as Hle1.
  pose proof (NoDup_subseteq_length (variables cw) assignment.*1 Hvars Hsel) as Hle2.
  rewrite length_fmap in Hle1, Hle2. lia.
Qed.

(** The dict a call returns holds the entries it was given, in front. *)
Lemma backtrack_extends (cw : Crossword) (d : Domains) (fuel : nat) :
  ∀ (assignment final found : Assignment),
  backtrack cw d fuel assignment = Ok (Some found, final) →
  final = found ∧ ∃ rest, found = assignment ++ rest.
Proof.
  induction fuel as [|fuel IH]; intros assignment final found Hrun; [done|].
  simpl in Hrun. destruct (assignment_complete cw assignment).
  { injection Hrun as <- <-. split; [done|]. exists []. by rewrite app_nil_r. }
  destruct (select_unassigned_variable cw assignment) as [var|] eqn:Hsel; [|done].
  apply first_unassigned_Some in Hsel as [_ Hfresh].
  apply bind_Ok in Hrun as (values & _ & Hrun).
  induction values as [|value values IHvalues]; [done|].
  apply bind_Ok in Hrun as (ok & _ & Hrun). destruct ok; [|by apply IHvalues].
  apply bind_Ok in Hrun as ([r1 a1] & Hrec & Hrun).
  pose proof (backtrack_restores _ _ _ _ _ _ Hrec) as Hrestore.
  destruct (truthy r1) eqn:Hr1.
  - injection Hrun as -> <-. apply IH in Hrec as [-> [rest ->]].
    split; [done|]. rewrite assign_set_fresh by done.
    exists ((var, value) :: rest). by rewrite <-app_assoc.
  - subst a1. rewrite assign_del_set in Hrun by done. by apply IHvalues.
Qed.

(** A recursive call never returns an empty dict. *)
Lemma backtrack_truthy (cw : Crossword) (d : Domains) (fuel : nat)
    (assignment final found : Assignment) :
  assignment ≠ [] →
  backtrack cw d fuel assignment = Ok (Some found, final) →
  truthy (Some found) = true.
Proof.
  intros Hne [_ [rest ->]]%backtrack_extends.
  destruct assignment; [done|]. done.
Qed.

Lemma assign_set_nonempty (assignment : Assignment) var value :
  assign_set assignment var value ≠ [].
Proof. destruct assignment as [|[k w] rest]; simpl; [done|]. by case_decide. Qed.

(** What a call returns was reached from the dict it was given. *)
Lemma backtrack_reaches (cw : Crossword) (d : Domains) (fuel : nat) :
  ∀ (assignment final found : Assignment),
  backtrack cw d fuel assignment = Ok (Some found, final) →
  reachable cw d assignment found ∧ assignment_complete cw found = true.
Proof.
  induction fuel as [|fuel IH]; intros assignment final found Hrun; [done|].
  simpl in Hrun. destruct (assignment_complete cw assignment) eqn:Hcomplete.
  { injection Hrun as <- <-. split; [constructor|done]. }
  destruct (select_unassigned_variable cw assignment) as [var|] eqn:Hsel; [|done].
  pose proof Hsel as [_ Hfresh]%first_unassigned_Some.
  apply bind_Ok in Hrun as (values & Hvalues & Hrun).
  apply order_domain_values_sorted in Hvalues as (dv & Hdv & Hperm & _).
  assert (Forall (λ v, v ∈ dv) values) as Hin.
  { apply Forall_forall. intros v Hv. by rewrite <-Hperm. }
  clear Hperm.
  induction values as [|value values IHvalues]; [done|].
  apply Forall_cons in Hin as [Hvalue Hin].
  apply bind_Ok in Hrun as (ok & Hok & Hrun). destruct ok; [|by apply IHvalues].
  apply bind_Ok in Hrun as ([r1 a1] & Hrec & Hrun).
  pose proof (backtrack_restores _ _ _ _ _ _ Hrec) as Hrestore.
  destruct (truthy r1) eqn:Hr1.
  - injection Hrun as -> <-. apply IH in Hrec as [Hreach Hdone].
    split; [|done]. eapply reach_step; [done| |done|done]. by rewrite Hdv.
  - subst a1. rewrite assign_del_set in Hrun by done. by apply IHvalues.
Qed.

(** A call that returns [None] has tried every assignment it could reach. *)
Lemma backtrack_exhaustive (cw : Crossword) (d : Domains) (fuel : nat) :
  ∀ (assignment final found : Assignment),
  backtrack cw d fuel assignment = Ok (None, final) →
  reachable cw d assignment found →
  assignment_complete cw found = false.
Proof.
  induction fuel as [|fuel IH]; intros assignment final found Hrun Hreach; [done|].
  simpl in Hrun. destruct (assignment_complete cw assignment) eqn:Hcomplete; [done|].
  destruct (select_unassigned_variable cw assignment) as [var|] eqn:Hsel; [|done].
  pose proof Hsel as [_ Hfresh]%first_unassigned_Some.
  apply bind_Ok in Hrun as (values & Hvalues & Hrun).
  apply order_domain_values_sorted in Hvalues as (dv & Hdv & Hperm & _).
  inversion Hreach as [|? var' value found' Hsel' Hvalue Hok Hreach']; subst;
    [done|].
  assert (var' = var) as -> by congruence.
  rewrite Hdv in Hvalue. simpl in Hvalue. rewrite <-Hperm in Hvalue.
  clear Hperm Hreach.
  induction values as [|value0 values IHvalues]; [by apply elem_of_nil in Hvalue|].
  apply bind_Ok in Hrun as (ok & Hok0 & Hrun).
  apply elem_of_cons in Hvalue as [->|Hvalue].
  - rewrite Hok in Hok0. injection Hok0 as <-.
    apply bind_Ok in Hrun as ([r1 a1] & Hrec & Hrun).
    destruct r1 as [found1|].
    + rewrite (backtrack_truthy _ _ _ _ _ _ (assign_set_nonempty _ _ _) Hrec) in Hrun.
      done.
    + by eapply IH.
  - destruct ok; [|by apply IHvalues].
    apply bind_Ok in Hrun as ([r1 a1] & Hrec & Hrun).
    pose proof (backtrack_restores _ _ _ _ _ _ Hrec) as Hrestore.
    destruct (truthy r1) eqn:Hr1.
    { injection Hrun as -> _. done. }
    subst a1. rewrite assign_del_set in Hrun by done. by apply IHvalues.
Qed.

Lemma reachable_within_domains (cw : Crossword) (d : Domains)
    (assignment found : Assignment) :
  reachable cw d assignment found →
  within_domains d assignment → within_domains d found.
Proof.
  induction 1 as [|a var value found Hsel Hvalue Hok _ IH]; [done|].
  intros Hin. apply IH. apply first_unassigned_Some in Hsel as [Hvar Hfresh].
  rewrite assign_set_fresh by done. apply Forall_app. split; [done|].
  by repeat constructor.
Qed.

Lemma reachable_consistent (cw : Crossword) (d : Domains)
    (assignment found : Assignment) :
  reachable cw d assignment found →
  found = assignment ∨ consistent cw d found = Ok true.
Proof.
  induction 1 as [|a var value found Hsel Hvalue Hok _ IH]; [by left|].
  right. by destruct IH as [->|?].
Qed.

Lemma complete_of_assignment_complete (cw : Crossword) (assignment : Assignment) :
  NoDup (variables cw) → NoDup assignment.*1 → assignment.*1 ⊆ variables cw →
  assignment_complete cw assignment = true → complete cw assignment.
Proof.
  intros Hvars Hnd Hsub Hcomplete. unfold assignment_complete in Hcomplete.
  destruct (assignment_complete_loop assignment assignment.*1); [|done].
  case_decide as Hlen; [done|].
  assert (length assignment = length (variables cw)) as Hlen' by lia.
  split_and!; [done|by apply Forall_forall|].
  apply Forall_forall. intros v Hv.
  assert (assignment.*1 ≡ₚ variables cw) as Hperm.
  { apply submseteq_length_Permutation; [by apply NoDup_submseteq|].
    rewrite length_fmap. lia. }
  by rewrite Hperm.
Qed.

Section search_totality.

Context (cw : Crossword) (d : Domains).
Context (Hrange : overlaps_in_range cw) (Hsym : symmetric_overlaps cw).
Context (Hne : nonempty_domains cw d) (Hnc : node_consistent d).
Context (Hvars : NoDup (variables cw)) (Hpos : positive_lengths cw).

Lemma domain_word_nonempty var value dv :
  var ∈ variables cw → d !! var = Some dv → value ∈ dv → value ≠ "".
Proof.
  intros Hvar Hdv Hvalue. pose proof (Hnc var dv Hdv) as Hlen. simpl in Hlen.
  rewrite Forall_forall in Hlen. specialize (Hlen value Hvalue).
  unfold positive_lengths in Hpos. rewrite Forall_forall in Hpos.
  specialize (Hpos var Hvar). intros ->. unfold len in Hlen. simpl in Hlen. lia.
Qed.

Lemma backtrack_returns_ok (fuel : nat) : ∀ assignment : Assignment,
  search_state cw assignment →
  length (variables cw) < fuel + length assignment →
  ∃ r final, backtrack cw d fuel assignment = Ok (r, final).
Proof.
  induction fuel as [|fuel IH]; intros assignment Hstate Hfuel.
  { destruct Hstate as (Hnd & Hsub & _).
    pose proof (NoDup_subseteq_length _ _ Hnd Hsub) as Hlen.
    rewrite length_fmap in Hlen. lia. }
  simpl. destruct (assignment_complete cw assignment) eqn:Hcomplete;
    [by eexists _, _|].
  destruct (not_complete_selects cw assignment Hvars Hstate Hcomplete)
    as [var Hsel].
  rewrite Hsel. apply first_unassigned_Some in Hsel as [Hvar Hfresh].
  destruct (order_domain_values_total cw d Hrange Hsym Hne Hnc var assignment Hvar)
    as [values Hvalues].
  rewrite Hvalues. cbn [bind].
  apply order_domain_values_sorted in Hvalues as (dv & Hdv & Hperm & _).
  assert (Forall (λ v, v ∈ dv) values) as Hin.
  { apply Forall_forall. intros v Hv. by rewrite <-Hperm. }
  clear Hperm.
  induction values as [|value values IHvalues]; [by eexists _, _|].
  apply Forall_cons in Hin as [Hvalue Hin].
  assert (search_state cw (assign_set assignment var value)) as Hstate'.
  { apply search_state_extend; [done..|]. by eapply domain_word_nonempty. }
  destruct (consistent_total cw d Hrange Hne Hnc (assign_set assignment var value))
    as [ok Hok]; [by apply Hstate'|].
  rewrite Hok. cbn [bind]. destruct ok; [|by apply IHvalues].
  destruct (IH (assign_set assignment var value) Hstate') as (r1 & a1 & Hrec).
  { rewrite assign_set_fresh, length_app by done. simpl. lia. }
  rewrite Hrec. cbn [bind].
  pose proof (backtrack_restores _ _ _ _ _ _ Hrec) as Hrestore.
  destruct (truthy r1); [by eexists _, _|].
  subst a1. rewrite assign_del_set by done. cbn [bind]. by apply IHvalues.
Qed.

End search_totality.

Lemma reachable_keys (cw : Crossword) (d : Domains) (assignment found : Assignment) :
  reachable cw d assignment found →
  NoDup assignment.*1 → assignment.*1 ⊆ variables cw →
  NoDup found.*1 ∧ found.*1 ⊆ variables cw.
Proof.
  induction 1 as [|a var value found Hsel Hvalue Hok _ IH]; [done|].
  intros Hnd Hsub. apply first_unassigned_Some in Hsel as [Hvar Hfresh].
  apply IH; rewrite assign_set_fresh, fmap_app by done.
  - apply NoDup_app. split_and!; [done| |apply NoDup_singleton].
    intros k Hk Hk'. by apply list_elem_of_singleton in Hk' as ->.
  - intros k [?|Hk]%elem_of_app; [by apply Hsub|].
    by apply list_elem_of_singleton in Hk as ->.
Qed.

Lemma insert_by_count_equal (x : string * nat) (l : list (string * nat)) n :
  x.2 = n → Forall (λ y, y.2 = n) l → insert_by_count x l = x :: l.
Proof.
  intros Hx Hl. destruct l as [|y l]; [done|]. simpl.
  apply Forall_cons in Hl as [Hy _]. rewrite decide_True; [done|lia].
Qed.

Lemma sorted_by_count_equal (l : list (string * nat)) n :
  Forall (λ y, y.2 = n) l → sorted_by_count l = l.*1.
Proof.
  unfold sorted_by_count. intros Hl. f_equal.
  induction Hl as [|x l Hx Hl IH]; [done|]. simpl. rewrite IH.
  by apply (insert_by_count_equal x l n).
Qed.

Lemma skip_assigned_neighbors (cw : Crossword) (d : Domains) (var : Var.t)
    (assignment : Assignment) (value : string) (ns : list Var.t) (n : nat) :
  Forall (assigned assignment) ns →
  for_each (λ n neighbor,
      if decide (assigned assignment neighbor) then Ok n
      else
        let overlap := overlaps cw var neighbor in
        let* neighbor_domain := dom_get d neighbor in
        for_each (λ n neighbor_value,
            match overlap with
            | None => Raise TypeError
            | Some overlap =>
              let* c := char_at value overlap.1 in
              let* c' := char_at neighbor_value overlap.2 in
              Ok (if decide (c = c') then S n else n)
            end)
          neighbor_domain n)
    ns n = Ok n.
Proof.
  induction 1 as [|nb ns Hnb Hns IH]; [done|]. cbn [for_each].
  rewrite decide_True by done. cbn [bind]. exact IH.
Qed.

Lemma prepared_inv (cw : Crossword) (d : Domains) :
  NoDup (words cw) → prepared cw = Ok d →
  wf_domains d ∧ node_consistent d ∧ covers_variables cw d.
Proof.
  intros Hwords Hrun. unfold prepared in Hrun.
  apply bind_Ok in Hrun as (d0 & Hnode & Hrun).
  apply bind_Ok in Hrun as ([b d1] & Hac3 & [= <-]).
  pose proof (init_domains_wf cw Hwords) as Hwf.
  destruct (enforce_node_consistency_lookup _ Hwf) as (d0' & Hnode' & Hd0).
  assert (d0' = d0) as -> by congruence.
  apply ac3_loop_shrunk in Hac3; [|apply all_arcs_proper].
  split_and!.
  - apply (shrunk_wf d0); [done|]. intros v ws. rewrite Hd0.
    intros (ws0 & Hws0 & ->)%fmap_Some. apply NoDup_filter. by eapply Hwf.
  - apply (shrunk_node_consistent d0); [done|]. intros v ws. rewrite Hd0.
    intros (ws0 & Hws0 & ->)%fmap_Some.
    apply Forall_forall. by intros w [? _]%list_elem_of_filter.
  - apply (shrunk_covers cw d0); [done|]. apply Forall_forall. intros v Hv.
    rewrite Hd0, lookup_init_domains, decide_True by done. by eexists.
Qed.

(** X14 — [consistent] raises nothing on well-formed input.  When the
    overlap indices lie inside the variables, every variable has a non-empty
    domain of words of its length, and the keys of the assignment are
    variables of the crossword, [consistent] returns a boolean. *)
Theorem consistent_raises_nothing (cw : Crossword) (d : Domains)
    (assignment : Assignment) :
  overlaps_in_range cw → nonempty_domains cw d → node_consistent d →
  assignment.*1 ⊆ variables cw →
  ∃ b, consistent cw d assignment = Ok b.
Proof. intros Hrange Hne Hnc Hsub. by apply consistent_total. Qed.

Lemma consistent_raises_nothing_witness :
  let cw := crossword_of [across3; down4] ["CAT"; "DOG"; "ACES"] in
  let d : Domains := {[ across3 := ["CAT"; "DOG"]; down4 := ["ACES"] ]} in
  let assignment : Assignment := [(across3, "DOG")] in
  overlaps_in_range cw ∧ nonempty_domains cw d ∧ node_consistent d
  ∧ assignment.*1 ⊆ variables cw
  ∧ ∃ b, consistent cw d assignment = Ok b.
Proof.
  intros cw d assignment.
  assert (overlaps_in_range cw) as Hrange by by_evaluation.
  assert (nonempty_domains cw d) as Hne
    by (repeat constructor; eexists _, _; vm_compute; reflexivity).
  assert (node_consistent d) as Hnc by by_evaluation.
  assert (assignment.*1 ⊆ variables cw) as Hsub by by_evaluation.
  split_and!; [exact Hrange|exact Hne|exact Hnc|exact Hsub|].
  exact (consistent_raises_nothing cw d assignment Hrange Hne Hnc Hsub).
Defined.

(** X15 — [order_domain_values] on well-formed input.  When the overlap
    table is symmetric with indices inside the variables and every variable
    has a non-empty domain of words of its length, the method returns, for a
    variable of the crossword, a reordering of its domain that is ascending
    in the number of agreeing words of the unassigned neighbors. *)
Theorem order_domain_values_returns (cw : Crossword) (d : Domains) (var : Var.t)
    (assignment : Assignment) :
  overlaps_in_range cw → symmetric_overlaps cw →
  nonempty_domains cw d → node_consistent d → var ∈ variables cw →
  ∃ values dv,
    order_domain_values cw d var assignment = Ok values
    ∧ d !! var = Some dv
    ∧ values ≡ₚ dv
    ∧ Sorted (λ a b, compatible_count cw d var assignment a
                     ≤ compatible_count cw d var assignment b) values.
Proof.
  intros Hrange Hsym Hne Hnc Hvar.
  destruct (order_domain_values_total cw d Hrange Hsym Hne Hnc var assignment Hvar)
    as [values Hrun].
  destruct (order_domain_values_sorted cw d var assignment values Hrun)
    as (dv & Hdv & Hperm & Hsorted).
  by exists values, dv.
Qed.

Lemma order_domain_values_returns_witness :
  let cw := crossword_of [across3; down4] ["CAT"; "COT"; "ACES"; "ARTS"; "OPEN"] in
  let d : Domains :=
    {[ across3 := ["CAT"; "COT"]; down4 := ["ACES"; "ARTS"; "OPEN"] ]} in
  overlaps_in_range cw ∧ symmetric_overlaps cw
  ∧ nonempty_domains cw d ∧ node_consistent d ∧ across3 ∈ variables cw
  ∧ ∃ values dv,
      order_domain_values cw d across3 [] = Ok values
      ∧ d !! across3 = Some dv
      ∧ values ≡ₚ dv
      ∧ Sorted (λ a b, compatible_count cw d across3 [] a
                       ≤ compatible_count cw d across3 [] b) values.
Proof.
  intros cw d.
  assert (overlaps_in_range cw) as Hrange by by_evaluation.
  assert (symmetric_overlaps cw) as Hsym by by_evaluation.
  assert (nonempty_domains cw d) as Hne
    by (repeat constructor; eexists _, _; vm_compute; reflexivity).
  assert (node_consistent d) as Hnc by by_evaluation.
  assert (across3 ∈ variables cw) as Hvar by by_evaluation.
  split_and!; [exact Hrange|exact Hsym|exact Hne|exact Hnc|exact Hvar|].
  exact (order_domain_values_returns cw d across3 [] Hrange Hsym Hne Hnc Hvar).
Defined.

(** X16 — [order_domain_values] when every neighbor is assigned.  All
    counts are then zero and the stable sort keeps the order: the method
    returns the domain of the variable in its iteration order, and reads
    neither the overlaps nor the other domains.  This covers a variable
    without neighbors. *)
Theorem order_domain_values_neighbors_assigned (cw : Crossword) (d : Domains)
    (var : Var.t) (assignment : Assignment) (dv : list string) :
  d !! var = Some dv →
  Forall (assigned assignment) (neighbors cw var) →
  order_domain_values cw d var assignment = Ok dv.
Proof.
  intros Hdv Hall. unfold order_domain_values.
  unfold dom_get at 1. rewrite Hdv. cbn [bind]. clear Hdv.
  assert (∀ acc : list (string * nat),
    for_each (λ assign_values value,
        let* n :=
          for_each (λ n neighbor,
              if decide (assigned assignment neighbor) then Ok n
              else
                let overlap := overlaps cw var neighbor in
                let* neighbor_domain := dom_get d neighbor in
                for_each (λ n neighbor_value,
                    match overlap with
                    | None => Raise TypeError
                    | Some overlap =>
                      let* c := char_at value overlap.1 in
                      let* c' := char_at neighbor_value overlap.2 in
                      Ok (if decide (c = c') then S n else n)
                    end)
                  neighbor_domain n)
            (neighbors cw var) 0 in
        Ok (assign_values ++ [(value, n)]))
      dv acc = Ok (acc ++ ((λ v, (v, 0)) <$> dv))) as Hloop.
  { induction dv as [|v dv IH]; intros acc; [by rewrite app_nil_r|].
    cbn [for_each]. rewrite skip_assigned_neighbors by done. cbn [bind].
    rewrite IH. by rewrite <-app_assoc. }
  rewrite Hloop. cbn [bind]. f_equal. simpl.
  rewrite (sorted_by_count_equal _ 0).
  - rewrite <-list_fmap_compose. apply list_fmap_id.
  - apply Forall_fmap, Forall_forall. done.
Qed.

Lemma order_domain_values_neighbors_assigned_witness :
  let cw := crossword_of [across3; down4] ["CAT"; "COT"; "ACES"] in
  let d : Domains := {[ across3 := ["CAT"; "COT"]; down4 := ["ACES"] ]} in
  let assignment : Assignment := [(down4, "ACES")] in
  d !! across3 = Some ["CAT"; "COT"]
  ∧ Forall (assigned assignment) (neighbors cw across3)
  ∧ order_domain_values cw d across3 assignment = Ok ["CAT"; "COT"].
Proof.
  intros cw d assignment.
  assert (d !! across3 = Some ["CAT"; "COT"]) as Hdv by (vm_compute; reflexivity).
  assert (Forall (assigned assignment) (neighbors cw across3)) as Hall
    by by_evaluation.
  split_and!; [exact Hdv|exact Hall|].
  exact (order_domain_values_neighbors_assigned cw d across3 assignment _ Hdv Hall).
Defined.

(** X17 — [select_unassigned_variable].  The method returns [None]
    exactly when every variable of the crossword is a key of the assignment;
    a variable it returns belongs to the crossword and is not a key of the
    assignment. *)
Theorem select_unassigned_variable_none_iff (cw : Crossword)
    (assignment : Assignment) :
  (select_unassigned_variable cw assignment = None
   ↔ Forall (assigned assignment) (variables cw))
  ∧ ∀ var, select_unassigned_variable cw assignment = Some var →
           var ∈ variables cw ∧ ¬ assigned assignment var.
Proof.
  split; [apply first_unassigned_None|]. intros var. apply first_unassigned_Some.
Qed.

(** X18 — [backtrack] on a dict that is not complete although it covers
    every variable (an extra key, or an empty word): no variable can be
    selected, and the call ends with an exception instead of returning
    [None]. *)
Theorem backtrack_all_assigned_raises (cw : Crossword) (d : Domains)
    (fuel : nat) (assignment : Assignment) :
  assignment_complete cw assignment = false →
  Forall (assigned assignment) (variables cw) →
  ∃ e, backtrack cw d (S fuel) assignment = Raise e ∧ e ≠ OutOfFuel.
Proof.
  intros Hcomplete Hall. exists KeyError. split; [|done].
  simpl. rewrite Hcomplete. unfold select_unassigned_variable.
  by rewrite (proj2 (first_unassigned_None assignment (variables cw)) Hall).
Qed.

Lemma backtrack_all_assigned_raises_witness :
  let cw := crossword_of [across3] ["CAT"] in
  let d : Domains := {[ across3 := ["CAT"] ]} in
  let assignment : Assignment := [(across3, "CAT"); (down4, "ACES")] in
  assignment_complete cw assignment = false
  ∧ Forall (assigned assignment) (variables cw)
  ∧ ∃ e, backtrack cw d (backtrack_fuel cw) assignment = Raise e ∧ e ≠ OutOfFuel.
Proof.
  intros cw d assignment.
  assert (assignment_complete cw assignment = false) as Hcomplete
    by (vm_compute; reflexivity).
  assert (Forall (assigned assignment) (variables cw)) as Hall by by_evaluation.
  split_and!; [exact Hcomplete|exact Hall|].
  exact (backtrack_all_assigned_raises cw d 1 assignment Hcomplete Hall).
Defined.

(** X19 — what [backtrack] returns.  On a crossword whose variables are
    distinct, called with a dict whose keys are variables, a call that
    returns an assignment returns the dict itself, which holds the entries it
    was given followed by new ones, has exactly one entry per variable of the
    crossword, takes its words from the domains when the words it was given
    came from them, and — unless nothing was added — has passed
    [consistent]. *)
Theorem backtrack_result_is_complete (cw : Crossword) (d : Domains) (fuel : nat)
    (assignment final found : Assignment) :
  NoDup (variables cw) →
  NoDup assignment.*1 → assignment.*1 ⊆ variables cw →
  backtrack cw d fuel assignment = Ok (Some found, final) →
  final = found
  ∧ (∃ rest, found = assignment ++ rest)
  ∧ complete cw found
  ∧ (within_domains d assignment → within_domains d found)
  ∧ (found = assignment ∨ consistent cw d found = Ok true).
Proof.
  intros Hvars Hnd Hsub Hrun.
  destruct (backtrack_extends cw d fuel _ _ _ Hrun) as [Hfinal Hrest].
  destruct (backtrack_reaches cw d fuel _ _ _ Hrun) as [Hreach Hcomplete].
  destruct (reachable_keys cw d _ _ Hreach Hnd Hsub) as [Hnd' Hsub'].
  split_and!; [done|done| | |].
  - by apply complete_of_assignment_complete.
  - by apply (reachable_within_domains cw d assignment found).
  - by eapply reachable_consistent.
Qed.

Lemma backtrack_result_is_complete_witness :
  let cw := crossword_of [across3; down4] ["CAT"; "DOG"; "ACES"] in
  let d : Domains := {[ across3 := ["CAT"]; down4 := ["ACES"] ]} in
  let found : Assignment := [(across3, "CAT"); (down4, "ACES")] in
  NoDup (variables cw)
  ∧ backtrack cw d (backtrack_fuel cw) [] = Ok (Some found, found)
  ∧ complete cw found.
Proof.
  intros cw d found.
  assert (NoDup (variables cw)) as Hvars by by_evaluation.
  assert (NoDup ([] : Assignment).*1) as Hnd by apply NoDup_nil_2.
  assert (([] : Assignment).*1 ⊆ variables cw) as Hsub by apply list_subseteq_nil.
  assert (backtrack cw d (backtrack_fuel cw) [] = Ok (Some found, found)) as Hrun
    by (vm_compute; reflexivity).
  split_and!; [exact Hvars|exact Hrun|].
  exact (proj1 (proj2 (proj2
    (backtrack_result_is_complete cw d _ [] found found Hvars Hnd Hsub Hrun)))).
Defined.

(** X20 — [backtrack] that returns [None].  The dict is then back to the
    entries it was given, and the search was exhaustive: no assignment that
    can be reached by giving, step after step, the selected variable a word
    of its domain accepted by [consistent] passes [assignment_complete]. *)
Theorem backtrack_none_is_exhaustive (cw : Crossword) (d : Domains) (fuel : nat)
    (assignment final : Assignment) :
  backtrack cw d fuel assignment = Ok (None, final) →
  final = assignment
  ∧ ∀ found, reachable cw d assignment found →
             assignment_complete cw found = false.
Proof.
  intros Hrun. split.
  - by apply backtrack_restores in Hrun.
  - intros found Hreach. by eapply backtrack_exhaustive.
Qed.

Lemma backtrack_none_is_exhaustive_witness :
  let cw := crossword_of [across3; down4] ["CAT"; "DOGS"] in
  let d : Domains := {[ across3 := ["CAT"]; down4 := ["DOGS"] ]} in
  backtrack cw d (backtrack_fuel cw) [] = Ok (None, [])
  ∧ ∀ found, reachable cw d [] found → assignment_complete cw found = false.
Proof.
  intros cw d.
  assert (backtrack cw d (backtrack_fuel cw) [] = Ok (None, [])) as Hrun
    by (vm_compute; reflexivity).
  split; [exact Hrun|].
  exact (proj2 (backtrack_none_is_exhaustive cw d _ [] [] Hrun)).
Defined.

(** X21 — [backtrack] raises nothing on well-formed input.  When the
    overlap table is symmetric with indices inside the variables, the
    variables are distinct and not empty, and every variable has a non-empty
    domain of words of its length, a call on a dict whose keys are variables
    and whose words are not empty returns, and the recursion depth stays
    within the number of variables left plus one. *)
Theorem backtrack_raises_nothing (cw : Crossword) (d : Domains) (fuel : nat)
    (assignment : Assignment) :
  overlaps_in_range cw → symmetric_overlaps cw →
  nonempty_domains cw d → node_consistent d →
  NoDup (variables cw) → positive_lengths cw →
  search_state cw assignment →
  length (variables cw) < fuel + length assignment →
  ∃ r final, backtrack cw d fuel assignment = Ok (r, final).
Proof.
  intros Hrange Hsym Hne Hnc Hvars Hpos Hstate Hfuel.
  by apply backtrack_returns_ok.
Qed.

Lemma backtrack_raises_nothing_witness :
  let cw := crossword_of [across3; down4] ["CAT"; "DOG"; "ACES"] in
  let d : Domains := {[ across3 := ["CAT"; "DOG"]; down4 := ["ACES"] ]} in
  overlaps_in_range cw ∧ symmetric_overlaps cw
  ∧ nonempty_domains cw d ∧ node_consistent d
  ∧ NoDup (variables cw) ∧ positive_lengths cw
  ∧ search_state cw []
  ∧ ∃ r final, backtrack cw d (backtrack_fuel cw) [] = Ok (r, final).
Proof.
  intros cw d.
  assert (overlaps_in_range cw) as Hrange by by_evaluation.
  assert (symmetric_overlaps cw) as Hsym by by_evaluation.
  assert (nonempty_domains cw d) as Hne
    by (repeat constructor; eexists _, _; vm_compute; reflexivity).
  assert (node_consistent d) as Hnc by by_evaluation.
  assert (NoDup (variables cw)) as Hvars by by_evaluation.
  assert (positive_lengths cw) as Hpos by by_evaluation.
  assert (search_state cw []) as Hstate.
  { split_and!; [apply NoDup_nil_2|apply list_subseteq_nil|constructor]. }
  assert (length (variables cw) < backtrack_fuel cw + length ([] : Assignment))
    as Hfuel by (vm_compute; lia).
  split_and!; [exact Hrange|exact Hsym|exact Hne|exact Hnc|exact Hvars|exact Hpos|
               exact Hstate|].
  exact (backtrack_raises_nothing cw d _ [] Hrange Hsym Hne Hnc Hvars Hpos
           Hstate Hfuel).
Defined.

(** X22 — [solve] on a crossword without variables returns the empty
    assignment (the empty dict, not [None]). *)
Theorem solve_without_variables (cw : Crossword) :
  variables cw = [] → solve cw = Ok (Some []).
Proof.
  intros Hvars. unfold solve, init_domains, enforce_node_consistency, dom_keys.
  rewrite Hvars. simpl. rewrite map_to_list_empty. simpl.
  unfold ac3, ac3_fuel, all_arcs. rewrite Hvars. simpl.
  unfold backtrack_fuel, assignment_complete. rewrite Hvars. simpl. done.
Qed.

Lemma solve_without_variables_witness :
  let cw := crossword_of [] ["CAT"; "DOG"] in
  variables cw = [] ∧ solve cw = Ok (Some []).
Proof.
  intros cw. assert (variables cw = []) as Hvars by reflexivity.
  split; [exact Hvars|]. exact (solve_without_variables cw Hvars).
Defined.

(** X23 — the preparation of [solve] raises nothing.  On a crossword with
    a symmetric overlap table whose indices lie inside the variables, and a
    word set, [enforce_node_consistency] followed by [ac3] returns normally;
    the domains obtained are sets of words of the right length, one for every
    variable. *)
Theorem prepared_raises_nothing (cw : Crossword) :
  NoDup (words cw) → symmetric_overlaps cw → overlaps_in_range cw →
  ∃ d, prepared cw = Ok d
    ∧ wf_domains d ∧ node_consistent d ∧ covers_variables cw d.
Proof.
  intros Hwords Hsym Hrange.
  pose proof (init_domains_wf cw Hwords) as Hwf.
  destruct (enforce_node_consistency_lookup _ Hwf) as (d0 & Hnode & Hd0).
  destruct (ac3_returns_ok cw Hsym Hrange d0) as (b & d1 & Hac3).
  - intros v ws. rewrite Hd0. intros (ws0 & Hws0 & ->)%fmap_Some.
    apply NoDup_filter. by eapply Hwf.
  - intros v ws. rewrite Hd0. intros (ws0 & Hws0 & ->)%fmap_Some.
    apply Forall_forall. by intros w [? _]%list_elem_of_filter.
  - apply Forall_forall. intros v Hv.
    rewrite Hd0, lookup_init_domains, decide_True by done. by eexists.
  - assert (prepared cw = Ok d1) as Hprep.
    { unfold prepared. rewrite Hnode. cbn [bind]. by rewrite Hac3. }
    exists d1. split; [done|]. by apply prepared_inv.
Qed.

Lemma prepared_raises_nothing_witness :
  let cw := crossword_of [across3; down4] ["CAT"; "DOG"; "ACES"] in
  NoDup (words cw) ∧ symmetric_overlaps cw ∧ overlaps_in_range cw
  ∧ ∃ d, prepared cw = Ok d
      ∧ wf_domains d ∧ node_consistent d ∧ covers_variables cw d.
Proof.
  intros cw.
  assert (NoDup (words cw)) as Hwords by by_evaluation.
  assert (symmetric_overlaps cw) as Hsym by by_evaluation.
  assert (overlaps_in_range cw) as Hrange by by_evaluation.
  split_and!; [exact Hwords|exact Hsym|exact Hrange|].
  exact (prepared_raises_nothing cw Hwords Hsym Hrange).
Defined.

(** X24 — [solve] when no domain is emptied.  On a well-formed crossword
    whose domains after node and arc consistency are all non-empty, [solve]
    returns normally.  An assignment it returns has exactly one entry per
    variable, with words of the right length taken from the domains, and is
    accepted by [consistent]; when it returns [None], no assignment reachable
    through [consistent] is complete. *)
Theorem solve_returns (cw : Crossword) (d : Domains) :
  NoDup (variables cw) → NoDup (words cw) →
  symmetric_overlaps cw → overlaps_in_range cw → positive_lengths cw →
  prepared cw = Ok d → nonempty_domains cw d →
  ∃ r, solve cw = Ok r
    ∧ match r with
      | Some found =>
          complete cw found ∧ within_domains d found
          ∧ spec_length_ok found ∧ consistent cw d found = Ok true
      | None =>
          ∀ found, reachable cw d [] found → assignment_complete cw found = false
      end.
Proof.
  intros Hvars Hwords Hsym Hrange Hpos Hprep Hne.
  destruct (prepared_inv cw d Hwords Hprep) as (Hwf & Hnc & Hcov).
  assert (search_state cw []) as Hstate.
  { split_and!; [apply NoDup_nil_2|apply list_subseteq_nil|constructor]. }
  destruct (backtrack_returns_ok cw d Hrange Hsym Hne Hnc Hvars Hpos
              (backtrack_fuel cw) [] Hstate) as (r & final & Hrun).
  { unfold backtrack_fuel. simpl. lia. }
  exists r. split.
  { rewrite solve_search. unfold search. rewrite Hprep. cbn [bind].
    by rewrite Hrun. }
  destruct r as [found|].
  - destruct (backtrack_reaches cw d _ _ _ _ Hrun) as [Hreach Hcomplete].
    destruct (reachable_keys cw d _ _ Hreach) as [Hnd Hsub];
      [apply NoDup_nil_2|apply list_subseteq_nil|].
    assert (consistent cw d found = Ok true) as Hok.
    { by destruct (reachable_consistent cw d _ _ Hreach) as [->|?]. }
    split_and!.
    + by apply complete_of_assignment_complete.
    + apply (reachable_within_domains cw d [] found Hreach). constructor.
    + by eapply consistent_length.
    + done.
  - intros found Hreach. by eapply backtrack_exhaustive.
Qed.

Lemma solve_returns_witness :
  let cw := crossword_of [across3; down4] ["CAT"; "DOG"; "ACES"] in
  let d : Domains := {[ across3 := ["CAT"]; down4 := ["ACES"] ]} in
  NoDup (variables cw) ∧ NoDup (words cw)
  ∧ symmetric_overlaps cw ∧ overlaps_in_range cw ∧ positive_lengths cw
  ∧ prepared cw = Ok d ∧ nonempty_domains cw d
  ∧ ∃ r, solve cw = Ok r
      ∧ match r with
        | Some found =>
            complete cw found ∧ within_domains d found
            ∧ spec_length_ok found ∧ consistent cw d found = Ok true
        | None =>
            ∀ found, reachable cw d [] found → assignment_complete cw found = false
        end.
Proof.
  intros cw d.
  assert (NoDup (variables cw)) as Hvars by by_evaluation.
  assert (NoDup (words cw)) as Hwords by by_evaluation.
  assert (symmetric_overlaps cw) as Hsym by by_evaluation.
  assert (overlaps_in_range cw) as Hrange by by_evaluation.
  assert (positive_lengths cw) as Hpos by by_evaluation.
  assert (prepared cw = Ok d) as Hprep by (vm_compute; reflexivity).
  assert (nonempty_domains cw d) as Hne
    by (repeat constructor; eexists _, _; vm_compute; reflexivity).
  split_and!; [exact Hvars|exact Hwords|exact Hsym|exact Hrange|exact Hpos|
               exact Hprep|exact Hne|].
  exact (solve_returns cw d Hvars Hwords Hsym Hrange Hpos Hprep Hne).
Defined.

(** ** The letter grid *)

Lemma square_inj (v : Var.t) (k k' : nat) : square v k = square v k' → k = k'.
Proof.
  unfold square. destruct (Var.direction v); repeat case_decide; try done;
    intros [= ?]; lia.
Qed.

Lemma get_Some_lt w k c : String.get k w = Some c → k < len w.
Proof.
  intros Hc. destruct (decide (k < len w)); [done|].
  rewrite get_None in Hc by lia. done.
Qed.

Lemma set_cell_inv (letters letters' : Letters) i j c :
  set_cell letters i j c = Ok letters' →
  ∃ row, letters !! i = Some row ∧ j < length row
    ∧ letters' = <[i := <[j := Some c]> row]> letters.
Proof.
  unfold set_cell. destruct (letters !! i) as [row|]; [|done].
  case_decide; [|done]. intros [= <-]. by exists row.
Qed.

Lemma set_cell_shape (w h : nat) (letters letters' : Letters) i j c :
  well_shaped w h letters → set_cell letters i j c = Ok letters' →
  well_shaped w h letters'.
Proof.
  intros [Hlen Hrows] (row & Hrow & Hj & ->)%set_cell_inv. split.
  - by rewrite length_insert.
  - apply Forall_insert; [done|]. rewrite length_insert.
    rewrite Forall_forall in Hrows. apply Hrows. by eapply list_elem_of_lookup_2.
Qed.

Lemma set_cell_in_grid (w h : nat) (letters : Letters) i j c :
  well_shaped w h letters → i < h → j < w →
  ∃ letters', set_cell letters i j c = Ok letters'.
Proof.
  intros [Hlen Hrows] Hi Hj. unfold set_cell.
  destruct (lookup_lt_is_Some_2 letters i) as [row Hrow]; [lia|].
  rewrite Hrow. rewrite Forall_forall in Hrows.
  rewrite decide_True; [by eexists|].
  rewrite (Hrows row); [done|]. by eapply list_elem_of_lookup_2.
Qed.

Lemma set_cell_outside (w h : nat) (letters : Letters) i j c :
  well_shaped w h letters → ¬ (i < h ∧ j < w) →
  set_cell letters i j c = Raise IndexError.
Proof.
  intros [Hlen Hrows] Hout. unfold set_cell.
  destruct (letters !! i) as [row|] eqn:Hrow; [|done].
  rewrite Forall_forall in Hrows.
  rewrite decide_False; [done|].
  rewrite (Hrows row) by by eapply list_elem_of_lookup_2.
  apply lookup_lt_Some in Hrow. lia.
Qed.

Lemma cell_set_cell (letters letters' : Letters) i j c i' j' :
  set_cell letters i j c = Ok letters' →
  cell letters' i' j'
  = if decide (i = i' ∧ j = j') then Some (Some c) else cell letters i' j'.
Proof.
  intros (row & Hrow & Hj & ->)%set_cell_inv. unfold cell.
  pose proof (lookup_lt_Some _ _ _ Hrow) as Hi.
  rewrite list_lookup_insert.
  destruct (decide (i = i')) as [<-|Hne].
  - rewrite decide_True by done. rewrite Hrow, list_lookup_insert.
    destruct (decide (j = j')) as [<-|Hne'].
    + by rewrite !decide_True.
    + rewrite !decide_False by naive_solver. done.
  - rewrite !decide_False by naive_solver. done.
Qed.

Section write_word.

Context (w h : nat) (v : Var.t) (word : string).

Lemma write_word_in_grid (ks : list nat) : ∀ letters : Letters,
  Forall (λ k, k < len word) ks → well_shaped w h letters →
  word_in_grid w h v ks →
  ∃ letters', for_each (write_letter v word) ks letters = Ok letters'
    ∧ well_shaped w h letters'.
Proof.
  induction ks as [|k ks IH]; intros letters Hks Hshape Hin; [by exists letters|].
  apply Forall_cons in Hks as [Hk Hks]. apply Forall_cons in Hin as [[Hi Hj] Hin].
  cbn [for_each]. unfold write_letter at 1. cbv zeta.
  destruct (get_is_Some word k Hk) as [c Hc]. unfold char_at. rewrite Hc.
  cbn [bind].
  destruct (set_cell_in_grid w h letters _ _ c Hshape Hi Hj) as [l1 Hl1].
  rewrite Hl1. cbn [bind]. apply IH; [done| |done]. by eapply set_cell_shape.
Qed.

Lemma write_word_outside (ks : list nat) : ∀ letters : Letters,
  Forall (λ k, k < len word) ks → well_shaped w h letters →
  ¬ word_in_grid w h v ks →
  for_each (write_letter v word) ks letters = Raise IndexError.
Proof.
  induction ks as [|k ks IH]; intros letters Hks Hshape Hout.
  { destruct Hout. constructor. }
  apply Forall_cons in Hks as [Hk Hks].
  cbn [for_each]. unfold write_letter at 1. cbv zeta.
  destruct (get_is_Some word k Hk) as [c Hc]. unfold char_at. rewrite Hc.
  cbn [bind].
  destruct (decide ((square v k).1 < h ∧ (square v k).2 < w)) as [[Hi Hj]|Hk'].
  - destruct (set_cell_in_grid w h letters _ _ c Hshape Hi Hj) as [l1 Hl1].
    rewrite Hl1. cbn [bind]. apply IH; [done|by eapply set_cell_shape|].
    intros Hin. apply Hout. by constructor.
  - by rewrite (set_cell_outside w h).
Qed.

Lemma write_word_cells (ks : list nat) : ∀ letters letters' : Letters,
  NoDup ks →
  for_each (write_letter v word) ks letters = Ok letters' →
  ∀ i j,
    (∀ k c, k ∈ ks → String.get k word = Some c → square v k = (i, j) →
            cell letters' i j = Some (Some c))
    ∧ ((∀ k, k ∈ ks → square v k ≠ (i, j)) →
       cell letters' i j = cell letters i j).
Proof.
  induction ks as [|k ks IH]; intros letters letters' Hnd Hrun i j.
  { injection Hrun as <-. split; [|done]. by intros k c ?%elem_of_nil. }
  apply NoDup_cons in Hnd as [Hk Hnd].
  cbn [for_each] in Hrun. apply bind_Ok in Hrun as (l1 & Hstep & Hrun).
  unfold write_letter in Hstep. cbv zeta in Hstep.
  apply bind_Ok in Hstep as (c0 & Hc0%char_at_Ok & Hset).
  pose proof (cell_set_cell _ _ _ _ _ i j Hset) as Hcell.
  destruct (IH l1 letters' Hnd Hrun i j) as [Hwritten Hkept]. split.
  - intros k' c [->|Hin]%elem_of_cons Hc Hsq; [|by eapply Hwritten].
    rewrite Hkept.
    + rewrite Hcell, Hsq, decide_True by done. congruence.
    + intros k' Hk' Hsq'. rewrite <-Hsq in Hsq'. apply square_inj in Hsq'.
      by subst k'.
  - intros Hnone. rewrite Hkept.
    + rewrite Hcell, decide_False; [done|]. intros [Hi Hj].
      apply (Hnone k); [by left|]. by destruct (square v k); simpl in *; subst.
    + intros k' Hk'. apply Hnone. by right.
Qed.

End write_word.

Lemma seq_lt_len (word : string) : Forall (λ k, k < len word) (seq 0 (len word)).
Proof. apply Forall_forall. intros k Hk%elem_of_seq. lia. Qed.

Lemma writes_dec_seq (vw : Var.t * string) (i j : nat) :
  (∃ c, writes vw i j c)
  ∨ ∀ k, k ∈ seq 0 (len vw.2) → square vw.1 k ≠ (i, j).
Proof.
  destruct (decide (Exists (λ k, square vw.1 k = (i, j)) (seq 0 (len vw.2))))
    as [Hex|Hnone].
  - left. apply Exists_exists in Hex as (k & Hk%elem_of_seq & Hsq).
    destruct (get_is_Some vw.2 k) as [c Hc]; [lia|]. exists c, k. done.
  - right. intros k Hk Hsq. apply Hnone, Exists_exists. by exists k.
Qed.

Lemma letter_grid_loop_in_grid (w h : nat) (assignment : Assignment) :
  ∀ letters : Letters,
  well_shaped w h letters → in_grid w h assignment →
  ∃ letters',
    for_each (λ letters vw,
        for_each (write_letter vw.1 vw.2) (seq 0 (len vw.2)) letters)
      assignment letters = Ok letters'
    ∧ well_shaped w h letters'.
Proof.
  induction assignment as [|vw a IH]; intros letters Hshape Hin;
    [by exists letters|].
  apply Forall_cons in Hin as [Hvw Hin]. cbn [for_each].
  destruct (write_word_in_grid w h vw.1 vw.2 _ letters (seq_lt_len _) Hshape Hvw)
    as (l1 & Hl1 & Hshape1).
  rewrite Hl1. cbn [bind]. by apply IH.
Qed.

Lemma letter_grid_loop_outside (w h : nat) (assignment : Assignment) :
  ∀ letters : Letters,
  well_shaped w h letters → ¬ in_grid w h assignment →
  for_each (λ letters vw,
      for_each (write_letter vw.1 vw.2) (seq 0 (len vw.2)) letters)
    assignment letters = Raise IndexError.
Proof.
  induction assignment as [|vw a IH]; intros letters Hshape Hout.
  { destruct Hout. constructor. }
  cbn [for_each].
  destruct (decide (word_in_grid w h vw.1 (seq 0 (len vw.2)))) as [Hvw|Hvw].
  - destruct (write_word_in_grid w h vw.1 vw.2 _ letters (seq_lt_len _) Hshape Hvw)
      as (l1 & Hl1 & Hshape1).
    rewrite Hl1. cbn [bind]. apply IH; [done|]. intros Hin. apply Hout.
    by constructor.
  - by rewrite (write_word_outside w h vw.1 vw.2 _ letters (seq_lt_len _) Hshape Hvw).
Qed.

Lemma letter_grid_loop_cells (assignment : Assignment) :
  ∀ (letters letters' : Letters) (i j : nat),
  for_each (λ letters vw,
      for_each (write_letter vw.1 vw.2) (seq 0 (len vw.2)) letters)
    assignment letters = Ok letters' →
  (∀ c, (∀ vw c', vw ∈ assignment → writes vw i j c' → c' = c) →
        (∃ vw, vw ∈ assignment ∧ writes vw i j c)
        ∨ cell letters i j = Some (Some c) →
        cell letters' i j = Some (Some c))
  ∧ ((∀ vw c, vw ∈ assignment → ¬ writes vw i j c) →
     cell letters' i j = cell letters i j).
Proof.
  induction assignment as [|vw a IH]; intros letters letters' i j Hrun.
  { injection Hrun as <-. split; [|done].
    intros c _ [(vw & Hvw%elem_of_nil & _)|Hcell]; done. }
  cbn [for_each] in Hrun. apply bind_Ok in Hrun as (l1 & Hword & Hrun).
  destruct (write_word_cells vw.1 vw.2 _ _ _ (NoDup_seq _ _) Hword i j)
    as [Hwritten Hkept].
  destruct (IH l1 letters' i j Hrun) as [IHshown IHblank]. split.
  - intros c Hagree Hsource. apply IHshown.
    { intros vw' c' Hin. apply Hagree. by right. }
    destruct (writes_dec_seq vw i j) as [[c' Hwrites]|Hnone].
    + right. assert (c' = c) as -> by (apply (Hagree vw); [by left|done]).
      destruct Hwrites as (k & Hc & Hsq). apply (Hwritten k c); [|done..].
      apply elem_of_seq. apply get_Some_lt in Hc. lia.
    + destruct Hsource as [(vw' & [->|Hin]%elem_of_cons & Hwrites)|Hcell].
      * destruct Hwrites as (k & Hc & Hsq). destruct (Hnone k); [|done].
        apply elem_of_seq. apply get_Some_lt in Hc. lia.
      * left. by exists vw'.
      * right. by rewrite Hkept.
  - intros Hnone. rewrite IHblank.
    + apply Hkept. intros k Hk%elem_of_seq Hsq.
      destruct (get_is_Some vw.2 k) as [c Hc]; [lia|].
      apply (Hnone vw c); [by left|]. by exists k.
    + intros vw' c Hin. apply Hnone. by right.
Qed.

Lemma blank_well_shaped (w h : nat) :
  well_shaped w h (replicate h (replicate w None)).
Proof.
  split; [apply length_replicate|]. apply Forall_replicate, length_replicate.
Qed.

Lemma cell_blank (w h i j : nat) :
  i < h → j < w → cell (replicate h (replicate w None)) i j = Some None.
Proof.
  intros Hi Hj. unfold cell. rewrite lookup_replicate_2 by done.
  by apply lookup_replicate_2.
Qed.

(** X25 — [letter_grid] inside the grid.  When every square of every
    assigned word lies inside the grid, [letter_grid] returns [height] rows
    of [width] cells. *)
Theorem letter_grid_in_grid (width height : nat) (assignment : Assignment) :
  in_grid width height assignment →
  ∃ letters,
    letter_grid width height assignment = Ok letters
    ∧ length letters = height
    ∧ Forall (λ row, length row = width) letters.
Proof.
  intros Hin. unfold letter_grid. cbv zeta.
  destruct (letter_grid_loop_in_grid width height assignment _
              (blank_well_shaped width height) Hin) as (letters & Hrun & Hlen & Hrows).
  by exists letters.
Qed.

Lemma letter_grid_in_grid_witness :
  let assignment : Assignment := [(across3, "CAT"); (down4, "ACES")] in
  in_grid 3 4 assignment
  ∧ ∃ letters,
      letter_grid 3 4 assignment = Ok letters
      ∧ length letters = 4
      ∧ Forall (λ row, length row = 3) letters.
Proof.
  intros assignment.
  assert (in_grid 3 4 assignment) as Hin by by_evaluation.
  split; [exact Hin|]. exact (letter_grid_in_grid 3 4 assignment Hin).
Defined.

(** X26 — [letter_grid] outside the grid.  When some square of an
    assigned word — a word longer than its slot, or a slot that leaves the
    grid — lies outside the grid, [letter_grid] raises [IndexError]. *)
Theorem letter_grid_outside_IndexError (width height : nat)
    (assignment : Assignment) :
  ¬ in_grid width height assignment →
  letter_grid width height assignment = Raise IndexError.
Proof.
  intros Hout. unfold letter_grid. cbv zeta.
  apply (letter_grid_loop_outside width height); [apply blank_well_shaped|done].
Qed.

Lemma letter_grid_outside_IndexError_witness :
  let assignment : Assignment := [(across3, "CATS")] in
  ¬ in_grid 3 4 assignment
  ∧ letter_grid 3 4 assignment = Raise IndexError.
Proof.
  intros assignment.
  assert (¬ in_grid 3 4 assignment) as Hout by by_evaluation.
  split; [exact Hout|]. exact (letter_grid_outside_IndexError 3 4 assignment Hout).
Defined.

(** X27 — [letter_grid] shows the words.  A square on which some entry of
    the assignment puts the letter [c] holds [c] in the grid returned,
    provided every entry that covers the square puts the same letter there
    (otherwise the last entry wins). *)
Theorem letter_grid_shows_words (width height : nat) (assignment : Assignment)
    (letters : Letters) (vw : Var.t * string) (i j : nat) (c : ascii) :
  letter_grid width height assignment = Ok letters →
  vw ∈ assignment → writes vw i j c →
  (∀ vw' c', vw' ∈ assignment → writes vw' i j c' → c' = c) →
  cell letters i j = Some (Some c).
Proof.
  intros Hrun Hvw Hwrites Hagree. unfold letter_grid in Hrun. cbv zeta in Hrun.
  destruct (letter_grid_loop_cells assignment _ _ i j Hrun) as [Hshown _].
  apply Hshown; [done|]. left. by exists vw.
Qed.

Lemma letter_grid_shows_words_witness :
  let assignment : Assignment := [(across3, "CAT"); (down4, "ACES")] in
  ∃ letters,
    letter_grid 3 4 assignment = Ok letters
    ∧ (across3, "CAT") ∈ assignment
    ∧ writes (across3, "CAT") 0 1 "A"%char
    ∧ cell letters 0 1 = Some (Some "A"%char).
Proof.
  intros assignment.
  destruct (letter_grid 3 4 assignment) as [letters|e] eqn:Hrun;
    [|exfalso; vm_compute in Hrun; discriminate Hrun].
  assert ((across3, "CAT") ∈ assignment) as Hvw by by_evaluation.
  assert (writes (across3, "CAT") 0 1 "A"%char) as Hwrites
    by (exists 1; split; vm_compute; reflexivity).
  assert (∀ vw' c', vw' ∈ assignment → writes vw' 0 1 c' → c' = "A"%char)
    as Hagree.
  { intros vw' c' Hin (k & Hc & Hsq).
    apply elem_of_cons in Hin as [->|Hin].
    - pose proof (get_Some_lt _ _ _ Hc) as Hk. vm_compute in Hk.
      destruct k as [|[|[|k]]]; try lia; vm_compute in Hc, Hsq; congruence.
    - apply list_elem_of_singleton in Hin as ->.
      pose proof (get_Some_lt _ _ _ Hc) as Hk. vm_compute in Hk.
      destruct k as [|[|[|[|k]]]]; try lia; vm_compute in Hc, Hsq; congruence. }
  exists letters. split_and!; [done|exact Hvw|exact Hwrites|].
  exact (letter_grid_shows_words 3 4 assignment letters _ 0 1 _
           Hrun Hvw Hwrites Hagree).
Defined.

(** X28 — [letter_grid] leaves the other cells empty.  A cell of the grid
    that no assigned word covers holds [None]. *)
Theorem letter_grid_blank_cells (width height : nat) (assignment : Assignment)
    (letters : Letters) (i j : nat) :
  letter_grid width height assignment = Ok letters →
  i < height → j < width →
  (∀ vw c, vw ∈ assignment → ¬ writes vw i j c) →
  cell letters i j = Some None.
Proof.
  intros Hrun Hi Hj Hnone. unfold letter_grid in Hrun. cbv zeta in Hrun.
  destruct (letter_grid_loop_cells assignment _ _ i j Hrun) as [_ Hblank].
  rewrite Hblank by done. by apply cell_blank.
Qed.

Lemma letter_grid_blank_cells_witness :
  let assignment : Assignment := [(across3, "CAT")] in
  ∃ letters,
    letter_grid 3 4 assignment = Ok letters
    ∧ 1 < 4 ∧ 0 < 3
    ∧ (∀ vw c, vw ∈ assignment → ¬ writes vw 1 0 c)
    ∧ cell letters 1 0 = Some None.
Proof.
  intros assignment.
  destruct (letter_grid 3 4 assignment) as [letters|e] eqn:Hrun;
    [|exfalso; vm_compute in Hrun; discriminate Hrun].
  assert (1 < 4) as Hi by lia.
  assert (0 < 3) as Hj by lia.
  assert (∀ vw c, vw ∈ assignment → ¬ writes vw 1 0 c) as Hnone.
  { intros vw c Hin (k & _ & Hsq). apply list_elem_of_singleton in Hin as ->.
    vm_compute in Hsq. discriminate Hsq. }
  exists letters. split_and!; [done|exact Hi|exact Hj|exact Hnone|].
  exact (letter_grid_blank_cells 3 4 assignment letters 1 0 Hrun Hi Hj Hnone).
Defined.
